(** * tp_timer: timestamping probe for network flow analysis

    A shallow embedding of [net/ipv4/tp_timer.c] and [tp_timer.h]:
    the fixed-capacity event log ([tp_timer], [tp_timer_init],
    [tp_release]), its reader ([seq_start], [seq_next], [seq_show]), the
    clock calibration ([cal_start], [cal_sort], [cal_stop]), the payload
    scanner ([tp_timer_data]) and the function that hands it the payload of
    a packet ([tp_timer_seq]).

    Conventions of the embedding.
    - C integers are [Z] with the wrap-around of their type written out
      ([as_ulong], [as_short], ...).  The data model is LP64 little endian
      (x86-64 Linux): [long] and [loff_t] have 64 bits, [int] has 32.
    - The static variables of the file form the record [kernel]; every C
      function is a function on that record.
    - An access outside an array or outside the memory object a pointer
      points into has no defined behaviour in C.  Such an access yields
      [Err OutOfBounds]; dereferencing [NULL] yields [Err NullDeref].
    - Loops are functions by recursion on a fuel argument; every top-level
      function supplies its own fuel, and running out of it ([Err OutOfFuel])
      is proved impossible.
    - [do_gettimeofday] reads the next value of an oracle, [wall_clock],
      kept in the state together with the number of readings made so far.
    - [printk] appends a structured message to [dmesg]; [seq_printf]
      produces the converted arguments of one output line.
    - [vmalloc] succeeds; whether [kmalloc] does is an argument of
      [seq_start].  An [sk_buff] is the memory object of the packet with the
      three pointers [tp_timer_seq] follows.  [seq_stop] (a [kfree]),
      [tp_open] and the registration of the proc entry are left out.

    The definitions come first: the model, the invariants, the
    specification-side notions and the concrete inputs.  The properties
    follow, grouped by component. *)

From Stdlib Require Import ZArith List Lia Bool QArith Qround.
From Stdlib Require Import Strings.Byte.
From stdpp Require Import base tactics option list sorting.

Local Open Scope Z_scope.

(** ** Machine integers *)

Definition wrap (bits x : Z) : Z := x mod 2 ^ bits.

Definition sign_wrap (bits x : Z) : Z :=
  let u := wrap bits x in
  if u <? 2 ^ (bits - 1) then u else u - 2 ^ bits.

Definition BITS_PER_LONG : Z := 64.

Definition as_ushort : Z -> Z := wrap 16.
Definition as_short : Z -> Z := sign_wrap 16.
Definition as_uint : Z -> Z := wrap 32.
Definition as_int : Z -> Z := sign_wrap 32.
Definition as_ulong : Z -> Z := wrap BITS_PER_LONG.
Definition as_long : Z -> Z := sign_wrap BITS_PER_LONG.

Definition is_short (x : Z) : Prop := - 2 ^ 15 <= x < 2 ^ 15.
Definition is_uint (x : Z) : Prop := 0 <= x < 2 ^ 32.
Definition is_ulong (x : Z) : Prop := 0 <= x < 2 ^ 64.

(** ** Results of partial operations *)

Inductive error : Type :=
| OutOfBounds
| NullDeref
| DivideByZero
| OutOfFuel.

Inductive result (A : Type) : Type :=
| Ok (a : A)
| Err (e : error).

Arguments Ok {A} a.
Arguments Err {A} e.

Definition is_Ok {A : Type} (r : result A) : bool :=
  match r with
  | Ok _ => true
  | Err _ => false
  end.

(** The value of [r], or [d] when [r] is an error. *)
Definition value_or {A : Type} (d : A) (r : result A) : A :=
  match r with
  | Ok a => a
  | Err _ => d
  end.

(** The computation makes no access out of bounds: its behaviour is defined. *)
Definition defined {A : Type} (r : result A) : Prop := r <> Err OutOfBounds.

Definition bind {A B : Type} (m : result A) (k : A -> result B) : result B :=
  match m with
  | Ok a => k a
  | Err e => Err e
  end.

Notation "'let*' x ':=' m 'in' k" := (bind m (fun x => k))
  (at level 10, x pattern, m at level 100, k at level 200).

(** [i < length a] for [0 <= i], decided by walking [a] for [i] cells at most. *)
Fixpoint below_length {A : Type} (a : list A) (i : Z) : bool :=
  match a with
  | [] => false
  | _ :: a => if i =? 0 then true else below_length a (i - 1)
  end.

(** Whether [i] indexes a cell of the object [a]. *)
Definition in_range {A : Type} (a : list A) (i : Z) : bool :=
  if 0 <=? i then below_length a i else false.

(** [a[i]] for a C array or pointer [a] whose object has [length a] cells. *)
Definition rd {A : Type} (a : list A) (i : Z) : result A :=
  if in_range a i then
    match a !! Z.to_nat i with
    | Some x => Ok x
    | None => Err OutOfBounds
    end
  else Err OutOfBounds.

(** [a[i] = x]. *)
Definition wr {A : Type} (a : list A) (i : Z) (x : A) : result (list A) :=
  if in_range a i then Ok (<[Z.to_nat i := x]> a) else Err OutOfBounds.

(** [for (i = lo; i < lo + n; i++) body], for a body that leaves [i] alone. *)
Fixpoint for_loop {S : Type} (n : nat) (i : Z) (body : Z -> S -> result S) (s : S)
  : result S :=
  match n with
  | O => Ok s
  | S n => let* s := body i s in for_loop n (i + 1) body s
  end.

(** ** Data model (tp_timer.h) *)

Definition TPS_SOCK : Z := 1.
Definition TPS_SOCK_TRANS : Z := 2.
Definition TPS_TCP_IP : Z := 3.
Definition TPS_UDP_IP : Z := 13.
Definition TPS_IP_NET : Z := 4.
Definition TPS_NET : Z := 5.
Definition TPR_NET : Z := 6.
Definition TPR_NET_IP : Z := 7.
Definition TPR_IP_TCP : Z := 8.
Definition TPR_IP_UDP : Z := 18.
Definition TPR_TCP_SOCK : Z := 9.
Definition TPR_UDP_SOCK : Z := 19.
Definition TPR_SOCK : Z := 10.

Record timeval : Type := mk_timeval {
  tv_sec : Z;   (* long *)
  tv_usec : Z   (* long *)
}.

(** [struct tp_timer_data]; the fields keep their C names inside the module. *)
Module Data.
Record t : Type := mk {
  id : Z;             (* unsigned short: identifies probing point *)
  ts : timeval;       (* microsecond timestamp *)
  seq : Z;            (* unsigned int: sequence number *)
  threadnr : Z;       (* unsigned int: number of thread *)
  timesrepeated : Z;  (* unsigned short: number of times seq is repeated *)
  count : Z           (* unsigned long: counter to detect missed logs *)
}.
(** What [memset (.., 0, ..)] leaves in one struct. *)
Definition zero : t := mk 0 (mk_timeval 0 0) 0 0 0 0.
End Data.

(** ** Constants (tp_timer.c) *)

Definition TP_TIMER_SPACE : Z := 500000.
Definition TP_TIMER_CAL : Z := 100.
Definition TP_TIMER_TRIMMEDMEAN : Z := 5.

(** ** Kernel log messages and output lines *)

Inductive printk_msg : Type :=
| MsgCalList (l : list Z)          (* cal_print *)
| MsgCalFinished (mean : Z)        (* "calibration finished. runtime ..." *)
| MsgInit                          (* "tp_timer_init: %d bytes allocated" *)
| MsgImplicitInit                  (* "implicit tp_timer initialization" *)
| MsgSpaceExceeded.                (* "tp_timer: memory space exceeded!" *)

(** The arguments of TP_TIMER_FORMAT,
    ["%-4lu id %-2hi seq %-8u thread %-8u ts %ld.%06ld x%hi\n"],
    each after the conversion its directive applies. *)
Record seq_line : Type := mk_line {
  out_count : Z;          (* %-4lu *)
  out_id : Z;             (* %-2hi *)
  out_seq : Z;            (* %-8u *)
  out_thread : Z;         (* %-8u *)
  out_sec : Z;            (* %ld *)
  out_usec : Z;           (* %06ld *)
  out_timesrepeated : Z   (* %hi *)
}.

(** ** The static variables of tp_timer.c *)

Record kernel : Type := mk_kernel {
  tp_timer_space : option (list Data.t);  (* NULL until tp_timer_init *)
  tp_timer_count : Z;                     (* unsigned long *)
  cal_usec : Z;                           (* unsigned long *)
  cal_mean : Z;                           (* unsigned long *)
  cal_list : list Z;                      (* unsigned long [TP_TIMER_CAL] *)
  cal_count : Z;                          (* int *)
  wall_clock : nat -> timeval;            (* readings of the wall clock *)
  ticks : nat;                            (* readings made so far *)
  dmesg : list printk_msg
}.

Definition set_space (sp : option (list Data.t)) (st : kernel) : kernel :=
  mk_kernel sp (tp_timer_count st) (cal_usec st) (cal_mean st) (cal_list st)
            (cal_count st) (wall_clock st) (ticks st) (dmesg st).

Definition set_count (n : Z) (st : kernel) : kernel :=
  mk_kernel (tp_timer_space st) n (cal_usec st) (cal_mean st) (cal_list st)
            (cal_count st) (wall_clock st) (ticks st) (dmesg st).

Definition set_cal_usec (u : Z) (st : kernel) : kernel :=
  mk_kernel (tp_timer_space st) (tp_timer_count st) u (cal_mean st) (cal_list st)
            (cal_count st) (wall_clock st) (ticks st) (dmesg st).

Definition set_cal_mean (m : Z) (st : kernel) : kernel :=
  mk_kernel (tp_timer_space st) (tp_timer_count st) (cal_usec st) m (cal_list st)
            (cal_count st) (wall_clock st) (ticks st) (dmesg st).

Definition set_cal_list (l : list Z) (st : kernel) : kernel :=
  mk_kernel (tp_timer_space st) (tp_timer_count st) (cal_usec st) (cal_mean st) l
            (cal_count st) (wall_clock st) (ticks st) (dmesg st).

Definition set_cal_count (c : Z) (st : kernel) : kernel :=
  mk_kernel (tp_timer_space st) (tp_timer_count st) (cal_usec st) (cal_mean st)
            (cal_list st) c (wall_clock st) (ticks st) (dmesg st).

Definition set_dmesg (d : list printk_msg) (st : kernel) : kernel :=
  mk_kernel (tp_timer_space st) (tp_timer_count st) (cal_usec st) (cal_mean st)
            (cal_list st) (cal_count st) (wall_clock st) (ticks st) d.

Definition printk (m : printk_msg) (st : kernel) : kernel :=
  set_dmesg (dmesg st ++ [m]) st.

Definition do_gettimeofday (st : kernel) : timeval * kernel :=
  (wall_clock st (ticks st),
   mk_kernel (tp_timer_space st) (tp_timer_count st) (cal_usec st) (cal_mean st)
             (cal_list st) (cal_count st) (wall_clock st) (S (ticks st)) (dmesg st)).

(** The state a freshly loaded kernel image has: every static is zero. *)
Definition boot (clock : nat -> timeval) : kernel :=
  mk_kernel None 0 0 0 (replicate (Z.to_nat TP_TIMER_CAL) 0) 0 clock O [].

(** ** Sequential file interface *)

(** [seq_next]: the new cursor, or [None] for the end of the sequence. *)
Definition seq_next (spos : Z) (st : kernel) : option Z :=
  if tp_timer_count st <=? as_ulong spos then None
  else Some (sign_wrap 64 (spos + 1)).

(** [seq_show]: the line printed for cursor [v], if any.  The comparison of
    the [loff_t] cursor with the [unsigned long] count is unsigned. *)
Definition seq_show (v : Z) (st : kernel) : result (option seq_line) :=
  if tp_timer_count st <=? as_ulong v then Ok None
  else
    match tp_timer_space st with
    | None => Err NullDeref
    | Some space =>
        let* data := rd space v in
        Ok (Some (mk_line (Data.count data)
                          (as_short (Data.id data))
                          (Data.seq data)
                          (Data.threadnr data)
                          (tv_sec (Data.ts data))
                          (tv_usec (Data.ts data))
                          (as_short (Data.timesrepeated data))))
    end.

(** [tp_release]: reset allocated memory. *)
Definition tp_release (st : kernel) : result kernel :=
  match tp_timer_space st with
  | None => Err NullDeref
  | Some _ =>
      let st := set_space (Some (replicate (Z.to_nat TP_TIMER_SPACE) Data.zero)) st in
      Ok (set_count 0 st)
  end.

(** ** Calibration *)

(** The two loop bounds of [cal_stop],
    [(int)(TP_TIMER_CAL/100.0*TP_TIMER_TRIMMEDMEAN)] and
    [(int)(TP_TIMER_CAL/100.0*(100-TP_TIMER_TRIMMEDMEAN))].  The quotient and
    the products are whole numbers, which [double] represents exactly, so the
    rational computation gives what the C expression gives. *)
Definition trim_bound (percent : Z) : Z :=
  Qfloor ((inject_Z TP_TIMER_CAL / inject_Z 100) * inject_Z percent)%Q.

Definition trim_lo : Z := trim_bound TP_TIMER_TRIMMEDMEAN.
Definition trim_hi : Z := trim_bound (100 - TP_TIMER_TRIMMEDMEAN).

Definition cal_start (st : kernel) : kernel :=
  if TP_TIMER_CAL <=? cal_count st then st
  else
    let (cal_ts, st) := do_gettimeofday st in
    set_cal_usec (as_ulong (tv_usec cal_ts)) st.

(** [do { ++i; } while (a[i] < v);] with [unsigned long i]. *)
Fixpoint scan_up (fuel : nat) (a : list Z) (v i : Z) : result Z :=
  match fuel with
  | O => Err OutOfFuel
  | S fuel =>
      let i := as_ulong (i + 1) in
      let* x := rd a i in
      if x <? v then scan_up fuel a v i else Ok i
  end.

(** [do { --j; } while (a[j] > v);] with [unsigned long j]. *)
Fixpoint scan_down (fuel : nat) (a : list Z) (v j : Z) : result Z :=
  match fuel with
  | O => Err OutOfFuel
  | S fuel =>
      let j := as_ulong (j - 1) in
      let* x := rd a j in
      if v <? x then scan_down fuel a v j else Ok j
  end.

(** [x = a[i]; a[i] = a[j]; a[j] = x;] *)
Definition swap (a : list Z) (i j : Z) : result (list Z) :=
  let* x := rd a i in
  let* y := rd a j in
  let* a := wr a i y in
  wr a j x.

(** The [while (1)] loop of [cal_sort]. *)
Fixpoint partition (fuel : nat) (a : list Z) (v i j : Z) : result (list Z * Z * Z) :=
  match fuel with
  | O => Err OutOfFuel
  | S fuel =>
      let* i := scan_up fuel a v i in
      let* j := scan_down fuel a v j in
      if j <=? i then Ok (a, i, j)
      else
        let* a := swap a i j in
        partition fuel a v i j
  end.

(** [cal_sort (a, m, n)] with [int m, n] and [unsigned long i, j, v, x]. *)
Fixpoint cal_sort (fuel : nat) (a : list Z) (m n : Z) : result (list Z) :=
  match fuel with
  | O => Err OutOfFuel
  | S fuel =>
      if m <? n then
        let i := as_ulong (m - 1) in
        let j := as_ulong n in
        let* v := rd a n in
        let* (a, i, j) := partition fuel a v i j in
        let* a := swap a i n in
        let* a := cal_sort fuel a m (as_int j) in
        cal_sort fuel a (as_int (as_ulong (i + 1))) n
      else Ok a
  end.

(** Fuel for the one call [cal_sort (cal_list, 0, TP_TIMER_CAL - 1)]. *)
Definition cal_sort_fuel : nat := 400.

(** The body of the summing loop of [cal_stop] on the pair
    [(cal_mean, count)]. *)
Definition cal_sum_step (l : list Z) (i : Z) (s : Z * Z) : result (Z * Z) :=
  let* x := rd l i in
  Ok (as_ulong (fst s + x), as_int (snd s + 1)).

Definition cal_stop (usec : Z) (st : kernel) : result kernel :=
  if TP_TIMER_CAL <=? cal_count st then Ok st
  else
    let* l := wr (cal_list st) (cal_count st) (as_ulong (usec - cal_usec st)) in
    let st := set_cal_list l st in
    let st := set_cal_count (as_int (cal_count st + 1)) st in
    if cal_count st =? TP_TIMER_CAL then
      let* l := cal_sort cal_sort_fuel (cal_list st) 0 (TP_TIMER_CAL - 1) in
      let st := set_cal_list l st in
      let st := printk (MsgCalList l) st in
      let* (mean, count) :=
        for_loop (Z.to_nat (trim_hi - trim_lo)) trim_lo (cal_sum_step l)
                 (cal_mean st, 0) in
      if as_ulong count =? 0 then Err DivideByZero
      else
        let st := set_cal_mean (mean / as_ulong count) st in
        let st := printk (MsgCalFinished (cal_mean st)) st in
        Ok (set_cal_count (as_int (cal_count st + 1)) st)
    else Ok st.

(** ** The event log *)

Definition tp_timer_init (st : kernel) : kernel :=
  let st := set_space (Some (replicate (Z.to_nat TP_TIMER_SPACE) Data.zero)) st in
  printk MsgInit st.

(** [tp_timer (id, seq, threadnr, timesrepeated)]; [id] and [timesrepeated]
    are [short] parameters stored into [unsigned short] fields. *)
(** [if (tp_timer_space == NULL) { printk (..); tp_timer_init (); }] *)
Definition implicit_init (st : kernel) : kernel :=
  match tp_timer_space st with
  | None => tp_timer_init (printk MsgImplicitInit st)
  | Some _ => st
  end.

Definition tp_timer (id seq threadnr timesrepeated : Z) (st : kernel) : result kernel :=
  let st := implicit_init st in
  if TP_TIMER_SPACE <=? tp_timer_count st then Ok (printk MsgSpaceExceeded st)
  else
    match tp_timer_space st with
    | None => Err NullDeref
    | Some space =>
        let n := tp_timer_count st in
        let (now, st) := do_gettimeofday st in
        let* st := cal_stop (as_ulong (tv_usec now)) st in
        let usec := as_long (as_ulong (tv_usec now) - cal_mean st) in
        let data :=
          Data.mk (as_ushort id) (mk_timeval (tv_sec now) usec)
                  seq threadnr (as_ushort timesrepeated) n in
        let* space := wr space n data in
        let st := set_space (Some space) st in
        Ok (set_count (as_ulong (tp_timer_count st + 1)) st)
    end.

(** ** Data collection: the payload scanner *)

(** A pointer of [tp_timer_data] is an offset into the memory object [mem] it
    points into (the buffer of an [sk_buff] from [head] to [end]); [tail]
    marks the end of the valid data inside that object. *)
Definition memory : Type := list byte.

Definition byte_val (b : byte) : Z := Z.of_N (Byte.to_N b).

(** [*(int * )p], little endian, as the [unsigned int] every use in
    [tp_timer_data] converts it to. *)
Definition read_word (mem : memory) (p : Z) : result Z :=
  let* b0 := rd mem p in
  let* b1 := rd mem (p + 1) in
  let* b2 := rd mem (p + 2) in
  let* b3 := rd mem (p + 3) in
  Ok (byte_val b0 + 2 ^ 8 * byte_val b1 + 2 ^ 16 * byte_val b2 + 2 ^ 24 * byte_val b3).

Definition ALL_ONES : Z := 0xffffffff.

(** [for (i = 0; i < 2; i++) if ( *(((int * )data)+i) != 0xffffffff) break;]
    The result is the final [i]. *)
Definition sentinel_words (mem : memory) (data : Z) : result Z :=
  let* w0 := read_word mem data in
  if negb (w0 =? ALL_ONES) then Ok 0
  else
    let* w1 := read_word mem (data + 4) in
    if negb (w1 =? ALL_ONES) then Ok 1 else Ok 2.

(** "Find first 8 Bytes of ff": [Some data] where the loop leaves through
    [break], [None] where it leaves through [return]. *)
Fixpoint find_sentinel (fuel : nat) (mem : memory) (data tail : Z) : result (option Z) :=
  match fuel with
  | O => Err OutOfFuel
  | S fuel =>
      let* i := sentinel_words mem data in
      if i =? 2 then Ok (Some data)
      else
        let data := data + 1 in
        if tail <? data then Ok None
        else find_sentinel fuel mem data tail
  end.

(** [while ( *(int * )data == 0xffffffff && *(((int * )data)+1) == 0xffffffff) data++;] *)
Fixpoint skip_sentinel (fuel : nat) (mem : memory) (data : Z) : result Z :=
  match fuel with
  | O => Err OutOfFuel
  | S fuel =>
      let* w0 := read_word mem data in
      if w0 =? ALL_ONES then
        let* w1 := read_word mem (data + 4) in
        if w1 =? ALL_ONES then skip_sentinel fuel mem (data + 1) else Ok data
      else Ok data
  end.

Section Scanner.
(** The scanner hands every run to [tp_timer]; it is written here over the
    function it calls, [emit], and the state [T] that function works on, so
    that the calls it makes can be observed on their own. *)
Context {T : Type}.
Variable emit : Z -> Z -> Z -> Z -> T -> result T.

(** The locals [lastSeq], [lastThreadnr], [count] and the state. *)
Definition run_state : Type := Z * Z * Z * T.

(** "Now count the Seq Numbers": the loop
    [while (intdata <= (int * )tail - 2)]. *)
Fixpoint count_seq (fuel : nat) (id : Z) (mem : memory) (intdata tail : Z)
         (lastSeq lastThreadnr count : Z) (s : T) : result run_state :=
  match fuel with
  | O => Err OutOfFuel
  | S fuel =>
      if intdata <=? tail - 8 then
        let* w1 := read_word mem (intdata + 4) in
        let* differs :=
          if negb (w1 =? lastSeq) then Ok true
          else
            let* w0 := read_word mem intdata in
            Ok (negb (w0 =? lastThreadnr)) in
        let* (s, count) :=
          if differs : bool then
            let* s :=
              if negb (count =? 0)
              then emit id lastSeq lastThreadnr (as_short count) s
              else Ok s in
            Ok (s, 0)
          else Ok (s, count) in
        let* lastSeq := read_word mem (intdata + 4) in
        let* lastThreadnr := read_word mem intdata in
        let count := as_int (count + 1) in
        count_seq fuel id mem (intdata + 16) tail lastSeq lastThreadnr count s
      else Ok (lastSeq, lastThreadnr, count, s)
  end.

(** [tp_timer_data] after its call of [cal_start]. *)
Definition scan (id : Z) (mem : memory) (data tail : Z) (s : T) : result T :=
  let fuel := S (length mem) in
  let lastSeq := 0 in
  let lastThreadnr := 0 in
  let count := 0 in
  let* found := find_sentinel fuel mem data tail in
  match found with
  | None => Ok s   (* mal formed: return *)
  | Some data =>
      let* data := skip_sentinel fuel mem data in
      let data := data - 1 in   (* last step was a bad one *)
      let data := data + 8 in   (* skip the 8 bytes of ff *)
      let intdata := data in
      let* (lastSeq, lastThreadnr, count, s) :=
        count_seq fuel id mem intdata tail lastSeq lastThreadnr count s in
      emit id lastSeq lastThreadnr (as_short count) s
  end.
End Scanner.

Definition tp_timer_data (id : Z) (mem : memory) (data tail : Z) (st : kernel)
  : result kernel :=
  scan tp_timer id mem data tail (cal_start st).

(** One call of [tp_timer]: its four arguments. *)
Record call : Type := mk_call {
  c_id : Z;
  c_seq : Z;
  c_threadnr : Z;
  c_timesrepeated : Z
}.

Definition record_call (id seq threadnr timesrepeated : Z) (tr : list call)
  : result (list call) :=
  Ok (tr ++ [mk_call id seq threadnr timesrepeated]).

(** The calls of [tp_timer] that [tp_timer_data] makes, in order. *)
Definition emissions (id : Z) (mem : memory) (data tail : Z) : result (list call) :=
  scan record_call id mem data tail [].

Definition run_call {T : Type} (emit : Z -> Z -> Z -> Z -> T -> result T) (c : call)
  : T -> result T :=
  emit (c_id c) (c_seq c) (c_threadnr c) (c_timesrepeated c).

(** Performing a list of steps in order, stopping at the first error. *)
Fixpoint run_all {T E : Type} (f : E -> T -> result T) (es : list E) (s : T) : result T :=
  match es with
  | [] => Ok s
  | e :: es => let* s := f e s in run_all f es s
  end.

(** A sequence of [tp_timer] calls. *)
Definition appends (cs : list call) (st : kernel) : result kernel :=
  run_all (run_call tp_timer) cs st.

(** The arguments of a call have the types of the parameters of [tp_timer]. *)
Definition call_typed (c : call) : Prop :=
  is_short (c_id c) /\ is_uint (c_seq c) /\ is_uint (c_threadnr c) /\
  is_short (c_timesrepeated c).


(** ** Sequential file interface: one reading *)

(** [seq_start]: the cursor allocated for the position [pos].  [kmalloc_ok]
    tells whether [kmalloc] returned memory; [None] is [NULL]. *)
Definition seq_start (kmalloc_ok : bool) (pos : Z) : option Z :=
  if kmalloc_ok then Some pos else None.

(** The calls that the seq_file core makes on the operations of [seq_ops]
    from the cursor [v] on: [seq_show], then [seq_next], in turn until
    [seq_next] returns [NULL].  The result is the list of the lines
    printed. *)
Fixpoint seq_walk (fuel : nat) (v : Z) (st : kernel) : result (list seq_line) :=
  match fuel with
  | O => Err OutOfFuel
  | S fuel =>
      let* line := seq_show v st in
      let* rest :=
        match seq_next v st with
        | None => Ok []
        | Some v => seq_walk fuel v st
        end in
      Ok (match line with
          | Some l => l :: rest
          | None => rest
          end)
  end.

(** One reading of the proc file from the position [pos]: [seq_start], and
    the walk from the cursor it returns.  The walk visits one cursor more
    than there are records. *)
Definition seq_read (kmalloc_ok : bool) (pos : Z) (st : kernel) : result (list seq_line) :=
  match seq_start kmalloc_ok pos with
  | None => Ok []
  | Some v => seq_walk (S (S (Z.to_nat (tp_timer_count st)))) v st
  end.

(** ** Picking the payload out of a socket buffer *)

(** The fields of [struct sk_buff] that [tp_timer_seq] uses.  The pointers
    are offsets into the memory object that holds the packet; [nh.iph] may
    be [NULL]; [h] is a union, so [h.th] and [h.uh] are one pointer. *)
Record sk_buff : Type := mk_skb {
  skb_mem : memory;
  nh_iph : option Z;   (* nh.iph *)
  h_th : Z;            (* h.th, h.uh *)
  skb_tail : Z         (* tail *)
}.

(** [iph->protocol]: the [__u8] at offset 9 of [struct iphdr]. *)
Definition iph_protocol (mem : memory) (iph : Z) : result Z :=
  let* b := rd mem (iph + 9) in
  Ok (byte_val b).

(** [*p] for [char * p], promoted to [int]: [char] is signed. *)
Definition read_char (mem : memory) (p : Z) : result Z :=
  let* b := rd mem p in
  Ok (sign_wrap 8 (byte_val b)).

(** [*p] for [int * p]. *)
Definition read_int (mem : memory) (p : Z) : result Z :=
  let* w := read_word mem p in
  Ok (as_int w).

Definition IPPROTO_TCP : Z := 6.
Definition IPPROTO_UDP : Z := 17.

(** [tp_timer_seq (id, skb)]: the two [if] statements one after the other;
    in the second, [doff], [flags] and [data] are set before the flags are
    tested. *)
Definition tp_timer_seq (id : Z) (skb : sk_buff) (st : kernel) : result kernel :=
  let mem := skb_mem skb in
  (* if (skb->nh.iph != 0 && skb->nh.iph->protocol == 17) *)
  let* udp :=
    match nh_iph skb with
    | None => Ok false
    | Some iph => let* p := iph_protocol mem iph in Ok (p =? 17)
    end in
  let* st :=
    if udp : bool then
      let data := h_th skb + 4 * 2 in
      tp_timer_data id mem data (skb_tail skb) st
    else Ok st in
  (* if (skb->nh.iph == 0 || skb->nh.iph->protocol == 6) *)
  let* tcp :=
    match nh_iph skb with
    | None => Ok true
    | Some iph => let* p := iph_protocol mem iph in Ok (p =? 6)
    end in
  if tcp : bool then
    let doff := h_th skb + 12 in
    let flags := doff + 1 in
    let* d := read_char mem doff in
    let data := h_th skb + Z.land (Z.shiftr d 4) 15 * 4 in
    let* f := read_int mem flags in
    if negb (Z.land f 2 =? 0) then Ok st        (* SYN *)
    else if negb (Z.land f 1 =? 0) then Ok st   (* FIN *)
    else if negb (Z.land f 4 =? 0) then Ok st   (* RST *)
    else if negb (Z.land f 16 =? 0) && (data =? skb_tail skb) then Ok st  (* ACK only *)
    else tp_timer_data id mem data (skb_tail skb) st
  else Ok st.


(** * Invariants and runs *)

(** [oob_only r]: the computation [r] does not run out of fuel, does not
    dereference [NULL] and does not divide by zero. *)
Definition oob_only {A : Type} (r : result A) : Prop :=
  forall e, r = Err e -> e = OutOfBounds.

(** The calibration variables are well formed: the window has its
    [TP_TIMER_CAL] cells and the counter is not negative. *)
Definition cal_wf (st : kernel) : Prop :=
  Z.of_nat (length (cal_list st)) = TP_TIMER_CAL /\ 0 <= cal_count st.

(** Calibration is over: [cal_start] and [cal_stop] return at once. *)
Definition converged (st : kernel) : Prop := TP_TIMER_CAL <= cal_count st.

(** The state [cal_stop] leaves when the window fills: [l] is the window
    after [cal_sort], [mean] and [count] are what the summing loop leaves. *)
Definition cal_finished (l : list Z) (mean count : Z) (st : kernel) : kernel :=
  let st := printk (MsgCalList l) (set_cal_list l st) in
  let st := set_cal_mean (mean / as_ulong count) st in
  let st := printk (MsgCalFinished (cal_mean st)) st in
  set_cal_count (as_int (cal_count st + 1)) st.

(** The log variables are well formed: the count is within the capacity, and
    the storage, once allocated, has its [TP_TIMER_SPACE] cells. *)
Definition log_wf (st : kernel) : Prop :=
  0 <= tp_timer_count st <= TP_TIMER_SPACE /\
  match tp_timer_space st with
  | None => tp_timer_count st = 0
  | Some space => Z.of_nat (length space) = TP_TIMER_SPACE
  end.

(** The record at position [i] carries ordinal [i], for every [i] below the
    count. *)
Definition ordinals_contiguous (st : kernel) : Prop :=
  forall i, 0 <= i < tp_timer_count st ->
    exists space d,
      tp_timer_space st = Some space /\ rd space i = Ok d /\ Data.count d = i.

(** The ordinals of the resident records increase strictly with the position. *)
Definition ordinals_increasing (st : kernel) : Prop :=
  forall space i j di dj,
    tp_timer_space st = Some space ->
    0 <= i -> i < j -> j < tp_timer_count st ->
    rd space i = Ok di -> rd space j = Ok dj ->
    Data.count di < Data.count dj.

(** What holds of every reachable state. *)
Definition kernel_inv (st : kernel) : Prop :=
  log_wf st /\ cal_wf st /\ ordinals_contiguous st.

(** Position [i] of the log storage holds the record [d]. *)
Definition stored (st : kernel) (i : Z) (d : Data.t) : Prop :=
  exists space, tp_timer_space st = Some space /\ rd space i = Ok d.

(** The line [seq_show] prints for the record [d]. *)
Definition line_of (d : Data.t) : seq_line :=
  mk_line (Data.count d) (as_short (Data.id d)) (Data.seq d) (Data.threadnr d)
          (tv_sec (Data.ts d)) (tv_usec (Data.ts d)) (as_short (Data.timesrepeated d)).

(** What the entry points of the file can do to the state.  [tp_timer_init]
    runs once, before the storage exists; the reader only looks. *)
Inductive step : kernel -> kernel -> Prop :=
| step_init st :
    tp_timer_space st = None -> step st (tp_timer_init st)
| step_tp_timer id seq threadnr timesrepeated st st' :
    tp_timer id seq threadnr timesrepeated st = Ok st' -> step st st'
| step_tp_timer_data id mem data tail st st' :
    tp_timer_data id mem data tail st = Ok st' -> step st st'
| step_release st st' :
    tp_release st = Ok st' -> step st st'.

Inductive reachable : kernel -> Prop :=
| reachable_boot clock : reachable (boot clock)
| reachable_step st st' : reachable st -> step st st' -> reachable st'.

(** ** Cells of an array *)

(** Every cell from [lo] to [hi] holds at most [v]. *)
Definition cells_le (a : list Z) (lo hi v : Z) : Prop :=
  forall k x, lo <= k <= hi -> rd a k = Ok x -> x <= v.

(** Every cell from [lo] to [hi] holds at least [v]. *)
Definition cells_ge (a : list Z) (lo hi v : Z) : Prop :=
  forall k x, lo <= k <= hi -> rd a k = Ok x -> v <= x.

(** The cells from [lo] to [hi] are in ascending order. *)
Definition sorted_cells (a : list Z) (lo hi : Z) : Prop :=
  forall k1 k2 x1 x2,
    lo <= k1 -> k1 <= k2 -> k2 <= hi ->
    rd a k1 = Ok x1 -> rd a k2 = Ok x2 -> x1 <= x2.

(** [b] is [a] with the cells from [lo] to [hi] rearranged: the same length,
    the same cells elsewhere, every cell of the range taken from the range,
    and the same elements overall. *)
Definition rearranged (a b : list Z) (lo hi : Z) : Prop :=
  length b = length a /\
  b ≡ₚ a /\
  (forall k, k < lo \/ hi < k -> rd b k = rd a k) /\
  (forall k x, lo <= k <= hi -> rd b k = Ok x ->
               exists k', lo <= k' <= hi /\ rd a k' = Ok x).

(** The cell below the range, where there is one, holds at most [v]: it
    stops the downward scan. *)
Definition guarded_below (a : list Z) (m v : Z) : Prop :=
  m = 0 \/ exists y, rd a (m - 1) = Ok y /\ y <= v.

(** ** The trimmed mean *)

Definition sum_Z (l : list Z) : Z := foldr Z.add 0 l.

(** The trimmed mean as the specification words it (4.1): sort the samples,
    discard the trimmed percentage from each end, average the remainder. *)
Definition trimmed_mean (window : list Z) : Z :=
  let sorted := merge_sort Z.le window in
  let kept := take (Z.to_nat (trim_hi - trim_lo)) (drop (Z.to_nat trim_lo) sorted) in
  sum_Z kept / Z.of_nat (length kept).

(** ** What a buffer holds *)

(** The sentinel starts at [p]: eight bytes of [ff]. *)
Definition sentinel_at (mem : memory) (p : Z) : Prop :=
  forall k, 0 <= k < 8 -> rd mem (p + k) = Ok Byte.xff.

(** No sentinel starts at [p], and the memory shows it: the word at [p] is
    there and is not all ones, or it is all ones and the word after it is
    there and is not. *)
Definition no_sentinel_at (mem : memory) (p : Z) : Prop :=
  exists w0, read_word mem p = Ok w0 /\
    (w0 <> ALL_ONES \/
     exists w1, read_word mem (p + 4) = Ok w1 /\ w1 <> ALL_ONES).

Definition word_at (mem : memory) (p : Z) : Z := value_or 0 (read_word mem p).

(** The pair (thread number, sequence number) of the field group at [p]. *)
Definition pair_at (mem : memory) (p : Z) : Z * Z := (word_at mem p, word_at mem (p + 4)).

(** The number of field groups, 16 bytes apart, that start at or after
    [start] and have their two words before [tail]. *)
Definition groups (start tail : Z) : nat := Z.to_nat ((tail - 8 - start) / 16 + 1).

Fixpoint walk (n : nat) (mem : memory) (p : Z) : list (Z * Z) :=
  match n with
  | O => []
  | S n => pair_at mem p :: walk n mem (p + 16)
  end.

(** The pairs the scanner walks over from the payload start. *)
Definition walked (mem : memory) (start tail : Z) : list (Z * Z) :=
  walk (groups start tail) mem start.

(** A run: the pair (thread number, sequence number) and its count. *)
Definition run : Type := (Z * Z) * Z.

Definition same_pair (p q : Z * Z) : bool := (fst p =? fst q) && (snd p =? snd q).

(** The run-length encoding as the specification words it (4.2, step 3):
    keep a current run and its count; when the pair read differs from the
    current run, close the current run, emitting it unless its count is zero,
    and start a new run; when the pairs are exhausted, emit the open run
    whatever its count.  [rle_from] gives the closed runs and the open one. *)
Fixpoint rle_from (cur : Z * Z) (count : Z) (ps : list (Z * Z)) : list run * run :=
  match ps with
  | [] => ([], (cur, count))
  | p :: ps =>
      if same_pair p cur then rle_from cur (count + 1) ps
      else
        let (closed, last) := rle_from p 1 ps in
        ((if count =? 0 then [] else [(cur, count)]) ++ closed, last)
  end.

Definition rle (ps : list (Z * Z)) : list run :=
  let (closed, last) := rle_from (0, 0) 0 ps in closed ++ [last].

(** The pairs a list of runs stands for. *)
Definition expand (rs : list run) : list (Z * Z) :=
  flat_map (fun r => replicate (Z.to_nat (snd r)) (fst r)) rs.

(** The call of [tp_timer] that hands over a run. *)
Definition call_of_run (id : Z) (r : run) : call :=
  mk_call id (snd (fst r)) (fst (fst r)) (snd r).

(** The calls the rest of the kernel can make into the calibration. *)
Inductive cal_event : Type :=
| CalStart
| CalStop (usec : Z).

Definition cal_step (e : cal_event) (st : kernel) : result kernel :=
  match e with
  | CalStart => Ok (cal_start st)
  | CalStop usec => cal_stop usec st
  end.

Definition cal_run (es : list cal_event) (st : kernel) : result kernel :=
  run_all cal_step es st.

(** The number of samples a sequence of calls feeds. *)
Fixpoint samples (es : list cal_event) : Z :=
  match es with
  | [] => 0
  | CalStart :: es => samples es
  | CalStop _ :: es => 1 + samples es
  end.

(** The counter after [n] samples fed to a calibration that has seen [k]. *)
Definition count_after (k n : Z) : Z :=
  if TP_TIMER_CAL <=? k then k
  else if k + n <? TP_TIMER_CAL then k + n
  else TP_TIMER_CAL + 1.

(** ** What the log holds *)

(** The records resident in the log: the cells below the count. *)
Definition resident (st : kernel) : list Data.t :=
  match tp_timer_space st with
  | None => []
  | Some space => take (Z.to_nat (tp_timer_count st)) space
  end.

(** The record [tp_timer] stores for the call [c] as record number [n] when
    the clock shows [now] and the correction is [mean]. *)
Definition record_of (c : call) (n : Z) (now : timeval) (mean : Z) : Data.t :=
  Data.mk (as_ushort (c_id c))
          (mk_timeval (tv_sec now) (as_long (as_ulong (tv_usec now) - mean)))
          (c_seq c) (c_threadnr c) (as_ushort (c_timesrepeated c)) n.

(** ** The phases of the calibration *)

(** The calibration is collecting and no correction is in force, or it has
    converged. *)
Definition cal_phase (st : kernel) : Prop :=
  (0 <= cal_count st < TP_TIMER_CAL /\ cal_mean st = 0) \/
  (cal_count st = TP_TIMER_CAL + 1 /\ 0 <= cal_mean st < 2 ^ 58).

(** The window once [cal_stop (usec)] has stored its sample in it. *)
Definition cal_window (usec : Z) (st : kernel) : list Z :=
  <[Z.to_nat (cal_count st) := as_ulong (usec - cal_usec st)]> (cal_list st).

(** ** Runs *)

(** No two neighbours in a list of runs have the same pair. *)
Definition runs_differ (rs : list run) : Prop :=
  forall i r r', rs !! i = Some r -> rs !! S i = Some r' -> fst r <> fst r'.

(** ** What a packet holds *)

(** The IP header of the packet is there and names the protocol [n]. *)
Definition names_protocol (skb : sk_buff) (n : Z) : Prop :=
  exists iph b,
    nh_iph skb = Some iph /\ rd (skb_mem skb) (iph + 9) = Ok b /\ byte_val b = n.

(** The packet is taken for a TCP segment: it has no IP header, or its IP
    header names TCP. *)
Definition taken_for_tcp (skb : sk_buff) : Prop :=
  nh_iph skb = None \/ names_protocol skb IPPROTO_TCP.

(** The flag bits of a TCP header, in the byte at offset 13. *)
Definition TCP_FIN : Z := 0.
Definition TCP_SYN : Z := 1.
Definition TCP_RST : Z := 2.
Definition TCP_ACK : Z := 4.

(** The byte at offset 12 of the TCP header is [d], the byte at offset 13
    is [fl], and the header can be read as far as [tp_timer_seq] reads it:
    the four bytes from offset 13 on. *)
Definition tcp_header (skb : sk_buff) (d fl : byte) : Prop :=
  rd (skb_mem skb) (h_th skb + 12) = Ok d /\
  rd (skb_mem skb) (h_th skb + 13) = Ok fl /\
  h_th skb + 17 <= Z.of_nat (length (skb_mem skb)).

(** The data offset of a TCP header whose byte 12 is [d], in bytes: four
    times the upper half of the byte. *)
Definition tcp_data_offset (d : byte) : Z := 4 * (byte_val d / 16).


(** * Concrete states and inputs *)

(** A clock that shows the microsecond [usec] of a new second at every reading. *)
Definition steady_clock (usec : Z) : nat -> timeval :=
  fun n => mk_timeval (1000 + Z.of_nat n) usec.

(** A log that holds [TP_TIMER_SPACE] records. *)
Definition full_log : kernel :=
  mk_kernel (Some (replicate (Z.to_nat TP_TIMER_SPACE) Data.zero)) TP_TIMER_SPACE
            0 0 (replicate (Z.to_nat TP_TIMER_CAL) 0) 0 (steady_clock 5) O [].

Definition three_calls : list call :=
  [mk_call TPS_SOCK 10 7 1; mk_call TPS_SOCK_TRANS 11 7 1; mk_call (-3) 12 8 2].

(** The state after the three calls on a freshly booted kernel. *)
Definition after_three_calls : kernel :=
  value_or (boot (steady_clock 5)) (appends three_calls (boot (steady_clock 5))).

Definition byte_of (n : Z) : byte :=
  match Byte.of_N (Z.to_N (n mod 256)) with
  | Some b => b
  | None => x00
  end.

(** The four bytes of a word, little endian. *)
Definition word_bytes (w : Z) : list byte :=
  [byte_of w; byte_of (w / 2 ^ 8); byte_of (w / 2 ^ 16); byte_of (w / 2 ^ 24)].

Definition words (ws : list Z) : memory := flat_map word_bytes ws.

(** Eight bytes of ff, three field groups of thread 1 and sequence 5, and the
    two words of a group of thread 1 and sequence 6. *)
Definition example_buffer : memory :=
  words [ALL_ONES; ALL_ONES; 1; 5; 0; 0; 1; 5; 0; 0; 1; 5; 0; 0; 1; 6].

(** The same pairs 8 bytes apart, with no room between them. *)
Definition packed_buffer : memory :=
  words [ALL_ONES; ALL_ONES; 1; 5; 1; 5; 1; 5; 1; 6].

(** One byte of data, with eight bytes of ff behind the end of the data. *)
Definition stray_sentinel : memory := [x00] ++ words [ALL_ONES; ALL_ONES] ++ [x00].

(** The same byte of data with nothing of note behind it. *)
Definition no_stray_sentinel : memory := [x00] ++ words [0; 0] ++ [x00].

(** Eight bytes of data, none of them ff, in an object of eight bytes. *)
Definition zero_buffer : memory := words [0; 0].

(** Eight bytes of data, all of them ff, in an object of eight bytes. *)
Definition bare_sentinel : memory := words [ALL_ONES; ALL_ONES].

(** One measurement after the other, each taking 5 microseconds. *)
Definition hundred_samples : list cal_event :=
  concat (replicate 100 [CalStart; CalStop 5]).

(** Ninety-nine measurements that take 5 microseconds each and a 100th that
    takes 4, under a clock that shows microsecond 5 at every [cal_start]. *)
Definition dip_samples : list cal_event :=
  concat (replicate 99 [CalStart; CalStop 10]) ++ [CalStart; CalStop 9].

(** The call every failing run below repeats. *)
Definition probe_call : call := mk_call TPS_SOCK 2 3 4.

(** A clock whose first 99 readings show microsecond 5 and whose later
    readings show microsecond 4. *)
Definition dip_clock : nat -> timeval :=
  fun n => mk_timeval (1000 + Z.of_nat n) (if (n <? 99)%nat then 5 else 4).

(** A clock whose first 100 readings show microsecond 5 and whose later
    readings show microsecond 3 of a later second. *)
Definition borrow_clock : nat -> timeval :=
  fun n => if (n <? 100)%nat then mk_timeval (1000 + Z.of_nat n) 5
           else mk_timeval (1100 + Z.of_nat n) 3.

(** The state after a calibration of 100 records under a steady clock. *)
Definition calibrated : kernel :=
  value_or (boot (steady_clock 5))
           (appends (replicate 100 probe_call) (boot (steady_clock 5))).

(** A buffer of four zero words. *)
Definition four_zero_words : memory := words [0; 0; 0; 0].

(** Two words of other data, twelve bytes of ff, and two field groups
    behind them. *)
Definition long_sentinel : memory :=
  words [7; 7; ALL_ONES; ALL_ONES; ALL_ONES; 1; 5; 0; 0; 1; 6].

(** A packet with an IP header of 20 bytes at 0 that names the protocol
    [proto], a transport header of 20 bytes at 20 whose bytes 12 and 13 are
    [d] and [fl], and the payload behind it, where the data end. *)
Definition packet (proto d fl : Z) (payload : memory) : sk_buff :=
  mk_skb (replicate 9 x00 ++ [byte_of proto] ++ replicate 10 x00 ++
          replicate 12 x00 ++ [byte_of d; byte_of fl] ++ replicate 6 x00 ++ payload)
         (Some 0) 20 (40 + Z.of_nat (length payload)).


(** * Properties *)

(** ** Machine integers *)

Lemma wrap_small bits x : 0 <= x < 2 ^ bits -> wrap bits x = x.
Proof. intros H. unfold wrap. apply Z.mod_small. exact H. Qed.

Lemma wrap_range bits x : 0 <= bits -> 0 <= wrap bits x < 2 ^ bits.
Proof. intros H. unfold wrap. apply Z.mod_pos_bound. apply Z.pow_pos_nonneg; lia. Qed.

Lemma as_ulong_small x : 0 <= x < 2 ^ 64 -> as_ulong x = x.
Proof. apply wrap_small. Qed.

Lemma as_ulong_range x : 0 <= as_ulong x < 2 ^ 64.
Proof. apply wrap_range. unfold BITS_PER_LONG. lia. Qed.

Lemma as_ulong_minus_one : as_ulong (-1) = 2 ^ 64 - 1.
Proof. reflexivity. Qed.

Lemma as_int_small x : - 2 ^ 31 <= x < 2 ^ 31 -> as_int x = x.
Proof.
  intros H. unfold as_int, sign_wrap, wrap.
  change (2 ^ (32 - 1)) with 2147483648. change (2 ^ 32) with 4294967296.
  change (2 ^ 31) with 2147483648 in H.
  destruct (Z.ltb_spec (x mod 4294967296) 2147483648) as [Hlt | Hge];
    Z.div_mod_to_equations; lia.
Qed.

Lemma as_short_small x : is_short x -> as_short x = x.
Proof.
  unfold is_short. intros H. unfold as_short, sign_wrap, wrap.
  change (2 ^ (16 - 1)) with 32768. change (2 ^ 16) with 65536.
  change (2 ^ 15) with 32768 in H.
  destruct (Z.ltb_spec (x mod 65536) 32768) as [Hlt | Hge];
    Z.div_mod_to_equations; lia.
Qed.

(** A [short] stored in an [unsigned short] field and printed with [%hi]
    comes back as it was. *)
Lemma as_short_as_ushort x : is_short x -> as_short (as_ushort x) = x.
Proof.
  unfold is_short. intros H. unfold as_short, as_ushort, sign_wrap, wrap.
  change (2 ^ (16 - 1)) with 32768. change (2 ^ 16) with 65536.
  change (2 ^ 15) with 32768 in H.
  rewrite Z.mod_mod by lia.
  destruct (Z.ltb_spec (x mod 65536) 32768) as [Hlt | Hge];
    Z.div_mod_to_equations; lia.
Qed.

(** ** Array accesses *)

Lemma below_length_spec {A : Type} (a : list A) i :
  0 <= i -> below_length a i = true <-> i < Z.of_nat (length a).
Proof.
  revert i. induction a as [| x a IH]; intros i Hi; simpl.
  - split; [discriminate | lia].
  - destruct (Z.eqb_spec i 0) as [-> | Hne]; [split; [lia | auto] |].
    rewrite IH by lia. lia.
Qed.

Lemma in_range_true {A : Type} (a : list A) i :
  in_range a i = true <-> 0 <= i < Z.of_nat (length a).
Proof.
  unfold in_range. destruct (Z.leb_spec 0 i) as [H0 | H0].
  - rewrite below_length_spec by exact H0. lia.
  - split; [discriminate | lia].
Qed.

Lemma in_range_false {A : Type} (a : list A) i :
  in_range a i = false <-> ~ 0 <= i < Z.of_nat (length a).
Proof. rewrite <- in_range_true. destruct (in_range a i); split; congruence. Qed.

Lemma in_range_length {A B : Type} (a : list A) (b : list B) i :
  length a = length b -> in_range a i = in_range b i.
Proof.
  intros H. apply eq_true_iff_eq. rewrite !in_range_true, H. reflexivity.
Qed.

Lemma rd_Ok {A : Type} (a : list A) i x :
  rd a i = Ok x <-> 0 <= i /\ a !! Z.to_nat i = Some x.
Proof.
  unfold rd. destruct (in_range a i) eqn:Hr.
  - apply in_range_true in Hr.
    destruct (a !! Z.to_nat i) as [y|] eqn:Hy.
    + split; [intros [= ->]; split; [lia | reflexivity] | intros [_ [= ->]]; reflexivity].
    + split; [discriminate | intros [_ ?]; discriminate].
  - apply in_range_false in Hr. split; [discriminate |].
    intros [H0 Hl]. apply lookup_lt_Some in Hl. lia.
Qed.

Lemma rd_in_range {A : Type} (a : list A) i :
  0 <= i < Z.of_nat (length a) -> exists x, rd a i = Ok x.
Proof.
  intros H. destruct (lookup_lt_is_Some_2 a (Z.to_nat i)) as [x Hx]; [lia |].
  exists x. apply rd_Ok. split; [lia | exact Hx].
Qed.

Lemma rd_Ok_range {A : Type} (a : list A) i x :
  rd a i = Ok x -> 0 <= i < Z.of_nat (length a).
Proof. intros [H0 Hl]%rd_Ok. apply lookup_lt_Some in Hl. lia. Qed.

Lemma rd_Err {A : Type} (a : list A) i e : rd a i = Err e -> e = OutOfBounds.
Proof.
  unfold rd. destruct (in_range a i); [| congruence].
  destruct (a !! Z.to_nat i); congruence.
Qed.

Lemma wr_Ok {A : Type} (a : list A) i x a' :
  wr a i x = Ok a' <-> 0 <= i < Z.of_nat (length a) /\ a' = <[Z.to_nat i := x]> a.
Proof.
  unfold wr. destruct (in_range a i) eqn:Hr.
  - apply in_range_true in Hr. split; [intros [= <-]; auto | intros [_ ->]; reflexivity].
  - apply in_range_false in Hr. split; [discriminate | intros [H _]; contradiction].
Qed.

Lemma wr_Err {A : Type} (a : list A) i x e : wr a i x = Err e -> e = OutOfBounds.
Proof. unfold wr. destruct (in_range a i); congruence. Qed.

Lemma Ok_inj {A : Type} (a b : A) : Ok a = Ok b -> a = b.
Proof. intros H. injection H as H. exact H. Qed.

Lemma bind_Ok {A B : Type} (m : result A) (k : A -> result B) b :
  bind m k = Ok b <-> exists a, m = Ok a /\ k a = Ok b.
Proof.
  destruct m as [a | e]; simpl.
  - split; [eauto | intros (a' & [= <-] & H); exact H].
  - split; [discriminate | intros (a' & [=] & _)].
Qed.

(** ** Errors other than an access out of bounds *)

Lemma oob_only_Ok {A : Type} (a : A) : oob_only (Ok a).
Proof. intros e H. discriminate. Qed.

Lemma oob_only_Err {A : Type} : oob_only (@Err A OutOfBounds).
Proof. intros e [= <-]. reflexivity. Qed.

Lemma oob_only_bind {A B : Type} (m : result A) (k : A -> result B) :
  oob_only m -> (forall a, m = Ok a -> oob_only (k a)) -> oob_only (bind m k).
Proof.
  intros Hm Hk. destruct m as [a | e]; simpl.
  - apply Hk. reflexivity.
  - intros e' [= <-]. apply Hm. reflexivity.
Qed.

Lemma oob_only_rd {A : Type} (a : list A) i : oob_only (rd a i).
Proof. intros e H. eapply rd_Err, H. Qed.

Lemma oob_only_wr {A : Type} (a : list A) i x : oob_only (wr a i x).
Proof. intros e H. eapply wr_Err, H. Qed.

Lemma oob_only_not_fuel {A : Type} (r : result A) : oob_only r -> r <> Err OutOfFuel.
Proof. intros H Hr. specialize (H _ Hr). discriminate. Qed.

Lemma oob_only_cases {A : Type} (r : result A) :
  oob_only r -> r = Err OutOfBounds \/ exists a, r = Ok a.
Proof.
  intros H. destruct r as [a | e]; [right; eauto | left].
  rewrite (H e eq_refl). reflexivity.
Qed.

Create HintDb oob.

#[local] Hint Resolve oob_only_Ok oob_only_Err oob_only_rd oob_only_wr : oob.

(** ** The sort of the calibration window: bounds and termination *)

Lemma as_ulong_succ i : 0 <= i < 2 ^ 64 - 1 -> as_ulong (i + 1) = i + 1.
Proof. intros H. apply as_ulong_small. lia. Qed.

Lemma as_ulong_pred j : 1 <= j < 2 ^ 64 -> as_ulong (j - 1) = j - 1.
Proof. intros H. apply as_ulong_small. lia. Qed.

Lemma scan_up_Ok fuel a v i i' :
  Z.of_nat (length a) < 2 ^ 31 ->
  scan_up fuel a v i = Ok i' ->
  as_ulong (i + 1) <= i' < Z.of_nat (length a).
Proof.
  intros Hlen. revert i. induction fuel as [| fuel IH]; intros i H; [discriminate |].
  simpl in H. apply bind_Ok in H as (x & Hx & H).
  pose proof (rd_Ok_range _ _ _ Hx) as Hr.
  destruct (x <? v).
  - apply IH in H. rewrite as_ulong_succ in H by lia. lia.
  - injection H as <-. lia.
Qed.

Lemma scan_down_Ok fuel a v j j' :
  Z.of_nat (length a) < 2 ^ 31 ->
  scan_down fuel a v j = Ok j' ->
  0 <= j' <= as_ulong (j - 1) /\ as_ulong (j - 1) < Z.of_nat (length a).
Proof.
  intros Hlen. revert j. induction fuel as [| fuel IH]; intros j H; [discriminate |].
  simpl in H. apply bind_Ok in H as (x & Hx & H).
  pose proof (rd_Ok_range _ _ _ Hx) as Hr.
  destruct (v <? x).
  - apply IH in H. destruct (Z.eq_dec (as_ulong (j - 1)) 0) as [H0 | H0].
    + rewrite H0 in H. change (as_ulong (0 - 1)) with (2 ^ 64 - 1) in H. lia.
    + rewrite as_ulong_pred in H by lia. lia.
  - injection H as <-. lia.
Qed.

Lemma scan_up_oob_only fuel a v i :
  Z.of_nat (length a) < 2 ^ 31 ->
  Z.of_nat (length a) < Z.of_nat fuel + as_ulong (i + 1) ->
  (0 < fuel)%nat ->
  oob_only (scan_up fuel a v i).
Proof.
  intros Hlen. revert i. induction fuel as [| fuel IH]; intros i Hf Hpos; [lia |].
  simpl. apply oob_only_bind; [auto with oob |]. intros x Hx.
  pose proof (rd_Ok_range _ _ _ Hx) as Hr.
  destruct (x <? v); [| auto with oob].
  apply IH; rewrite ?as_ulong_succ by lia; lia.
Qed.

Lemma scan_down_oob_only fuel a v j :
  Z.of_nat (length a) < 2 ^ 31 ->
  Z.of_nat (length a) < Z.of_nat fuel ->
  oob_only (scan_down fuel a v j).
Proof.
  intros Hlen Hf.
  assert (Hgen : forall fuel j, (0 < fuel)%nat ->
            (as_ulong (j - 1) < Z.of_nat (length a) -> as_ulong (j - 1) + 1 < Z.of_nat fuel) ->
            oob_only (scan_down fuel a v j)).
  { clear fuel j Hf. induction fuel as [| fuel IH]; intros j Hpos Hj; [lia |].
    simpl. apply oob_only_bind; [auto with oob |]. intros x Hx.
    pose proof (rd_Ok_range _ _ _ Hx) as Hr.
    destruct (v <? x); [| auto with oob].
    apply IH; [lia |]. intros Hlt.
    destruct (Z.eq_dec (as_ulong (j - 1)) 0) as [H0 | H0].
    - rewrite H0 in Hlt. change (as_ulong (0 - 1)) with (2 ^ 64 - 1) in Hlt. lia.
    - rewrite as_ulong_pred by lia. lia. }
  apply Hgen; lia.
Qed.

Lemma swap_Ok a i j a' :
  swap a i j = Ok a' ->
  length a' = length a /\ 0 <= i < Z.of_nat (length a) /\ 0 <= j < Z.of_nat (length a).
Proof.
  unfold swap. intros H.
  apply bind_Ok in H as (x & Hx & H). apply bind_Ok in H as (y & Hy & H).
  apply bind_Ok in H as (a1 & Ha1 & H).
  apply wr_Ok in Ha1 as [Hi ->]. apply wr_Ok in H as [Hj ->].
  rewrite !length_insert in *. auto.
Qed.

Lemma oob_only_swap a i j : oob_only (swap a i j).
Proof.
  unfold swap. repeat (apply oob_only_bind; [auto with oob | intros ? _]).
  auto with oob.
Qed.

#[local] Hint Resolve oob_only_swap : oob.

Lemma partition_Ok fuel a v i j a' i' j' :
  Z.of_nat (length a) < 2 ^ 31 ->
  partition fuel a v i j = Ok (a', i', j') ->
  length a' = length a /\
  as_ulong (i + 1) <= i' < Z.of_nat (length a) /\
  0 <= j' <= as_ulong (j - 1) /\ as_ulong (j - 1) < Z.of_nat (length a).
Proof.
  revert a i j. induction fuel as [| fuel IH]; intros a i j Hlen H; [discriminate |].
  simpl in H. apply bind_Ok in H as (i1 & Hi1 & H). apply bind_Ok in H as (j1 & Hj1 & H).
  apply scan_up_Ok in Hi1; [| exact Hlen]. apply scan_down_Ok in Hj1; [| exact Hlen].
  pose proof (as_ulong_range (i + 1)) as Hi0.
  destruct (j1 <=? i1).
  - injection H as <- <- <-. lia.
  - apply bind_Ok in H as (a1 & Ha1 & H). apply swap_Ok in Ha1 as (Hl & _ & _).
    apply IH in H; [| rewrite Hl; exact Hlen]. rewrite Hl in H.
    destruct (Z.eq_dec j1 0) as [H0 | H0].
    + subst j1. change (as_ulong (0 - 1)) with (2 ^ 64 - 1) in H. lia.
    + rewrite as_ulong_succ, as_ulong_pred in H by lia. lia.
Qed.

Lemma partition_oob_only fuel a v i j :
  Z.of_nat (length a) < 2 ^ 31 ->
  0 <= j <= Z.of_nat (length a) ->
  Z.of_nat (length a) + 1 + j < Z.of_nat fuel ->
  oob_only (partition fuel a v i j).
Proof.
  revert a i j. induction fuel as [| fuel IH]; intros a i j Hlen Hj Hf; [lia |].
  simpl. pose proof (as_ulong_range (i + 1)) as Hi.
  apply oob_only_bind; [apply scan_up_oob_only; lia |]. intros i1 Hi1.
  apply oob_only_bind; [apply scan_down_oob_only; lia |]. intros j1 Hj1.
  apply scan_down_Ok in Hj1; [| exact Hlen].
  destruct (j1 <=? i1); [auto with oob |].
  apply oob_only_bind; [auto with oob |]. intros a1 Ha1.
  apply swap_Ok in Ha1 as (Hl & _ & _).
  assert (Hj0 : j <> 0).
  { intros ->. change (as_ulong (0 - 1)) with (2 ^ 64 - 1) in Hj1. lia. }
  rewrite as_ulong_pred in Hj1 by lia.
  apply IH; rewrite Hl; lia.
Qed.

Lemma cal_sort_length fuel a m n a' :
  Z.of_nat (length a) < 2 ^ 31 ->
  cal_sort fuel a m n = Ok a' -> length a' = length a.
Proof.
  revert a m n a'. induction fuel as [| fuel IH]; intros a m n a' Hlen H; [discriminate |].
  simpl in H. destruct (m <? n); [| injection H as <-; reflexivity].
  apply bind_Ok in H as (v & Hv & H). apply bind_Ok in H as ([[a1 i1] j1] & Hp & H).
  apply bind_Ok in H as (a2 & Ha2 & H). apply bind_Ok in H as (a3 & Ha3 & H).
  apply partition_Ok in Hp as (Hl1 & _); [| exact Hlen].
  apply swap_Ok in Ha2 as (Hl2 & _).
  apply IH in Ha3; [| lia]. apply IH in H; [| lia]. lia.
Qed.

Lemma cal_sort_oob_only fuel a m n :
  Z.of_nat (length a) < 2 ^ 31 ->
  0 <= m ->
  2 * Z.of_nat (length a) + 2 + Z.max 0 (n - m) < Z.of_nat fuel ->
  oob_only (cal_sort fuel a m n).
Proof.
  revert a m n. induction fuel as [| fuel IH]; intros a m n Hlen Hm Hf; [lia |].
  simpl. destruct (Z.ltb_spec m n) as [Hmn | Hmn]; [| auto with oob].
  apply oob_only_bind; [auto with oob |]. intros v Hv.
  apply rd_Ok_range in Hv.
  assert (Hn : as_ulong n = n) by (apply as_ulong_small; lia). rewrite Hn.
  apply oob_only_bind; [apply partition_oob_only; lia |]. intros [[a1 i1] j1] Hp.
  apply partition_Ok in Hp as (Hl1 & Hi1 & Hj1 & Hj1'); [| exact Hlen].
  assert (Hm1 : as_ulong (as_ulong (m - 1) + 1) = m).
  { destruct (Z.eq_dec m 0) as [-> | Hm0]; [reflexivity |].
    rewrite as_ulong_pred by lia. replace (m - 1 + 1) with m by lia.
    apply as_ulong_small. lia. }
  rewrite Hm1 in Hi1. rewrite as_ulong_pred in Hj1 by lia.
  apply oob_only_bind; [auto with oob |]. intros a2 Ha2.
  apply swap_Ok in Ha2 as (Hl2 & _).
  apply oob_only_bind.
  { rewrite as_int_small by lia. apply IH; lia. }
  intros a3 Ha3. apply cal_sort_length in Ha3; [| lia].
  rewrite as_ulong_succ, as_int_small by lia. apply IH; lia.
Qed.

(** ** Calibration: what one call of [cal_stop] does *)

Lemma trim_lo_eq : trim_lo = 5.
Proof. reflexivity. Qed.

Lemma trim_hi_eq : trim_hi = 95.
Proof. reflexivity. Qed.

Ltac kernel_simpl :=
  cbn [tp_timer_space tp_timer_count cal_usec cal_mean cal_list cal_count
       wall_clock ticks dmesg set_space set_count set_cal_usec set_cal_mean
       set_cal_list set_cal_count set_dmesg printk cal_finished tp_timer_init
       do_gettimeofday fst snd] in *.

Lemma cal_stop_inv usec st st' :
  cal_stop usec st = Ok st' ->
  (TP_TIMER_CAL <= cal_count st /\ st' = st) \/
  (cal_count st < TP_TIMER_CAL /\
   exists l, wr (cal_list st) (cal_count st) (as_ulong (usec - cal_usec st)) = Ok l /\
     let st1 := set_cal_count (as_int (cal_count st + 1)) (set_cal_list l st) in
     (as_int (cal_count st + 1) <> TP_TIMER_CAL /\ st' = st1) \/
     (as_int (cal_count st + 1) = TP_TIMER_CAL /\
      exists l' mean count,
        cal_sort cal_sort_fuel l 0 (TP_TIMER_CAL - 1) = Ok l' /\
        for_loop (Z.to_nat (trim_hi - trim_lo)) trim_lo (cal_sum_step l')
                 (cal_mean st, 0) = Ok (mean, count) /\
        as_ulong count <> 0 /\
        st' = cal_finished l' mean count st1)).
Proof.
  unfold cal_stop. intros H.
  destruct (Z.leb_spec TP_TIMER_CAL (cal_count st)) as [Hc | Hc].
  { left. injection H as <-. auto. }
  right. split; [exact Hc |].
  apply bind_Ok in H as (l & Hl & H). exists l. split; [exact Hl |].
  cbv zeta in *.
  change (cal_count (set_cal_count (as_int (cal_count (set_cal_list l st) + 1))
                                   (set_cal_list l st)))
    with (as_int (cal_count st + 1)) in H.
  destruct (Z.eqb_spec (as_int (cal_count st + 1)) TP_TIMER_CAL) as [He | He].
  - right. split; [exact He |].
    apply bind_Ok in H as (l' & Hl' & H). apply bind_Ok in H as ([mean count] & Hs & H).
    exists l', mean, count. split; [exact Hl' |]. split; [exact Hs |].
    destruct (Z.eqb_spec (as_ulong count) 0) as [H0 | H0]; [discriminate |].
    split; [exact H0 |]. apply Ok_inj in H. symmetry. exact H.
  - apply Ok_inj in H. left. split; [exact He | symmetry; exact H].
Qed.

Lemma cal_sum_loop_count l n :
  forall i s s',
    0 <= snd s -> snd s + Z.of_nat n < 2 ^ 31 ->
    for_loop n i (cal_sum_step l) s = Ok s' ->
    snd s' = snd s + Z.of_nat n.
Proof.
  induction n as [| n IH]; intros i s s' H0 Hn H.
  - injection H as <-. simpl. lia.
  - simpl in H. apply bind_Ok in H as (s1 & Hs1 & H).
    unfold cal_sum_step in Hs1. apply bind_Ok in Hs1 as (x & _ & [= <-]).
    apply IH in H; simpl in *; rewrite as_int_small in * by lia; lia.
Qed.

Lemma cal_sum_loop_oob_only l n i s : oob_only (for_loop n i (cal_sum_step l) s).
Proof.
  revert i s. induction n as [| n IH]; intros i s; simpl; [auto with oob |].
  apply oob_only_bind; [| intros; apply IH].
  unfold cal_sum_step. apply oob_only_bind; auto with oob.
Qed.

(** [cal_stop] never runs out of fuel and never divides by zero. *)
Lemma cal_stop_oob_only usec st : cal_wf st -> oob_only (cal_stop usec st).
Proof.
  intros [Hlen Hc]. unfold TP_TIMER_CAL in Hlen. unfold cal_stop.
  destruct (TP_TIMER_CAL <=? cal_count st); [auto with oob |].
  apply oob_only_bind; [auto with oob |]. intros l Hl.
  apply wr_Ok in Hl as [Hr ->]. cbv zeta.
  kernel_simpl.
  match goal with |- oob_only (if ?c then _ else _) => destruct c end; [| auto with oob].
  apply oob_only_bind.
  { apply cal_sort_oob_only; rewrite ?length_insert; unfold cal_sort_fuel, TP_TIMER_CAL; lia. }
  intros l' _. apply oob_only_bind; [apply cal_sum_loop_oob_only |].
  change (Z.to_nat (trim_hi - trim_lo)) with 90%nat.
  intros [mean count] Hs. apply cal_sum_loop_count in Hs; [| cbn [snd]; lia ..].
  cbn [snd] in Hs. subst count.
  change (as_ulong (0 + Z.of_nat 90) =? 0) with false.
  cbv iota. auto with oob.
Qed.

(** [cal_stop] touches nothing but the calibration variables and [dmesg]. *)
Lemma cal_stop_frame usec st st' :
  cal_stop usec st = Ok st' ->
  tp_timer_space st' = tp_timer_space st /\
  tp_timer_count st' = tp_timer_count st /\
  cal_usec st' = cal_usec st /\
  wall_clock st' = wall_clock st /\
  ticks st' = ticks st.
Proof.
  intros H. apply cal_stop_inv in H as [[_ ->] | (_ & l & _ & H)]; [auto 6 |].
  cbv zeta in H.
  destruct H as [[_ ->] | (_ & l' & mean & count & _ & _ & _ & ->)];
    kernel_simpl; auto 6.
Qed.

Lemma cal_stop_wf usec st st' : cal_wf st -> cal_stop usec st = Ok st' -> cal_wf st'.
Proof.
  intros [Hlen Hc] H. unfold cal_wf.
  apply cal_stop_inv in H as [[_ ->] | (Hlt & l & Hl & H)]; [split; assumption |].
  unfold TP_TIMER_CAL in *. apply wr_Ok in Hl as [Hr ->]. cbv zeta in H.
  destruct H as [[_ ->] | (He & l' & mean & count & Hl' & _ & _ & ->)]; kernel_simpl.
  - rewrite length_insert, as_int_small by lia. lia.
  - apply cal_sort_length in Hl'; [| rewrite length_insert; lia].
    rewrite length_insert in Hl'. rewrite Hl', He. split; [exact Hlen |].
    change (as_int (100 + 1)) with 101. lia.
Qed.

(** The counter after one sample: it steps by one while the window fills and
    jumps past [TP_TIMER_CAL] when the last sample arrives. *)
Lemma cal_stop_count usec st st' :
  cal_wf st -> cal_stop usec st = Ok st' ->
  cal_count st' =
    if TP_TIMER_CAL <=? cal_count st then cal_count st
    else if cal_count st + 1 =? TP_TIMER_CAL then TP_TIMER_CAL + 1
    else cal_count st + 1.
Proof.
  intros [Hlen Hc] H.
  apply cal_stop_inv in H as [[Hge ->] | (Hlt & l & Hl & H)]; unfold TP_TIMER_CAL in *.
  { destruct (Z.leb_spec 100 (cal_count st)); [reflexivity | lia]. }
  destruct (Z.leb_spec 100 (cal_count st)); [lia |].
  cbv zeta in H. rewrite as_int_small in H by lia.
  destruct H as [[Hne ->] | (He & l' & mean & count & _ & _ & _ & ->)]; kernel_simpl.
  - destruct (Z.eqb_spec (cal_count st + 1) 100); [contradiction | reflexivity].
  - rewrite He. destruct (Z.eqb_spec 100 100); [reflexivity | contradiction].
Qed.

(** While the window is not about to fill, [cal_stop] cannot fail. *)
Lemma cal_stop_collecting usec st :
  cal_wf st -> cal_count st + 1 < TP_TIMER_CAL ->
  exists st', cal_stop usec st = Ok st'.
Proof.
  intros [Hlen Hc] Hlt. unfold TP_TIMER_CAL in *. unfold cal_stop, TP_TIMER_CAL.
  destruct (Z.leb_spec 100 (cal_count st)); [lia |].
  destruct (wr (cal_list st) (cal_count st) (as_ulong (usec - cal_usec st))) as [l | e] eqn:Hl.
  - cbn [bind]. kernel_simpl. rewrite as_int_small by lia.
    destruct (Z.eqb_spec (cal_count st + 1) 100); [lia | eauto].
  - unfold wr in Hl. destruct (in_range (cal_list st) (cal_count st)) eqn:Hr; [discriminate |].
    apply in_range_false in Hr. lia.
Qed.

(** ** The event log: what one call of [tp_timer] does *)

Lemma implicit_init_space st :
  log_wf st ->
  exists space, tp_timer_space (implicit_init st) = Some space /\
                Z.of_nat (length space) = TP_TIMER_SPACE.
Proof.
  intros [_ Hs]. unfold implicit_init.
  destruct (tp_timer_space st) as [space |] eqn:E.
  - exists space. rewrite E. auto.
  - eexists. kernel_simpl. split; [reflexivity |].
    rewrite length_replicate. apply Z2Nat.id. unfold TP_TIMER_SPACE. lia.
Qed.

Lemma implicit_init_allocated st space :
  tp_timer_space st = Some space -> implicit_init st = st.
Proof. intros H. unfold implicit_init. rewrite H. reflexivity. Qed.

Lemma implicit_init_frame st :
  tp_timer_count (implicit_init st) = tp_timer_count st /\
  cal_usec (implicit_init st) = cal_usec st /\
  cal_mean (implicit_init st) = cal_mean st /\
  cal_list (implicit_init st) = cal_list st /\
  cal_count (implicit_init st) = cal_count st /\
  wall_clock (implicit_init st) = wall_clock st /\
  ticks (implicit_init st) = ticks st.
Proof. unfold implicit_init. destruct (tp_timer_space st); kernel_simpl; auto 10. Qed.

(** At capacity [tp_timer] reports the overflow and returns. *)
Lemma tp_timer_full id seq threadnr timesrepeated st :
  TP_TIMER_SPACE <= tp_timer_count (implicit_init st) ->
  tp_timer id seq threadnr timesrepeated st =
  Ok (printk MsgSpaceExceeded (implicit_init st)).
Proof.
  intros H. unfold tp_timer. cbv zeta.
  destruct (Z.leb_spec TP_TIMER_SPACE (tp_timer_count (implicit_init st))); [reflexivity | lia].
Qed.

(** Below capacity [tp_timer] stores one record at position [tp_timer_count]. *)
Lemma tp_timer_append id seq threadnr timesrepeated st st' :
  log_wf st -> tp_timer_count st < TP_TIMER_SPACE ->
  tp_timer id seq threadnr timesrepeated st = Ok st' ->
  exists space st1 d,
    tp_timer_space (implicit_init st) = Some space /\
    cal_stop (as_ulong (tv_usec (wall_clock st (ticks st))))
             (snd (do_gettimeofday (implicit_init st))) = Ok st1 /\
    d = Data.mk (as_ushort id)
                (mk_timeval (tv_sec (wall_clock st (ticks st)))
                   (as_long (as_ulong (tv_usec (wall_clock st (ticks st))) - cal_mean st1)))
                seq threadnr (as_ushort timesrepeated) (tp_timer_count st) /\
    st' = set_count (tp_timer_count st + 1)
            (set_space (Some (<[Z.to_nat (tp_timer_count st) := d]> space)) st1).
Proof.
  intros Hwf Hlt H.
  destruct (implicit_init_space st Hwf) as (space & Hsp & Hlen).
  destruct (implicit_init_frame st) as (Hc & _ & _ & _ & _ & Hw & Ht).
  destruct Hwf as [Hr _].
  assert (Hnow : fst (do_gettimeofday (implicit_init st)) = wall_clock st (ticks st)).
  { unfold do_gettimeofday. cbn [fst]. rewrite Hw, Ht. reflexivity. }
  unfold tp_timer in H. cbv zeta in H. rewrite Hsp, Hc in H.
  destruct (Z.leb_spec TP_TIMER_SPACE (tp_timer_count st)); [lia |].
  destruct (do_gettimeofday (implicit_init st)) as [now st0] eqn:Hg.
  cbn [fst snd] in *. subst now.
  apply bind_Ok in H as (st1 & Hst1 & H). apply bind_Ok in H as (space' & Hw' & H).
  apply wr_Ok in Hw' as [_ ->]. injection H as <-.
  eexists space, st1, _. split; [exact Hsp |]. split; [exact Hst1 |].
  split; [reflexivity |].
  apply cal_stop_frame in Hst1 as (_ & Hc1 & _).
  injection Hg as _ <-. kernel_simpl.
  rewrite Hc1, Hc, as_ulong_small; [reflexivity |]. unfold TP_TIMER_SPACE in *. lia.
Qed.

Lemma tp_timer_oob_only id seq threadnr timesrepeated st :
  log_wf st -> cal_wf st -> oob_only (tp_timer id seq threadnr timesrepeated st).
Proof.
  intros Hwf Hcal.
  destruct (implicit_init_space st Hwf) as (space & Hsp & Hlen).
  destruct (implicit_init_frame st) as (Hc & _ & _ & Hl & Hcc & _).
  unfold tp_timer. cbv zeta. rewrite Hsp.
  destruct (TP_TIMER_SPACE <=? tp_timer_count (implicit_init st)); [auto with oob |].
  unfold do_gettimeofday.
  apply oob_only_bind.
  { apply cal_stop_oob_only. unfold cal_wf in *. kernel_simpl. rewrite Hl, Hcc. exact Hcal. }
  intros st1 _. apply oob_only_bind; auto with oob.
Qed.

(** Well-formedness is kept by every call of [tp_timer]. *)
Lemma tp_timer_wf id seq threadnr timesrepeated st st' :
  log_wf st -> cal_wf st ->
  tp_timer id seq threadnr timesrepeated st = Ok st' ->
  log_wf st' /\ cal_wf st'.
Proof.
  intros Hwf Hcal H.
  destruct (implicit_init_space st Hwf) as (space & Hsp & Hlen).
  destruct (implicit_init_frame st) as (Hc & _ & _ & Hl & Hcc & _).
  destruct (Z.le_gt_cases TP_TIMER_SPACE (tp_timer_count st)) as [Hfull | Hlt].
  - rewrite tp_timer_full in H by lia. injection H as <-.
    unfold log_wf, cal_wf in *. kernel_simpl. rewrite Hsp, Hc, Hl, Hcc. tauto.
  - pose proof Hwf as [Hr _].
    apply tp_timer_append in H as (space' & st1 & d & Hsp' & Hst1 & _ & ->); [| assumption ..].
    rewrite Hsp in Hsp'. injection Hsp' as <-.
    assert (Hcal1 : cal_wf st1).
    { eapply cal_stop_wf; [| exact Hst1]. unfold cal_wf in *. unfold do_gettimeofday.
      kernel_simpl. rewrite Hl, Hcc. exact Hcal. }
    unfold log_wf, cal_wf in *. kernel_simpl. rewrite length_insert.
    split; [split; [lia | exact Hlen] | exact Hcal1].
Qed.

Lemma rd_insert_eq {A : Type} (a : list A) i x :
  0 <= i < Z.of_nat (length a) -> rd (<[Z.to_nat i := x]> a) i = Ok x.
Proof.
  intros H. apply rd_Ok. split; [lia |]. apply list_lookup_insert_eq. lia.
Qed.

Lemma rd_insert_ne {A : Type} (a : list A) i j x :
  0 <= i -> 0 <= j -> i <> j -> rd (<[Z.to_nat i := x]> a) j = rd a j.
Proof.
  intros Hi Hj Hne. unfold rd.
  rewrite (in_range_length (<[Z.to_nat i := x]> a) a) by apply length_insert.
  rewrite list_lookup_insert_ne by lia. reflexivity.
Qed.

Lemma tp_timer_ordinals id seq threadnr timesrepeated st st' :
  log_wf st -> ordinals_contiguous st ->
  tp_timer id seq threadnr timesrepeated st = Ok st' ->
  ordinals_contiguous st'.
Proof.
  intros Hwf Hord H.
  destruct (Z.le_gt_cases TP_TIMER_SPACE (tp_timer_count st)) as [Hfull | Hlt].
  - destruct (implicit_init_frame st) as (Hc & _).
    rewrite tp_timer_full in H by lia. injection H as <-.
    intros i Hi. kernel_simpl. rewrite Hc in Hi.
    destruct (Hord i Hi) as (space & d & Hsp & Hd).
    rewrite (implicit_init_allocated _ _ Hsp). eauto.
  - pose proof Hwf as [Hr _].
    destruct (implicit_init_space st Hwf) as (space0 & Hsp0 & Hlen).
    apply tp_timer_append in H as (space & st1 & d & Hsp & _ & Hd & ->); [| assumption ..].
    rewrite Hsp0 in Hsp. injection Hsp as <-.
    intros i Hi. kernel_simpl.
    destruct (Z.eq_dec i (tp_timer_count st)) as [-> | Hne].
    + eexists _, d. split; [reflexivity |].
      rewrite rd_insert_eq by lia. split; [reflexivity |]. subst d. reflexivity.
    + destruct (Hord i) as (space & d' & Hsp & Hd'); [lia |].
      rewrite (implicit_init_allocated _ _ Hsp) in Hsp0.
      rewrite Hsp in Hsp0. injection Hsp0 as ->.
      eexists _, d'. split; [reflexivity |].
      rewrite rd_insert_ne by lia. exact Hd'.
Qed.

Lemma ordinals_contiguous_increasing st :
  ordinals_contiguous st -> ordinals_increasing st.
Proof.
  intros Hord space i j di dj Hsp Hi Hij Hj Hdi Hdj.
  destruct (Hord i) as (space1 & d1 & Hsp1 & Hd1 & Hc1); [lia |].
  destruct (Hord j) as (space2 & d2 & Hsp2 & Hd2 & Hc2); [lia |].
  rewrite Hsp in Hsp1, Hsp2. injection Hsp1 as <-. injection Hsp2 as <-.
  rewrite Hdi in Hd1. rewrite Hdj in Hd2. injection Hd1 as <-. injection Hd2 as <-.
  lia.
Qed.

(** ** The scanner keeps what every call of its sink keeps *)

Section ScannerInvariant.
Context {T : Type}.
Variable emit : Z -> Z -> Z -> Z -> T -> result T.
Variable P : T -> Prop.
Hypothesis emit_keeps :
  forall id seq threadnr timesrepeated s s',
    P s -> emit id seq threadnr timesrepeated s = Ok s' -> P s'.

Lemma count_seq_keeps fuel id mem intdata tail lastSeq lastThreadnr count s r :
  P s ->
  count_seq emit fuel id mem intdata tail lastSeq lastThreadnr count s = Ok r ->
  P (snd r).
Proof using emit_keeps.
  revert intdata lastSeq lastThreadnr count s.
  induction fuel as [| fuel IH]; intros intdata lastSeq lastThreadnr count s Hs H;
    [discriminate |].
  simpl in H. destruct (intdata <=? tail - 8); [| injection H as <-; exact Hs].
  apply bind_Ok in H as (w1 & _ & H). apply bind_Ok in H as (differs & _ & H).
  apply bind_Ok in H as ([s1 count1] & H1 & H).
  apply bind_Ok in H as (lastSeq' & _ & H). apply bind_Ok in H as (lastThreadnr' & _ & H).
  apply IH in H; [exact H |].
  destruct differs; [| injection H1 as <- _; exact Hs].
  apply bind_Ok in H1 as (s2 & H2 & [= <- _]).
  destruct (negb (count =? 0)); [eapply emit_keeps; eauto | injection H2 as <-; exact Hs].
Qed.

Lemma scan_keeps id mem data tail s s' :
  P s -> scan emit id mem data tail s = Ok s' -> P s'.
Proof using emit_keeps.
  intros Hs H. unfold scan in H. cbv zeta in H.
  apply bind_Ok in H as (found & _ & H).
  destruct found as [data' |]; [| injection H as <-; exact Hs].
  apply bind_Ok in H as (data'' & _ & H).
  apply bind_Ok in H as ([[[lastSeq lastThreadnr] count] s1] & Hc & H).
  apply count_seq_keeps in Hc; [| exact Hs]. eapply emit_keeps; eauto.
Qed.
End ScannerInvariant.

(** ** Invariants of the reachable states *)

Lemma boot_inv clock : kernel_inv (boot clock).
Proof.
  unfold kernel_inv, log_wf, cal_wf, ordinals_contiguous, boot. kernel_simpl.
  rewrite length_replicate. unfold TP_TIMER_SPACE, TP_TIMER_CAL. repeat split; try lia.
Qed.

Lemma tp_timer_inv id seq threadnr timesrepeated st st' :
  kernel_inv st -> tp_timer id seq threadnr timesrepeated st = Ok st' -> kernel_inv st'.
Proof.
  intros (Hwf & Hcal & Hord) H. unfold kernel_inv.
  destruct (tp_timer_wf _ _ _ _ _ _ Hwf Hcal H) as [Hwf' Hcal'].
  pose proof (tp_timer_ordinals _ _ _ _ _ _ Hwf Hord H). auto.
Qed.

Lemma cal_start_inv st : kernel_inv st -> kernel_inv (cal_start st).
Proof.
  intros H. unfold cal_start. destruct (TP_TIMER_CAL <=? cal_count st); [exact H |].
  unfold do_gettimeofday. exact H.
Qed.

Lemma step_inv st st' : kernel_inv st -> step st st' -> kernel_inv st'.
Proof.
  intros Hinv Hstep. destruct Hstep as [st Hnull | id seq thr rep st st' H
                                        | id mem data tail st st' H | st st' H].
  - destruct Hinv as ((Hr & Hsp) & Hcal & Hord). rewrite Hnull in Hsp.
    unfold kernel_inv, log_wf, cal_wf, ordinals_contiguous. kernel_simpl.
    rewrite length_replicate, Z2Nat.id by (unfold TP_TIMER_SPACE; lia).
    split; [split; [exact Hr | reflexivity] |]. split; [exact Hcal |].
    intros i Hi. lia.
  - eapply tp_timer_inv; eauto.
  - unfold tp_timer_data in H.
    eapply (scan_keeps tp_timer kernel_inv); [| apply cal_start_inv, Hinv | exact H].
    intros. eapply tp_timer_inv; eauto.
  - destruct Hinv as ((Hr & Hsp) & Hcal & Hord). unfold tp_release in H.
    destruct (tp_timer_space st); [| discriminate]. apply Ok_inj in H. subst st'.
    unfold kernel_inv, log_wf, cal_wf, ordinals_contiguous. kernel_simpl.
    rewrite length_replicate, Z2Nat.id by (unfold TP_TIMER_SPACE; lia).
    split; [split; [unfold TP_TIMER_SPACE; lia | reflexivity] |]. split; [exact Hcal |].
    intros i Hi. lia.
Qed.

Lemma reachable_inv st : reachable st -> kernel_inv st.
Proof.
  induction 1 as [clock | st st' _ IH Hstep]; [apply boot_inv | eapply step_inv; eauto].
Qed.

Lemma is_Ok_value {A : Type} (d : A) (r : result A) :
  is_Ok r = true -> r = Ok (value_or d r).
Proof. destruct r; [reflexivity | discriminate]. Qed.

Lemma is_Ok_defined {A : Type} (r : result A) : is_Ok r = true -> defined r.
Proof. destruct r; [discriminate | discriminate]. Qed.

(** ** Sequences of appends *)

Lemma appends_cons c cs st :
  appends (c :: cs) st =
  let* st1 := tp_timer (c_id c) (c_seq c) (c_threadnr c) (c_timesrepeated c) st in
  appends cs st1.
Proof. reflexivity. Qed.

Lemma appends_oob_only cs st : log_wf st -> cal_wf st -> oob_only (appends cs st).
Proof.
  revert st. induction cs as [| c cs IH]; intros st Hwf Hcal; [apply oob_only_Ok |].
  rewrite appends_cons. apply oob_only_bind; [apply tp_timer_oob_only; assumption |].
  intros st1 H1. destruct (tp_timer_wf _ _ _ _ _ _ Hwf Hcal H1). apply IH; assumption.
Qed.

Lemma appends_inv cs st st' : kernel_inv st -> appends cs st = Ok st' -> kernel_inv st'.
Proof.
  revert st. induction cs as [| c cs IH]; intros st Hinv H.
  - apply Ok_inj in H. subst st'. exact Hinv.
  - rewrite appends_cons in H. apply bind_Ok in H as (st1 & H1 & H).
    eapply IH; [| exact H]. eapply tp_timer_inv; eauto.
Qed.

Lemma reachable_appends cs st st' : reachable st -> appends cs st = Ok st' -> reachable st'.
Proof.
  revert st. induction cs as [| c cs IH]; intros st Hr H.
  - apply Ok_inj in H. subst st'. exact Hr.
  - rewrite appends_cons in H. apply bind_Ok in H as (st1 & H1 & H).
    eapply IH; [| exact H]. eapply reachable_step; [exact Hr |].
    eapply step_tp_timer. exact H1.
Qed.

(** A record below the count stays where it is. *)
Lemma tp_timer_stored_frame id seq threadnr timesrepeated st st' i d :
  log_wf st -> 0 <= i < tp_timer_count st -> stored st i d ->
  tp_timer id seq threadnr timesrepeated st = Ok st' ->
  stored st' i d.
Proof.
  intros Hwf Hi (space & Hsp & Hd) H.
  pose proof (implicit_init_allocated _ _ Hsp) as Hinit.
  destruct (Z.le_gt_cases TP_TIMER_SPACE (tp_timer_count st)) as [Hfull | Hlt].
  - rewrite tp_timer_full in H by (rewrite Hinit; lia). apply Ok_inj in H. subst st'.
    rewrite Hinit. exists space. kernel_simpl. auto.
  - apply tp_timer_append in H as (space' & st1 & d' & Hsp' & _ & _ & ->); [| assumption ..].
    rewrite Hinit, Hsp in Hsp'. injection Hsp' as <-.
    eexists. kernel_simpl. split; [reflexivity |]. rewrite rd_insert_ne by lia. exact Hd.
Qed.

(** The record a call stores. *)
Lemma tp_timer_stored_new id seq threadnr timesrepeated st st' :
  log_wf st -> tp_timer_count st < TP_TIMER_SPACE ->
  tp_timer id seq threadnr timesrepeated st = Ok st' ->
  tp_timer_count st' = tp_timer_count st + 1 /\
  exists d, stored st' (tp_timer_count st) d /\
            Data.id d = as_ushort id /\ Data.seq d = seq /\
            Data.threadnr d = threadnr /\
            Data.timesrepeated d = as_ushort timesrepeated /\
            Data.count d = tp_timer_count st.
Proof.
  intros Hwf Hlt H. pose proof Hwf as [Hr _].
  destruct (implicit_init_space st Hwf) as (space0 & Hsp0 & Hlen).
  apply tp_timer_append in H as (space & st1 & d & Hsp & _ & Hd & ->); [| assumption ..].
  rewrite Hsp0 in Hsp. injection Hsp as <-. kernel_simpl. split; [reflexivity |].
  exists d. split.
  - eexists. kernel_simpl. split; [reflexivity |]. apply rd_insert_eq. lia.
  - subst d. cbn. auto 6.
Qed.

Lemma appends_stored_frame cs st st' i d :
  log_wf st -> cal_wf st -> 0 <= i < tp_timer_count st -> stored st i d ->
  appends cs st = Ok st' ->
  stored st' i d.
Proof.
  revert st. induction cs as [| c cs IH]; intros st Hwf Hcal Hi Hd H.
  - apply Ok_inj in H. subst st'. exact Hd.
  - rewrite appends_cons in H. apply bind_Ok in H as (st1 & H1 & H).
    destruct (tp_timer_wf _ _ _ _ _ _ Hwf Hcal H1) as [Hwf1 Hcal1].
    pose proof (tp_timer_stored_frame _ _ _ _ _ _ _ _ Hwf Hi Hd H1) as Hd1.
    apply (IH st1); try assumption.
    destruct (Z.le_gt_cases TP_TIMER_SPACE (tp_timer_count st)) as [Hfull | Hlt].
    + destruct Hd as (space & Hsp & _).
      rewrite tp_timer_full in H1
        by (rewrite (implicit_init_allocated _ _ Hsp); lia).
      apply Ok_inj in H1. subst st1. rewrite (implicit_init_allocated _ _ Hsp).
      kernel_simpl. lia.
    + apply tp_timer_stored_new in H1 as [-> _]; [lia | assumption ..].
Qed.

(** While they fit, the calls of a sequence are stored one after the other. *)
Lemma appends_stored cs :
  forall st st',
    log_wf st -> cal_wf st ->
    tp_timer_count st + Z.of_nat (length cs) <= TP_TIMER_SPACE ->
    appends cs st = Ok st' ->
    tp_timer_count st' = tp_timer_count st + Z.of_nat (length cs) /\
    forall k c, cs !! k = Some c ->
      exists d, stored st' (tp_timer_count st + Z.of_nat k) d /\
                Data.id d = as_ushort (c_id c) /\ Data.seq d = c_seq c /\
                Data.threadnr d = c_threadnr c /\
                Data.timesrepeated d = as_ushort (c_timesrepeated c) /\
                Data.count d = tp_timer_count st + Z.of_nat k.
Proof.
  induction cs as [| c cs IH]; intros st st' Hwf Hcal Hfit H.
  - apply Ok_inj in H. subst st'. split; [simpl; lia |]. intros k c Hk. discriminate.
  - rewrite appends_cons in H. apply bind_Ok in H as (st1 & H1 & H).
    pose proof Hwf as [Hr _]. simpl length in Hfit.
    destruct (tp_timer_wf _ _ _ _ _ _ Hwf Hcal H1) as [Hwf1 Hcal1].
    destruct (tp_timer_stored_new _ _ _ _ _ _ Hwf ltac:(lia) H1) as (Hc1 & d & Hd & Hf).
    destruct (IH st1 st' Hwf1 Hcal1 ltac:(lia) H) as [Hc' Hcs].
    split; [simpl length; lia |].
    intros [| k] c' Hk.
    + injection Hk as <-. exists d. rewrite Z.add_0_r. split; [| exact Hf].
      eapply appends_stored_frame; [exact Hwf1 | exact Hcal1 | lia | exact Hd | exact H].
    + destruct (Hcs k c' Hk) as (d' & Hd' & Hf'). exists d'.
      rewrite Hc1 in Hd', Hf'.
      replace (tp_timer_count st + Z.of_nat (S k))
        with (tp_timer_count st + 1 + Z.of_nat k) by lia.
      auto.
Qed.

(** The reader shows a stored record below the count as its line. *)
Lemma seq_show_stored st i d :
  0 <= i < tp_timer_count st -> tp_timer_count st <= TP_TIMER_SPACE ->
  stored st i d ->
  seq_show i st = Ok (Some (line_of d)).
Proof.
  intros Hi Hc (space & Hsp & Hd). unfold seq_show.
  rewrite as_ulong_small by (unfold TP_TIMER_SPACE in Hc; lia).
  destruct (Z.leb_spec (tp_timer_count st) i); [lia |].
  rewrite Hsp, Hd. reflexivity.
Qed.

(** At or above the count, and for a negative cursor, the reader shows nothing. *)
Lemma seq_show_beyond st v :
  - 2 ^ 63 <= v < 2 ^ 63 -> 0 <= tp_timer_count st < 2 ^ 63 ->
  v < 0 \/ tp_timer_count st <= v ->
  seq_show v st = Ok None.
Proof.
  intros Hv Hc Hout. unfold seq_show.
  assert (tp_timer_count st <= as_ulong v).
  { unfold as_ulong, wrap, BITS_PER_LONG. change (2 ^ 64) with 18446744073709551616.
    change (2 ^ 63) with 9223372036854775808 in *.
    Z.div_mod_to_equations. lia. }
  destruct (Z.leb_spec (tp_timer_count st) (as_ulong v)); [reflexivity | lia].
Qed.

(** ** The event log: overflow, read-back, ordinals, reset *)

Lemma set_dmesg_printk m d st :
  printk m (set_dmesg d st) = set_dmesg (d ++ [m]) st.
Proof. reflexivity. Qed.

Lemma set_dmesg_id st : set_dmesg (dmesg st) st = st.
Proof. destruct st. reflexivity. Qed.

Lemma appends_full cs :
  forall st d space,
    tp_timer_space st = Some space -> TP_TIMER_SPACE <= tp_timer_count st ->
    appends cs (set_dmesg d st) =
    Ok (set_dmesg (d ++ replicate (length cs) MsgSpaceExceeded) st).
Proof.
  induction cs as [| c cs IH]; intros st d space Hsp Hfull.
  - simpl. rewrite app_nil_r. reflexivity.
  - rewrite appends_cons.
    rewrite tp_timer_full;
      rewrite (implicit_init_allocated _ space) by exact Hsp; [| exact Hfull].
    cbn [bind]. rewrite set_dmesg_printk, (IH st _ space Hsp Hfull).
    simpl length. rewrite replicate_S, <- app_assoc. reflexivity.
Qed.

(** C1.  On a log that already holds [TP_TIMER_SPACE] records, every further
    call of [tp_timer] only prints the overflow message: after any number of
    such calls the state is the old one with one "memory space exceeded" line
    per call added to the kernel log, so the storage and the count are the
    same and the reader shows for every cursor what it showed before. *)
Theorem tp_timer_full_log_rejects (st : kernel) (space : list Data.t) (cs : list call) :
  tp_timer_space st = Some space ->
  TP_TIMER_SPACE <= tp_timer_count st ->
  exists st',
    appends cs st = Ok st' /\
    st' = set_dmesg (dmesg st ++ replicate (length cs) MsgSpaceExceeded) st /\
    tp_timer_space st' = Some space /\
    tp_timer_count st' = tp_timer_count st /\
    forall v, seq_show v st' = seq_show v st.
Proof.
  intros Hsp Hfull. eexists. split.
  - rewrite <- (set_dmesg_id st) at 1. eapply appends_full; eassumption.
  - split; [reflexivity |]. kernel_simpl. split; [exact Hsp |].
    split; reflexivity.
Qed.

Lemma tp_timer_full_log_rejects_witness :
  exists st',
    appends three_calls full_log = Ok st' /\
    st' = set_dmesg (dmesg full_log ++ replicate (length three_calls) MsgSpaceExceeded)
                    full_log /\
    tp_timer_space st' = Some (replicate (Z.to_nat TP_TIMER_SPACE) Data.zero) /\
    tp_timer_count st' = tp_timer_count full_log /\
    forall v, seq_show v st' = seq_show v full_log.
Proof.
  apply (tp_timer_full_log_rejects full_log _ three_calls).
  - reflexivity.
  - unfold full_log, TP_TIMER_SPACE. simpl. lia.
Defined.

(** Where the run makes no access out of bounds: starting from an empty
    log, a sequence of [N <= TP_TIMER_SPACE] calls of [tp_timer] with
    arguments of the parameter types leaves the count at [N], and the reader
    shows at every position [i < N] the line of the [i]-th call: its probe
    id, sequence, thread and repeat count as they were passed, under ordinal
    [i].  The sort of the calibration window can leave the window when the
    window fills during the run; the run cannot fail in any other way. *)
Lemma appends_read_back (cs : list call) (st : kernel) :
  log_wf st -> cal_wf st ->
  tp_timer_count st = 0 ->
  Z.of_nat (length cs) <= TP_TIMER_SPACE ->
  Forall call_typed cs ->
  defined (appends cs st) ->
  exists st',
    appends cs st = Ok st' /\
    tp_timer_count st' = Z.of_nat (length cs) /\
    forall i c, cs !! i = Some c ->
      exists line,
        seq_show (Z.of_nat i) st' = Ok (Some line) /\
        out_id line = c_id c /\
        out_seq line = c_seq c /\
        out_thread line = c_threadnr c /\
        out_timesrepeated line = c_timesrepeated c /\
        out_count line = Z.of_nat i.
Proof.
  intros Hwf Hcal H0 Hfit Hty Hdef.
  destruct (oob_only_cases _ (appends_oob_only cs st Hwf Hcal)) as [He | [st' H]];
    [contradiction |].
  exists st'. split; [exact H |].
  destruct (appends_stored cs st st' Hwf Hcal ltac:(lia) H) as [Hc Hcs].
  rewrite H0 in Hc. simpl in Hc. split; [exact Hc |].
  intros i c Hi. destruct (Hcs i c Hi) as (d & Hd & Hid & Hseq & Hthr & Hrep & Hord).
  rewrite H0 in Hd, Hord. simpl in Hd, Hord.
  pose proof (lookup_lt_Some _ _ _ Hi) as Hlt.
  exists (line_of d). split.
  - apply seq_show_stored; [lia | lia | exact Hd].
  - rewrite Forall_forall in Hty.
    destruct (Hty c) as (Tid & _ & _ & Trep); [eapply list_elem_of_lookup_2; eauto |].
    cbn [line_of out_id out_seq out_thread out_timesrepeated out_count].
    rewrite Hid, Hrep, !as_short_as_ushort by assumption. auto 6.
Qed.

Lemma three_calls_typed : Forall call_typed three_calls.
Proof.
  unfold three_calls, call_typed, is_short, is_uint, TPS_SOCK, TPS_SOCK_TRANS.
  repeat constructor; simpl; lia.
Qed.

Lemma appends_read_back_witness :
  exists st',
    appends three_calls (boot (steady_clock 5)) = Ok st' /\
    tp_timer_count st' = Z.of_nat (length three_calls) /\
    forall i c, three_calls !! i = Some c ->
      exists line,
        seq_show (Z.of_nat i) st' = Ok (Some line) /\
        out_id line = c_id c /\
        out_seq line = c_seq c /\
        out_thread line = c_threadnr c /\
        out_timesrepeated line = c_timesrepeated c /\
        out_count line = Z.of_nat i.
Proof.
  apply (appends_read_back three_calls (boot (steady_clock 5))).
  - apply boot_inv.
  - apply boot_inv.
  - reflexivity.
  - unfold TP_TIMER_SPACE. simpl. lia.
  - apply three_calls_typed.
  - apply is_Ok_defined. vm_compute. reflexivity.
Defined.

(** C7.  In every reachable state the record at position [i] carries
    ordinal [i] for every [i] below the count, so the ordinals of the
    resident records are contiguous and strictly increasing; and every call
    of [tp_timer] from such a state leaves a state of which the same holds. *)
Theorem reachable_ordinals (st : kernel) :
  reachable st ->
  ordinals_contiguous st /\ ordinals_increasing st /\
  forall id seq threadnr timesrepeated st',
    tp_timer id seq threadnr timesrepeated st = Ok st' ->
    ordinals_contiguous st' /\ ordinals_increasing st'.
Proof.
  intros Hr. destruct (reachable_inv st Hr) as (Hwf & Hcal & Hord).
  split; [exact Hord |]. split; [apply ordinals_contiguous_increasing, Hord |].
  intros id seq threadnr timesrepeated st' H.
  pose proof (tp_timer_ordinals _ _ _ _ _ _ Hwf Hord H) as Hord'.
  split; [exact Hord' | apply ordinals_contiguous_increasing, Hord'].
Qed.

Lemma after_three_calls_reachable : reachable after_three_calls.
Proof.
  apply (reachable_appends three_calls (boot (steady_clock 5))).
  - apply reachable_boot.
  - apply is_Ok_value. vm_compute. reflexivity.
Defined.

Lemma reachable_ordinals_witness :
  ordinals_contiguous after_three_calls /\ ordinals_increasing after_three_calls /\
  forall id seq threadnr timesrepeated st',
    tp_timer id seq threadnr timesrepeated after_three_calls = Ok st' ->
    ordinals_contiguous st' /\ ordinals_increasing st'.
Proof.
  apply (reachable_ordinals after_three_calls). apply after_three_calls_reachable.
Defined.

(** C9.  [tp_release] on an allocated log sets the count to zero and zeroes
    every cell of the storage; afterwards the reader shows no record for any
    cursor, and [seq_next] ends the sequence at once. *)
Theorem tp_release_resets (st : kernel) (space : list Data.t) :
  tp_timer_space st = Some space ->
  exists st',
    tp_release st = Ok st' /\
    tp_timer_count st' = 0 /\
    tp_timer_space st' = Some (replicate (Z.to_nat TP_TIMER_SPACE) Data.zero) /\
    (forall i d, stored st' i d -> d = Data.zero) /\
    (forall v, seq_show v st' = Ok None) /\
    (forall v, seq_next v st' = None).
Proof.
  intros Hsp. unfold tp_release. rewrite Hsp. eexists. split; [reflexivity |].
  kernel_simpl. split; [reflexivity |]. split; [reflexivity |].
  assert (Hle : forall v, (0 <=? as_ulong v) = true).
  { intros v. apply Z.leb_le. apply as_ulong_range. }
  split; [| split].
  - intros i d (sp & Hsp' & Hd). kernel_simpl.
    assert (Hsp'' : sp = replicate (Z.to_nat TP_TIMER_SPACE) Data.zero) by congruence.
    subst sp. apply rd_Ok in Hd as [_ Hd]. apply lookup_replicate in Hd as [-> _].
    reflexivity.
  - intros v. unfold seq_show. kernel_simpl. rewrite Hle. reflexivity.
  - intros v. unfold seq_next. kernel_simpl. rewrite Hle. reflexivity.
Qed.

Lemma tp_release_resets_witness :
  exists st',
    tp_release full_log = Ok st' /\
    tp_timer_count st' = 0 /\
    tp_timer_space st' = Some (replicate (Z.to_nat TP_TIMER_SPACE) Data.zero) /\
    (forall i d, stored st' i d -> d = Data.zero) /\
    (forall v, seq_show v st' = Ok None) /\
    (forall v, seq_next v st' = None).
Proof.
  apply (tp_release_resets full_log (replicate (Z.to_nat TP_TIMER_SPACE) Data.zero)).
  reflexivity.
Defined.

(** ** Calibration: convergence *)

Lemma cal_start_converged st : converged st -> cal_start st = st.
Proof.
  unfold converged, cal_start. intros H.
  destruct (Z.leb_spec TP_TIMER_CAL (cal_count st)); [reflexivity | lia].
Qed.

Lemma cal_stop_converged usec st : converged st -> cal_stop usec st = Ok st.
Proof.
  unfold converged, cal_stop. intros H.
  destruct (Z.leb_spec TP_TIMER_CAL (cal_count st)); [reflexivity | lia].
Qed.

Lemma cal_start_cal st :
  cal_count (cal_start st) = cal_count st /\ cal_list (cal_start st) = cal_list st /\
  cal_mean (cal_start st) = cal_mean st.
Proof.
  unfold cal_start. destruct (TP_TIMER_CAL <=? cal_count st); [auto |].
  unfold do_gettimeofday. kernel_simpl. auto.
Qed.

Lemma cal_start_wf st : cal_wf st -> cal_wf (cal_start st).
Proof.
  unfold cal_wf. destruct (cal_start_cal st) as (-> & -> & _). auto.
Qed.

Lemma cal_run_converged es st : converged st -> cal_run es st = Ok st.
Proof.
  intros H. induction es as [| [| usec] es IH]; [reflexivity | |];
    unfold cal_run in *; simpl.
  - rewrite cal_start_converged by exact H. exact IH.
  - rewrite cal_stop_converged by exact H. exact IH.
Qed.

Lemma cal_run_oob_only es st : cal_wf st -> oob_only (cal_run es st).
Proof.
  revert st. induction es as [| [| usec] es IH]; intros st Hwf;
    [apply oob_only_Ok | |]; unfold cal_run in *; simpl.
  - apply IH, cal_start_wf, Hwf.
  - apply oob_only_bind; [apply cal_stop_oob_only, Hwf |].
    intros st1 H1. apply IH. eapply cal_stop_wf; eauto.
Qed.

Lemma samples_nonneg es : 0 <= samples es.
Proof. induction es as [| [| usec] es IH]; simpl; lia. Qed.

Lemma cal_run_count es :
  forall st st',
    cal_wf st -> cal_run es st = Ok st' ->
    cal_count st' = count_after (cal_count st) (samples es).
Proof.
  induction es as [| [| usec] es IH]; intros st st' Hwf H; unfold cal_run in *.
  - apply Ok_inj in H. subst st'. destruct Hwf as [_ Hc].
    unfold count_after, TP_TIMER_CAL. simpl samples.
    destruct (Z.leb_spec 100 (cal_count st)); [reflexivity |].
    destruct (Z.ltb_spec (cal_count st + 0) 100); lia.
  - simpl in H. apply IH in H; [| apply cal_start_wf, Hwf].
    destruct (cal_start_cal st) as (Hc & _). rewrite Hc in H. exact H.
  - simpl in H. apply bind_Ok in H as (st1 & H1 & H).
    pose proof (cal_stop_wf _ _ _ Hwf H1) as Hwf1.
    pose proof (cal_stop_count _ _ _ Hwf H1) as Hc1.
    apply IH in H; [| exact Hwf1]. rewrite H, Hc1.
    pose proof (samples_nonneg es) as Hs. destruct Hwf as [_ Hc].
    simpl samples. unfold count_after, TP_TIMER_CAL.
    destruct (Z.leb_spec 100 (cal_count st)) as [Hge | Hlt].
    + destruct (Z.leb_spec 100 (cal_count st)); [reflexivity | lia].
    + destruct (Z.eqb_spec (cal_count st + 1) 100) as [He | Hne].
      * change (100 <=? 100 + 1) with true. cbv iota.
        destruct (Z.ltb_spec (cal_count st + (1 + samples es)) 100); lia.
      * destruct (Z.leb_spec 100 (cal_count st + 1)); [lia |].
        rewrite Z.add_assoc. reflexivity.
Qed.

(** Where the run makes no access out of bounds: a calibration that has
    seen no sample is fed by any sequence of [cal_start] and [cal_stop]
    calls.  It is converged afterwards exactly when the sequence holds at
    least [TP_TIMER_CAL] samples: the counter follows the samples one by one
    below [TP_TIMER_CAL] and stands at [TP_TIMER_CAL + 1] from the sample
    that fills the window on.  Once converged, every further sequence of
    calls returns the very same state: window, correction, counter and
    baseline are never written again.  The sort of the filled window can
    leave the window; the run cannot fail in any other way. *)
Lemma calibration_converges_once (es : list cal_event) (st : kernel) :
  cal_wf st -> cal_count st = 0 ->
  defined (cal_run es st) ->
  exists st',
    cal_run es st = Ok st' /\
    cal_count st' =
      (if samples es <? TP_TIMER_CAL then samples es else TP_TIMER_CAL + 1) /\
    (converged st' <-> TP_TIMER_CAL <= samples es) /\
    (converged st' -> forall es', cal_run es' st' = Ok st').
Proof.
  intros Hwf H0 Hdef.
  destruct (oob_only_cases _ (cal_run_oob_only es st Hwf)) as [He | [st' H]];
    [contradiction |].
  exists st'. split; [exact H |].
  pose proof (cal_run_count es st st' Hwf H) as Hc. rewrite H0 in Hc.
  unfold count_after in Hc. unfold TP_TIMER_CAL in *.
  change (100 <=? 0) with false in Hc. cbv iota in Hc. rewrite !Z.add_0_l in Hc.
  split; [exact Hc |]. split.
  - unfold converged, TP_TIMER_CAL. rewrite Hc.
    destruct (Z.ltb_spec (samples es) 100); lia.
  - intros Hconv es'. apply cal_run_converged, Hconv.
Qed.

Lemma calibration_converges_once_witness :
  exists st',
    cal_run hundred_samples (boot (steady_clock 5)) = Ok st' /\
    cal_count st' =
      (if samples hundred_samples <? TP_TIMER_CAL
       then samples hundred_samples else TP_TIMER_CAL + 1) /\
    (converged st' <-> TP_TIMER_CAL <= samples hundred_samples) /\
    (converged st' -> forall es', cal_run es' st' = Ok st').
Proof.
  apply (calibration_converges_once hundred_samples (boot (steady_clock 5))).
  - apply boot_inv.
  - reflexivity.
  - apply is_Ok_defined. vm_compute. reflexivity.
Defined.

(** ** Calibration: the sort leaves the window *)

(** When every cell below [j] is greater than the pivot, the downward scan
    steps from cell 0 to cell [ULONG_MAX]. *)
Lemma scan_down_below_all fuel a v :
  Z.of_nat (length a) < 2 ^ 31 ->
  forall j,
    0 <= j <= Z.of_nat (length a) ->
    (forall k x, 0 <= k < j -> rd a k = Ok x -> v < x) ->
    j < Z.of_nat fuel ->
    scan_down fuel a v j = Err OutOfBounds.
Proof.
  intros Hlen. induction fuel as [| fuel IH]; intros j Hj Hgt Hf; [lia |].
  simpl. destruct (Z.eq_dec j 0) as [-> | Hj0].
  - change (as_ulong (0 - 1)) with (2 ^ 64 - 1).
    unfold rd. destruct (in_range a (2 ^ 64 - 1)) eqn:Hr; [| reflexivity].
    apply in_range_true in Hr. lia.
  - rewrite as_ulong_pred by lia.
    destruct (rd_in_range a (j - 1)) as [x Hx]; [lia |]. rewrite Hx. cbn [bind].
    pose proof (Hgt (j - 1) x ltac:(lia) Hx) as Hvx.
    destruct (Z.ltb_spec v x); [| lia].
    apply IH; [lia | | lia]. intros k y Hk. apply Hgt. lia.
Qed.

(** [cal_sort] on a window whose last cell is smaller than all the others. *)
Lemma cal_sort_strict_min_last fuel a v :
  2 <= Z.of_nat (length a) < 2 ^ 31 ->
  rd a (Z.of_nat (length a) - 1) = Ok v ->
  (forall k x, 0 <= k < Z.of_nat (length a) - 1 -> rd a k = Ok x -> v < x) ->
  Z.of_nat (length a) + 1 < Z.of_nat fuel ->
  cal_sort fuel a 0 (Z.of_nat (length a) - 1) = Err OutOfBounds.
Proof.
  intros Hlen Hv Hgt Hf.
  destruct fuel as [| [| fuel]]; [lia | lia |].
  cbn [cal_sort]. destruct (Z.ltb_spec 0 (Z.of_nat (length a) - 1)); [| lia].
  rewrite Hv. cbn [bind]. cbn [partition].
  assert (Hup : scan_up fuel a v (as_ulong (0 - 1)) = Ok 0).
  { destruct fuel as [| fuel]; [lia |]. cbn [scan_up].
    change (as_ulong (as_ulong (0 - 1) + 1)) with 0.
    destruct (rd_in_range a 0) as [x Hx]; [lia |]. rewrite Hx. cbn [bind].
    pose proof (Hgt 0 x ltac:(lia) Hx). destruct (Z.ltb_spec x v); [lia | reflexivity]. }
  rewrite Hup. cbn [bind].
  rewrite as_ulong_small by lia.
  rewrite (scan_down_below_all fuel a v); [reflexivity | lia | lia | exact Hgt | lia].
Qed.

(** When the sample that fills the window is smaller than the 99 samples
    before it, [cal_stop] leaves the window: no correction is computed. *)
Lemma cal_stop_strict_min_last usec st :
  cal_wf st -> cal_count st = TP_TIMER_CAL - 1 ->
  (forall k x, 0 <= k < TP_TIMER_CAL - 1 -> rd (cal_list st) k = Ok x ->
               as_ulong (usec - cal_usec st) < x) ->
  cal_stop usec st = Err OutOfBounds.
Proof.
  intros [Hlen Hc] Hcount Hgt. unfold TP_TIMER_CAL in *. unfold cal_stop, TP_TIMER_CAL.
  rewrite Hcount. change (100 <=? 100 - 1) with false. cbv iota.
  unfold wr. destruct (in_range (cal_list st) (100 - 1)) eqn:Hr;
    [| apply in_range_false in Hr; lia].
  cbn [bind]. kernel_simpl. rewrite Hcount.
  change (as_int (100 - 1 + 1) =? 100) with true. cbv iota.
  set (s := as_ulong (usec - cal_usec st)) in *.
  set (l := <[Z.to_nat (100 - 1) := s]> (cal_list st)).
  assert (Hl : Z.of_nat (length l) = 100) by (unfold l; rewrite length_insert; exact Hlen).
  replace (100 - 1) with (Z.of_nat (length l) - 1) at 1 by lia.
  rewrite (cal_sort_strict_min_last cal_sort_fuel l s); [reflexivity | lia | | | ].
  - rewrite Hl. unfold l. apply rd_insert_eq. lia.
  - intros k x Hk Hx. unfold l in Hx. rewrite rd_insert_ne in Hx by lia.
    apply (Hgt k x); [lia | exact Hx].
  - unfold cal_sort_fuel. lia.
Qed.

(** C4.  The window of 99 samples of 5 microseconds and a last sample of 4,
    reached by 100 calls of [tp_timer] under a clock that shows these
    microseconds: [cal_sort] scans downwards past cell 0 of [cal_list], the
    call that fills the window makes an access out of bounds, and no
    trimmed mean is frozen. *)
Theorem cal_sort_leaves_window :
  cal_sort cal_sort_fuel (replicate 99 5 ++ [4]) 0 (TP_TIMER_CAL - 1) = Err OutOfBounds /\
  (exists st, appends (replicate 99 probe_call) (boot dip_clock) = Ok st /\
              cal_list st = replicate 99 5 ++ [0] /\ cal_count st = 99 /\
              cal_stop 4 st = Err OutOfBounds) /\
  appends (replicate 100 probe_call) (boot dip_clock) = Err OutOfBounds.
Proof.
  split; [vm_compute; reflexivity |]. split; [| vm_compute; reflexivity].
  exists (value_or (boot dip_clock) (appends (replicate 99 probe_call) (boot dip_clock))).
  split; [apply is_Ok_value; vm_compute; reflexivity |].
  split; [vm_compute; reflexivity |]. split; vm_compute; reflexivity.
Qed.

(** C3.  One hundred calls of [tp_timer] with arguments of the parameter
    types, on a freshly booted kernel whose log is empty, under a clock
    whose 100th reading shows a smaller microsecond than the 99 before it.
    The first 99 calls store their records and leave the count at 99; the
    100th fills the calibration window, [cal_sort] scans past cell 0 of
    [cal_list], and the run of [N = 100 <= TP_TIMER_SPACE] calls ends in an
    access out of bounds: it returns no log, so none with a count of 100
    whose position 99 could be read. *)
Theorem appends_window_fill_faults :
  log_wf (boot dip_clock) /\ cal_wf (boot dip_clock) /\
  tp_timer_count (boot dip_clock) = 0 /\
  Z.of_nat (length (replicate 100 probe_call)) <= TP_TIMER_SPACE /\
  Forall call_typed (replicate 100 probe_call) /\
  (exists st, appends (replicate 99 probe_call) (boot dip_clock) = Ok st /\
              tp_timer_count st = 99 /\
              run_call tp_timer probe_call st = Err OutOfBounds) /\
  appends (replicate 100 probe_call) (boot dip_clock) = Err OutOfBounds /\
  ~ (exists st', appends (replicate 100 probe_call) (boot dip_clock) = Ok st' /\
                 tp_timer_count st' = 100).
Proof.
  destruct (boot_inv dip_clock) as (Hlog & Hcal & _).
  assert (Hrun : appends (replicate 100 probe_call) (boot dip_clock) = Err OutOfBounds)
    by (vm_compute; reflexivity).
  split; [exact Hlog |]. split; [exact Hcal |]. split; [reflexivity |].
  split; [rewrite length_replicate; unfold TP_TIMER_SPACE; lia |].
  split.
  { apply Forall_replicate.
    unfold call_typed, probe_call, is_short, is_uint, TPS_SOCK. simpl. lia. }
  split.
  { exists (value_or (boot dip_clock) (appends (replicate 99 probe_call) (boot dip_clock))).
    split; [apply is_Ok_value; vm_compute; reflexivity |].
    split; vm_compute; reflexivity. }
  split; [exact Hrun |].
  intros (st' & H & _). rewrite Hrun in H. discriminate H.
Qed.

(** C8.  A calibration that has seen no sample is fed exactly [TP_TIMER_CAL]
    samples: 99 measurements of 5 microseconds and a 100th of 4.  After the
    first 99 the counter stands at 99 and the calibration is collecting; the
    [cal_stop] that brings the 100th sample makes [cal_sort] scan past cell
    0 of [cal_list], and the run ends in an access out of bounds: no
    converged state is returned, the transition does not take place. *)
Theorem calibration_window_fill_faults :
  cal_wf (boot (steady_clock 5)) /\ cal_count (boot (steady_clock 5)) = 0 /\
  samples dip_samples = TP_TIMER_CAL /\
  (exists st,
     cal_run (concat (replicate 99 [CalStart; CalStop 10])) (boot (steady_clock 5)) = Ok st /\
     cal_count st = 99 /\ ~ converged st /\
     cal_list st = replicate 99 5 ++ [0] /\
     cal_stop 9 (cal_start st) = Err OutOfBounds) /\
  cal_run dip_samples (boot (steady_clock 5)) = Err OutOfBounds /\
  ~ (exists st', cal_run dip_samples (boot (steady_clock 5)) = Ok st' /\ converged st').
Proof.
  destruct (boot_inv (steady_clock 5)) as (_ & Hcal & _).
  assert (Hrun : cal_run dip_samples (boot (steady_clock 5)) = Err OutOfBounds)
    by (vm_compute; reflexivity).
  split; [exact Hcal |]. split; [reflexivity |]. split; [reflexivity |].
  split.
  { exists (value_or (boot (steady_clock 5))
              (cal_run (concat (replicate 99 [CalStart; CalStop 10]))
                       (boot (steady_clock 5)))).
    split; [apply is_Ok_value; vm_compute; reflexivity |].
    split; [vm_compute; reflexivity |].
    split; [unfold converged; vm_compute; intros H; apply H; reflexivity |].
    split; vm_compute; reflexivity. }
  split; [exact Hrun |].
  intros (st' & H & _). rewrite Hrun in H. discriminate H.
Qed.

(** The sample set 10, 20, ..., 1000: the correction frozen is 505, the mean
    of the 90 samples 60, ..., 950 that remain when the 5 lowest and the 5
    highest are left out. *)
Lemma cal_stop_known_samples :
  let st := mk_kernel None 0 0 0 (map (fun k => 10 * k) (seqZ 1 100)) 99
                      (steady_clock 5) O [] in
  exists st', cal_stop 1000 st = Ok st' /\
              cal_mean st' = 505 /\
              cal_mean st' = (60 + 950) * 90 / 2 / 90 /\
              cal_count st' = TP_TIMER_CAL + 1.
Proof.
  eexists. split; [vm_compute; reflexivity |]. repeat split.
Qed.

(** ** The sort of the calibration window: what it does inside the window *)

Lemma rd_insert_other {A : Type} (a : list A) i k x :
  0 <= i -> i <> k -> rd (<[Z.to_nat i := x]> a) k = rd a k.
Proof.
  intros Hi Hne. destruct (Z.lt_ge_cases k 0) as [Hk | Hk].
  - unfold rd. rewrite (in_range_length (<[Z.to_nat i := x]> a) a) by apply length_insert.
    destruct (in_range a k) eqn:Hr; [| reflexivity].
    apply in_range_true in Hr. lia.
  - apply rd_insert_ne; lia.
Qed.

Lemma rearranged_refl a lo hi : rearranged a a lo hi.
Proof. unfold rearranged. repeat split; eauto. Qed.

Lemma rearranged_widen a b lo hi lo' hi' :
  rearranged a b lo hi -> lo' <= lo -> hi <= hi' -> rearranged a b lo' hi'.
Proof.
  intros (Hl & Hp & Hout & Hin) Hlo Hhi. split; [exact Hl |]. split; [exact Hp |]. split.
  - intros k Hk. apply Hout. lia.
  - intros k x Hk Hx.
    destruct (Z.lt_ge_cases k lo) as [H1 | H1];
      [exists k; split; [lia | rewrite <- Hout by lia; exact Hx] |].
    destruct (Z.lt_ge_cases hi k) as [H2 | H2];
      [exists k; split; [lia | rewrite <- Hout by lia; exact Hx] |].
    destruct (Hin k x ltac:(lia) Hx) as (k' & Hk' & Hx'). exists k'. split; [lia | exact Hx'].
Qed.

Lemma rearranged_trans a b c lo hi :
  rearranged a b lo hi -> rearranged b c lo hi -> rearranged a c lo hi.
Proof.
  intros (Hl1 & Hp1 & Hout1 & Hin1) (Hl2 & Hp2 & Hout2 & Hin2).
  split; [congruence |]. split; [etransitivity; eassumption |]. split.
  - intros k Hk. rewrite Hout2, Hout1 by exact Hk. reflexivity.
  - intros k x Hk Hx. destruct (Hin2 k x Hk Hx) as (k' & Hk' & Hx'). eauto.
Qed.

Lemma swap_rearranged a i j a' lo hi :
  swap a i j = Ok a' -> lo <= i <= hi -> lo <= j <= hi ->
  rearranged a a' lo hi /\
  (exists x y, rd a i = Ok x /\ rd a j = Ok y /\ rd a' i = Ok y /\ rd a' j = Ok x) /\
  (forall k, k <> i -> k <> j -> rd a' k = rd a k).
Proof.
  unfold swap. intros H Hi Hj.
  apply bind_Ok in H as (x & Hx & H). apply bind_Ok in H as (y & Hy & H).
  apply bind_Ok in H as (a1 & Ha1 & H).
  apply wr_Ok in Ha1 as [Hri ->]. apply wr_Ok in H as [Hrj ->].
  rewrite length_insert in Hrj.
  assert (Hother : forall k, k <> i -> k <> j ->
            rd (<[Z.to_nat j := x]> (<[Z.to_nat i := y]> a)) k = rd a k).
  { intros k Hki Hkj. rewrite !rd_insert_other by lia. reflexivity. }
  assert (Hj' : rd (<[Z.to_nat j := x]> (<[Z.to_nat i := y]> a)) j = Ok x).
  { apply rd_insert_eq. rewrite length_insert. lia. }
  assert (Hi' : rd (<[Z.to_nat j := x]> (<[Z.to_nat i := y]> a)) i = Ok y).
  { destruct (Z.eq_dec i j) as [-> | Hne].
    - rewrite Hj'. congruence.
    - rewrite rd_insert_other by lia. apply rd_insert_eq. lia. }
  split; [| split; [exists x, y; auto | exact Hother]].
  split; [rewrite !length_insert; reflexivity |]. split.
  { apply rd_Ok in Hx as [_ Hx]. apply rd_Ok in Hy as [_ Hy].
    apply Permutation_insert_swap; assumption. }
  split.
  - intros k Hk. apply Hother; lia.
  - intros k z Hk Hz.
    destruct (Z.eq_dec k i) as [-> | Hki]; [exists j; split; [lia | congruence] |].
    destruct (Z.eq_dec k j) as [-> | Hkj]; [exists i; split; [lia | congruence] |].
    exists k. split; [lia |]. rewrite <- Hother by assumption. exact Hz.
Qed.

Lemma scan_up_spec fuel a v :
  Z.of_nat (length a) < 2 ^ 31 ->
  forall i i',
    scan_up fuel a v i = Ok i' ->
    as_ulong (i + 1) <= i' /\
    (forall k x, as_ulong (i + 1) <= k < i' -> rd a k = Ok x -> x < v) /\
    exists x, rd a i' = Ok x /\ v <= x.
Proof.
  intros Hlen. induction fuel as [| fuel IH]; intros i i' H; [discriminate |].
  cbn [scan_up] in H. apply bind_Ok in H as (x & Hx & H).
  pose proof (rd_Ok_range _ _ _ Hx) as Hr.
  destruct (Z.ltb_spec x v) as [Hlt | Hge].
  - apply IH in H as (Hle & Hbelow & Hstop). rewrite as_ulong_succ in Hle, Hbelow by lia.
    split; [lia |]. split; [| exact Hstop].
    intros k y Hk Hy. destruct (Z.eq_dec k (as_ulong (i + 1))) as [-> | Hne].
    + congruence.
    + apply (Hbelow k y); [lia | exact Hy].
  - injection H as <-. split; [lia |]. split; [intros k y Hk; lia | eauto].
Qed.

Lemma scan_down_spec fuel a v :
  Z.of_nat (length a) < 2 ^ 31 ->
  forall j j',
    scan_down fuel a v j = Ok j' ->
    0 <= j' <= as_ulong (j - 1) /\
    (forall k x, j' < k <= as_ulong (j - 1) -> rd a k = Ok x -> v < x) /\
    exists x, rd a j' = Ok x /\ x <= v.
Proof.
  intros Hlen. induction fuel as [| fuel IH]; intros j j' H; [discriminate |].
  cbn [scan_down] in H. apply bind_Ok in H as (x & Hx & H).
  pose proof (rd_Ok_range _ _ _ Hx) as Hr.
  destruct (Z.ltb_spec v x) as [Hlt | Hge].
  - pose proof (scan_down_Ok _ _ _ _ _ Hlen H) as Hj.
    apply IH in H as (Hle & Habove & Hstop).
    assert (Hj0 : as_ulong (j - 1) <> 0).
    { intros E. rewrite E in Hj. change (as_ulong (0 - 1)) with (2 ^ 64 - 1) in Hj. lia. }
    rewrite as_ulong_pred in Hle, Habove by lia.
    split; [lia |]. split; [| exact Hstop].
    intros k y Hk Hy. destruct (Z.eq_dec k (as_ulong (j - 1))) as [-> | Hne].
    + congruence.
    + apply (Habove k y); [lia | exact Hy].
  - injection H as <-. split; [lia |]. split; [intros k y Hk; lia | eauto].
Qed.

(** The [while (1)] loop of [cal_sort] on the range from [m] to [n] with the
    pivot [v] in cell [n]: when it ends, the cells below [i'] hold at most
    [v], the cells above [j'] hold at least [v], and the scans have crossed. *)
Lemma partition_spec m n v fuel :
  forall a i j a' i' j',
    Z.of_nat (length a) < 2 ^ 31 ->
    0 <= m -> n < Z.of_nat (length a) ->
    m <= as_ulong (i + 1) <= n ->
    m - 1 <= as_ulong (j - 1) <= n - 1 ->
    rd a n = Ok v ->
    guarded_below a m v ->
    cells_le a m (as_ulong (i + 1) - 1) v ->
    cells_ge a (as_ulong (j - 1) + 1) (n - 1) v ->
    partition fuel a v i j = Ok (a', i', j') ->
    rearranged a a' m (n - 1) /\
    m <= i' <= n /\ m - 1 <= j' <= n - 1 /\ 0 <= j' /\ j' <= i' /\
    cells_le a' m (i' - 1) v /\
    cells_ge a' (j' + 1) (n - 1) v /\
    exists x, rd a' i' = Ok x /\ v <= x.
Proof.
  induction fuel as [| fuel IH];
    intros a i j a' i' j' Hlen Hm Hn Hi0 Hj0 Hv Hguard Hle Hge H; [discriminate |].
  cbn [partition] in H.
  apply bind_Ok in H as (i1 & Hi1 & H). apply bind_Ok in H as (j1 & Hj1 & H).
  pose proof (scan_up_Ok _ _ _ _ _ Hlen Hi1) as Hi1r.
  apply scan_up_spec in Hi1 as (Hi1lo & Hi1below & (xi & Hxi & Hxiv)); [| exact Hlen].
  apply scan_down_spec in Hj1 as (Hj1hi & Hj1above & (xj & Hxj & Hxjv)); [| exact Hlen].
  assert (Hi1n : i1 <= n).
  { destruct (Z.le_gt_cases i1 n) as [? | Hgt]; [assumption |].
    pose proof (Hi1below n v ltac:(lia) Hv). lia. }
  assert (Hj1m : m - 1 <= j1).
  { destruct (Z.le_gt_cases (m - 1) j1) as [? | Hgt]; [assumption |].
    destruct Hguard as [-> | (y & Hy & Hyv)]; [lia |].
    pose proof (Hj1above (m - 1) y ltac:(lia) Hy). lia. }
  assert (Hle1 : cells_le a m (i1 - 1) v).
  { intros k x Hk Hx. destruct (Z.lt_ge_cases k (as_ulong (i + 1))) as [Hlt | Hge'].
    - apply (Hle k x); [lia | exact Hx].
    - pose proof (Hi1below k x ltac:(lia) Hx). lia. }
  assert (Hge1 : cells_ge a (j1 + 1) (n - 1) v).
  { intros k x Hk Hx. destruct (Z.lt_ge_cases (as_ulong (j - 1)) k) as [Hlt | Hge'].
    - apply (Hge k x); [lia | exact Hx].
    - pose proof (Hj1above k x ltac:(lia) Hx). lia. }
  destruct (Z.leb_spec j1 i1) as [Hcross | Hopen].
  - injection H as <- <- <-.
    split; [apply rearranged_refl |]. repeat (split; [lia || assumption |]). eauto.
  - apply bind_Ok in H as (a1 & Hsw & H).
    destruct (swap_rearranged a i1 j1 a1 m (n - 1) Hsw ltac:(lia) ltac:(lia))
      as (Hre & (x & y & Hx & Hy & Hx' & Hy') & Hother).
    assert (x = xi) by congruence. assert (y = xj) by congruence. subst x y.
    pose proof Hre as (Hl1 & _).
    apply IH in H; rewrite ?Hl1, ?as_ulong_succ, ?as_ulong_pred by lia;
      try assumption; try lia.
    + destruct H as (Hre' & Hrest). split; [| exact Hrest].
      eapply rearranged_trans; eassumption.
    + rewrite Hother by lia. exact Hv.
    + destruct Hguard as [-> | (y & Hy0 & Hyv)]; [left; reflexivity | right].
      exists y. split; [| exact Hyv]. rewrite Hother by lia. exact Hy0.
    + intros k x Hk Hkx. destruct (Z.eq_dec k i1) as [-> | Hne].
      * assert (x = xj) by congruence. lia.
      * rewrite Hother in Hkx by lia. apply (Hle1 k x); [lia | exact Hkx].
    + intros k x Hk Hkx. destruct (Z.eq_dec k j1) as [-> | Hne].
      * assert (x = xi) by congruence. lia.
      * rewrite Hother in Hkx by lia. apply (Hge1 k x); [lia | exact Hkx].
Qed.

Lemma cells_le_rearranged a b lo hi lo' hi' v :
  cells_le a lo hi v -> rearranged a b lo' hi' ->
  (lo <= lo' /\ hi' <= hi) \/ hi < lo' \/ hi' < lo ->
  cells_le b lo hi v.
Proof.
  intros Hle (_ & _ & Hout & Hin) Hpos k x Hk Hx.
  destruct (Z.lt_ge_cases k lo') as [H1 | H1];
    [rewrite Hout in Hx by lia; eapply Hle; eauto |].
  destruct (Z.lt_ge_cases hi' k) as [H2 | H2];
    [rewrite Hout in Hx by lia; eapply Hle; eauto |].
  destruct (Hin k x ltac:(lia) Hx) as (k' & Hk' & Hx'). apply (Hle k' x); [lia | exact Hx'].
Qed.

Lemma cells_ge_rearranged a b lo hi lo' hi' v :
  cells_ge a lo hi v -> rearranged a b lo' hi' ->
  (lo <= lo' /\ hi' <= hi) \/ hi < lo' \/ hi' < lo ->
  cells_ge b lo hi v.
Proof.
  intros Hge (_ & _ & Hout & Hin) Hpos k x Hk Hx.
  destruct (Z.lt_ge_cases k lo') as [H1 | H1];
    [rewrite Hout in Hx by lia; eapply Hge; eauto |].
  destruct (Z.lt_ge_cases hi' k) as [H2 | H2];
    [rewrite Hout in Hx by lia; eapply Hge; eauto |].
  destruct (Hin k x ltac:(lia) Hx) as (k' & Hk' & Hx'). apply (Hge k' x); [lia | exact Hx'].
Qed.

Lemma sorted_cells_outside a b lo hi lo' hi' :
  sorted_cells a lo hi -> rearranged a b lo' hi' -> hi < lo' \/ hi' < lo ->
  sorted_cells b lo hi.
Proof.
  intros Hs (_ & _ & Hout & _) Hpos k1 k2 x1 x2 H1 H12 H2 Hx1 Hx2.
  rewrite Hout in Hx1, Hx2 by lia. eapply Hs; eauto.
Qed.

(** Ascending below [j], ascending above [i], at most [v] up to [i] and at
    least [v] from [j + 1] on, with [j <= i]: ascending throughout. *)
Lemma sorted_cells_join a lo hi i j v :
  sorted_cells a lo j -> sorted_cells a (i + 1) hi ->
  cells_le a lo i v -> cells_ge a (j + 1) hi v -> j <= i ->
  sorted_cells a lo hi.
Proof.
  intros Hl Hr Hle Hge Hji k1 k2 x1 x2 H1 H12 H2 Hx1 Hx2.
  destruct (Z.le_gt_cases k2 j) as [Hk2 | Hk2]; [eapply Hl; eauto |].
  destruct (Z.le_gt_cases (i + 1) k1) as [Hk1 | Hk1]; [eapply (Hr k1 k2); eauto |].
  pose proof (Hle k1 x1 ltac:(lia) Hx1). pose proof (Hge k2 x2 ltac:(lia) Hx2). lia.
Qed.

(** Where it stays inside the array, [cal_sort (a, m, n)] rearranges the cells
    from [m] to [n] into ascending order and leaves the others alone. *)
Lemma cal_sort_spec fuel :
  forall a m n a',
    Z.of_nat (length a) < 2 ^ 31 ->
    0 <= m -> n < Z.of_nat (length a) ->
    (m = 0 \/ exists y, rd a (m - 1) = Ok y /\ cells_ge a m n y) ->
    cal_sort fuel a m n = Ok a' ->
    rearranged a a' m n /\ sorted_cells a' m n.
Proof.
  induction fuel as [| fuel IH]; intros a m n a' Hlen Hm Hn Hguard H; [discriminate |].
  cbn [cal_sort] in H. destruct (Z.ltb_spec m n) as [Hmn | Hmn].
  2:{ injection H as <-. split; [apply rearranged_refl |].
      intros k1 k2 x1 x2 H1 H12 H2 Hx1 Hx2.
      assert (k1 = k2) by lia. subst k2. assert (x1 = x2) by congruence. lia. }
  apply bind_Ok in H as (v & Hv & H). apply bind_Ok in H as ([[a1 i1] j1] & Hp & H).
  apply bind_Ok in H as (a2 & Hsw & H). apply bind_Ok in H as (a3 & Hleft & H).
  assert (Hm1 : as_ulong (as_ulong (m - 1) + 1) = m).
  { destruct (Z.eq_dec m 0) as [-> | Hm0]; [reflexivity |].
    rewrite as_ulong_pred by lia. replace (m - 1 + 1) with m by lia.
    apply as_ulong_small. lia. }
  assert (Hn0 : as_ulong n = n) by (apply as_ulong_small; lia).
  assert (Hn1 : as_ulong (as_ulong n - 1) = n - 1)
    by (rewrite Hn0; apply as_ulong_small; lia).
  apply (partition_spec m n v) in Hp; rewrite ?Hm1, ?Hn1; try assumption; try lia.
  2:{ destruct Hguard as [-> | (y & Hy & Hge)]; [left; reflexivity | right].
      exists y. split; [exact Hy |]. apply (Hge n v); [lia | exact Hv]. }
  2:{ intros k x Hk. lia. }
  2:{ intros k x Hk. lia. }
  destruct Hp as (Hre1 & Hi1 & Hj1 & Hj10 & Hji & Hle1 & Hge1 & (xi & Hxi & Hxiv)).
  pose proof Hre1 as (Hl1 & _ & Hout1 & _).
  assert (Hv1 : rd a1 n = Ok v) by (rewrite Hout1 by lia; exact Hv).
  destruct (swap_rearranged a1 i1 n a2 m n Hsw ltac:(lia) ltac:(lia))
    as (Hre2 & (x & y & Hx & Hy & Hx' & Hy') & Hother).
  assert (x = xi) by congruence. assert (y = v) by congruence. subst x y.
  pose proof Hre2 as (Hl2 & _).
  assert (Hre02 : rearranged a a2 m n).
  { eapply rearranged_trans; [| exact Hre2].
    eapply rearranged_widen; [exact Hre1 | lia | lia]. }
  assert (HA : cells_le a2 m i1 v).
  { intros k z Hk Hz. destruct (Z.eq_dec k i1) as [-> | Hne].
    - assert (z = v) by congruence. lia.
    - rewrite Hother in Hz by lia. apply (Hle1 k z); [lia | exact Hz]. }
  assert (HB : cells_ge a2 (j1 + 1) n v).
  { intros k z Hk Hz. destruct (Z.eq_dec k i1) as [-> | Hne].
    - assert (z = v) by congruence. lia.
    - destruct (Z.eq_dec k n) as [-> | Hnn].
      + assert (z = xi) by congruence. lia.
      + rewrite Hother in Hz by lia. apply (Hge1 k z); [lia | exact Hz]. }
  rewrite as_int_small in Hleft by lia.
  apply IH in Hleft; try lia.
  2:{ destruct Hguard as [-> | (y0 & Hy0 & Hge0)]; [left; reflexivity | right].
      pose proof Hre02 as (_ & _ & Hout02 & _).
      exists y0. split; [rewrite Hout02 by lia; exact Hy0 |].
      pose proof (cells_ge_rearranged a a2 m n m n y0 Hge0 Hre02 ltac:(lia)) as Hge2.
      intros k z Hk Hz. apply (Hge2 k z); [lia | exact Hz]. }
  destruct Hleft as (Hre3 & Hs3). pose proof Hre3 as (Hl3 & _).
  pose proof (cells_le_rearranged a2 a3 m i1 m j1 v HA Hre3 ltac:(lia)) as HA3.
  pose proof (cells_ge_rearranged a2 a3 (j1 + 1) n m j1 v HB Hre3 ltac:(lia)) as HB3.
  rewrite as_ulong_succ, as_int_small in H by lia.
  apply IH in H; try lia.
  2:{ right. destruct (rd_in_range a3 i1) as [y3 Hy3]; [lia |].
      exists y3. replace (i1 + 1 - 1) with i1 by lia. split; [exact Hy3 |].
      pose proof (HA3 i1 y3 ltac:(lia) Hy3).
      intros k z Hk Hz. pose proof (HB3 k z ltac:(lia) Hz). lia. }
  destruct H as (Hre4 & Hs4).
  split.
  - eapply rearranged_trans; [exact Hre02 |].
    eapply rearranged_trans;
      [eapply rearranged_widen; [exact Hre3 | lia | lia]
      |eapply rearranged_widen; [exact Hre4 | lia | lia]].
  - apply (sorted_cells_join a' m n i1 j1 v).
    + eapply sorted_cells_outside; [exact Hs3 | exact Hre4 | lia].
    + exact Hs4.
    + eapply cells_le_rearranged; [exact HA3 | exact Hre4 | lia].
    + eapply cells_ge_rearranged; [exact HB3 | exact Hre4 | lia].
    + exact Hji.
Qed.

(** ** The trimmed mean frozen when the window fills *)

Lemma lookup_sorted_StronglySorted (l : list Z) :
  (forall i j x y, (i < j)%nat -> l !! i = Some x -> l !! j = Some y -> x <= y) ->
  StronglySorted Z.le l.
Proof.
  induction l as [| x l IH]; intros H; constructor.
  - apply IH. intros i j y z Hij Hy Hz. apply (H (S i) (S j)); [lia | exact Hy | exact Hz].
  - apply Forall_lookup_2. intros i y Hy. apply (H O (S i)); [lia | reflexivity | exact Hy].
Qed.

Lemma sorted_cells_Sorted (a : list Z) :
  sorted_cells a 0 (Z.of_nat (length a) - 1) -> Sorted Z.le a.
Proof.
  intros H. apply StronglySorted_Sorted, lookup_sorted_StronglySorted.
  intros i j x y Hij Hx Hy.
  pose proof (lookup_lt_Some _ _ _ Hy) as Hj.
  apply (H (Z.of_nat i) (Z.of_nat j)); try lia; apply rd_Ok; rewrite Nat2Z.id; auto with lia.
Qed.

(** A sort that rearranges a list into ascending order gives what any other
    sort gives. *)
Lemma sorted_rearranged_merge_sort (a a' : list Z) :
  rearranged a a' 0 (Z.of_nat (length a) - 1) ->
  sorted_cells a' 0 (Z.of_nat (length a) - 1) ->
  a' = merge_sort Z.le a.
Proof.
  intros (Hl & Hp & _) Hs. rewrite <- Hl in Hs.
  apply (Sorted_unique Z.le).
  - apply sorted_cells_Sorted, Hs.
  - apply Sorted_merge_sort. intros x y. apply Z.le_ge_cases.
  - rewrite merge_sort_Permutation. exact Hp.
Qed.

Lemma as_ulong_add_l u w : as_ulong (as_ulong u + w) = as_ulong (u + w).
Proof. unfold as_ulong, wrap. apply Z.add_mod_idemp_l. discriminate. Qed.

Lemma cal_sum_loop_sum l n :
  forall i s s',
    0 <= i -> is_ulong (fst s) ->
    for_loop n i (cal_sum_step l) s = Ok s' ->
    fst s' = as_ulong (fst s + sum_Z (take n (drop (Z.to_nat i) l))).
Proof.
  induction n as [| n IH]; intros i s s' Hi Hs H.
  - injection H as <-. cbn [take sum_Z foldr]. rewrite Z.add_0_r.
    symmetry. apply as_ulong_small. exact Hs.
  - cbn [for_loop] in H. apply bind_Ok in H as (s1 & Hs1 & H).
    unfold cal_sum_step in Hs1. apply bind_Ok in Hs1 as (x & Hx & [= <-]).
    apply IH in H; [| lia | cbn [fst]; apply as_ulong_range].
    cbn [fst] in H. rewrite H, as_ulong_add_l.
    apply rd_Ok in Hx as [_ Hx].
    rewrite (drop_S l x (Z.to_nat i)) by exact Hx.
    replace (Z.to_nat (i + 1)) with (S (Z.to_nat i)) by lia.
    cbn [take sum_Z foldr]. rewrite Z.add_assoc. reflexivity.
Qed.

(** The call of [cal_stop] that fills the window, where [cal_sort] stays
    inside [cal_list]: the window is left sorted, the counter passes
    [TP_TIMER_CAL], and the correction frozen is the sum, modulo 2^64, of the
    samples of the sorted window from [trim_lo] up to [trim_hi], divided by
    their number.  Where that sum does not wrap, this is the trimmed mean. *)
Lemma cal_stop_trimmed_mean usec st st' :
  cal_wf st -> cal_count st = TP_TIMER_CAL - 1 -> cal_mean st = 0 ->
  cal_stop usec st = Ok st' ->
  let window :=
    <[Z.to_nat (TP_TIMER_CAL - 1) := as_ulong (usec - cal_usec st)]> (cal_list st) in
  let kept :=
    take (Z.to_nat (trim_hi - trim_lo))
         (drop (Z.to_nat trim_lo) (merge_sort Z.le window)) in
  cal_list st' = merge_sort Z.le window /\
  cal_count st' = TP_TIMER_CAL + 1 /\
  cal_mean st' = as_ulong (sum_Z kept) / 90 /\
  (0 <= sum_Z kept < 2 ^ 64 -> cal_mean st' = trimmed_mean window).
Proof.
  intros [Hlen Hc] Hcount Hmean H. cbv zeta.
  apply cal_stop_inv in H as [[Hge _] | (_ & l & Hl & H)]; [unfold TP_TIMER_CAL in *; lia |].
  apply wr_Ok in Hl as [Hr Hl]. rewrite Hcount in Hl. rewrite <- Hl.
  cbv zeta in H. rewrite Hcount in H. unfold TP_TIMER_CAL in *.
  change (as_int (100 - 1 + 1)) with 100 in H.
  destruct H as [[Hne _] | (_ & l' & mean & count & Hsort & Hsum & _ & ->)]; [lia |].
  assert (Hll : Z.of_nat (length l) = 100) by (rewrite Hl, length_insert; exact Hlen).
  apply cal_sort_spec in Hsort; [| lia | lia | lia | left; reflexivity].
  destruct Hsort as (Hre & Hsorted).
  replace (100 - 1) with (Z.of_nat (length l) - 1) in Hre, Hsorted by lia.
  pose proof (sorted_rearranged_merge_sort l l' Hre Hsorted) as Hl'.
  change (Z.to_nat (trim_hi - trim_lo)) with 90%nat in *.
  pose proof Hsum as Hcnt. apply cal_sum_loop_count in Hcnt; [| cbn [snd]; lia ..].
  pose proof Hsum as Hmn.
  apply cal_sum_loop_sum in Hmn;
    [| rewrite trim_lo_eq; lia | cbn [fst]; rewrite Hmean; unfold is_ulong; lia].
  cbn [fst snd] in Hcnt, Hmn. rewrite Hmean, Z.add_0_l in Hmn.
  change (Z.to_nat (trim_hi - trim_lo)) with 90%nat in *.
  change (0 + Z.of_nat 90) with 90 in Hcnt. subst count mean.
  change (as_ulong 90) with 90. kernel_simpl. rewrite <- Hl'.
  split; [reflexivity |]. split; [reflexivity |]. split; [reflexivity |].
  intros Hfit. rewrite as_ulong_small by exact Hfit.
  unfold trimmed_mean. cbv zeta.
  change (Z.to_nat (trim_hi - trim_lo)) with 90%nat. rewrite <- Hl'.
  rewrite length_take, length_drop.
  destruct Hre as (Hlen' & _).
  replace (length l') with 100%nat by lia.
  change (Z.to_nat trim_lo) with 5%nat. reflexivity.
Qed.

(** ** The timestamp after the correction *)

Lemma as_long_small x : - 2 ^ 63 <= x < 2 ^ 63 -> as_long x = x.
Proof.
  intros H. unfold as_long, sign_wrap, wrap, BITS_PER_LONG.
  change (2 ^ (64 - 1)) with 9223372036854775808.
  change (2 ^ 64) with 18446744073709551616.
  change (2 ^ 63) with 9223372036854775808 in H.
  destruct (Z.ltb_spec (x mod 18446744073709551616) 9223372036854775808);
    Z.div_mod_to_equations; lia.
Qed.

(** After convergence, a reading whose microseconds are below the correction
    is stored with negative microseconds and the seconds of the reading. *)
Lemma tp_timer_no_borrow id seq threadnr timesrepeated st st' :
  log_wf st -> tp_timer_count st < TP_TIMER_SPACE -> converged st ->
  0 <= tv_usec (wall_clock st (ticks st)) < cal_mean st -> cal_mean st < 2 ^ 63 ->
  tp_timer id seq threadnr timesrepeated st = Ok st' ->
  exists d,
    stored st' (tp_timer_count st) d /\
    tv_sec (Data.ts d) = tv_sec (wall_clock st (ticks st)) /\
    tv_usec (Data.ts d) = tv_usec (wall_clock st (ticks st)) - cal_mean st /\
    tv_usec (Data.ts d) < 0.
Proof.
  intros Hwf Hlt Hconv Husec Hmean H. pose proof Hwf as [Hr _].
  destruct (implicit_init_space st Hwf) as (space0 & Hsp0 & Hlen).
  destruct (implicit_init_frame st) as (_ & _ & Hm & _ & Hcc & _).
  apply tp_timer_append in H as (space & st1 & d & Hsp & Hst1 & Hd & ->); [| assumption ..].
  rewrite Hsp0 in Hsp. injection Hsp as <-.
  rewrite cal_stop_converged in Hst1
    by (unfold converged, do_gettimeofday in *; kernel_simpl; rewrite Hcc; exact Hconv).
  apply Ok_inj in Hst1. subst st1. unfold do_gettimeofday in Hd. kernel_simpl.
  rewrite Hm in Hd. rewrite as_ulong_small in Hd by lia.
  rewrite as_long_small in Hd by lia.
  exists d. split.
  - eexists. kernel_simpl. split; [reflexivity |]. apply rd_insert_eq. lia.
  - subst d. cbn. repeat split; lia.
Qed.

(** C2.  Under a clock that shows microsecond 5 for the 100 readings of the
    calibration and then microsecond 3 of second 1200, the correction frozen
    is 5, and record 100 is stored and shown with seconds 1200 and
    microseconds -2: the correction is subtracted without a borrow. *)
Theorem tp_timer_usec_negative :
  exists st' line,
    appends (replicate 101 probe_call) (boot borrow_clock) = Ok st' /\
    cal_mean st' = 5 /\
    seq_show 100 st' = Ok (Some line) /\
    out_sec line = 1200 /\ out_usec line = -2.
Proof.
  exists (value_or (boot borrow_clock)
            (appends (replicate 101 probe_call) (boot borrow_clock))).
  exists (mk_line 100 1 2 3 1200 (-2) 4).
  split; [apply is_Ok_value; vm_compute; reflexivity |].
  split; [vm_compute; reflexivity |].
  split; [vm_compute; reflexivity |]. split; reflexivity.
Qed.

(** ** The scanner: reading words *)

Lemma read_word_Ok_range mem p w :
  read_word mem p = Ok w -> 0 <= p /\ p + 4 <= Z.of_nat (length mem).
Proof.
  unfold read_word. intros H.
  apply bind_Ok in H as (b0 & H0 & H). apply bind_Ok in H as (b1 & _ & H).
  apply bind_Ok in H as (b2 & _ & H). apply bind_Ok in H as (b3 & H3 & _).
  apply rd_Ok_range in H0, H3. lia.
Qed.

Lemma read_word_in_bounds mem p :
  0 <= p -> p + 4 <= Z.of_nat (length mem) -> read_word mem p = Ok (word_at mem p).
Proof.
  intros H0 H4. unfold word_at, read_word.
  destruct (rd_in_range mem p) as [b0 ->]; [lia |].
  destruct (rd_in_range mem (p + 1)) as [b1 ->]; [lia |].
  destruct (rd_in_range mem (p + 2)) as [b2 ->]; [lia |].
  destruct (rd_in_range mem (p + 3)) as [b3 ->]; [lia |].
  reflexivity.
Qed.

Lemma oob_only_read_word mem p : oob_only (read_word mem p).
Proof.
  unfold read_word. repeat (apply oob_only_bind; [auto with oob | intros ? _]).
  auto with oob.
Qed.

#[local] Hint Resolve oob_only_read_word : oob.

Lemma sentinel_words_Ok_range mem p i :
  sentinel_words mem p = Ok i -> 0 <= p /\ p + 4 <= Z.of_nat (length mem).
Proof.
  unfold sentinel_words. intros H. apply bind_Ok in H as (w0 & H0 & _).
  eapply read_word_Ok_range, H0.
Qed.

Lemma byte_val_range b : 0 <= byte_val b < 256.
Proof. unfold byte_val. pose proof (Byte.to_N_bounded b). lia. Qed.

Lemma byte_val_ff b : byte_val b = 255 <-> b = Byte.xff.
Proof.
  split; [| intros ->; reflexivity]. unfold byte_val. intros H.
  assert (Hn : Byte.to_N b = 255%N) by lia.
  pose proof (Byte.of_to_N b) as Hb. rewrite Hn in Hb.
  change (Byte.of_N 255) with (Some Byte.xff) in Hb. congruence.
Qed.

(** A word is all ones exactly when its four bytes are [ff]. *)
Lemma read_word_all_ones mem p :
  read_word mem p = Ok ALL_ONES <->
  forall k, 0 <= k < 4 -> rd mem (p + k) = Ok Byte.xff.
Proof.
  unfold read_word, ALL_ONES. split.
  - intros H.
    destruct (rd mem p) as [b0 | e] eqn:H0; [| discriminate]. cbn [bind] in H.
    destruct (rd mem (p + 1)) as [b1 | e] eqn:H1; [| discriminate]. cbn [bind] in H.
    destruct (rd mem (p + 2)) as [b2 | e] eqn:H2; [| discriminate]. cbn [bind] in H.
    destruct (rd mem (p + 3)) as [b3 | e] eqn:H3; [| discriminate]. cbn [bind] in H.
    apply Ok_inj in H.
    pose proof (byte_val_range b0). pose proof (byte_val_range b1).
    pose proof (byte_val_range b2). pose proof (byte_val_range b3).
    assert (Hv : byte_val b0 = 255 /\ byte_val b1 = 255 /\
                 byte_val b2 = 255 /\ byte_val b3 = 255) by lia.
    destruct Hv as (V0 & V1 & V2 & V3).
    apply byte_val_ff in V0, V1, V2, V3. subst.
    intros k Hk.
    assert (Hc : k = 0 \/ k = 1 \/ k = 2 \/ k = 3) by lia.
    destruct Hc as [-> | [-> | [-> | ->]]]; [rewrite Z.add_0_r | | |]; assumption.
  - intros H.
    pose proof (H 0 ltac:(lia)) as H0. rewrite Z.add_0_r in H0.
    rewrite H0, (H 1 ltac:(lia)), (H 2 ltac:(lia)), (H 3 ltac:(lia)).
    reflexivity.
Qed.

(** The sentinel is what makes the loop over the two words run to its end. *)
Lemma sentinel_at_words mem p :
  sentinel_at mem p <-> sentinel_words mem p = Ok 2.
Proof.
  unfold sentinel_at, sentinel_words. split.
  - intros H.
    assert (H0 : read_word mem p = Ok ALL_ONES).
    { apply read_word_all_ones. intros k Hk. apply H. lia. }
    assert (H1 : read_word mem (p + 4) = Ok ALL_ONES).
    { apply read_word_all_ones. intros k Hk.
      replace (p + 4 + k) with (p + (4 + k)) by lia. apply H. lia. }
    rewrite H0. cbn [bind]. rewrite Z.eqb_refl. cbn [negb].
    rewrite H1. cbn [bind]. rewrite Z.eqb_refl. reflexivity.
  - intros H.
    destruct (read_word mem p) as [w0 | e] eqn:H0; [| discriminate]. cbn [bind] in H.
    destruct (Z.eqb_spec w0 ALL_ONES) as [-> | Hne]; [| discriminate]. cbn [negb] in H.
    destruct (read_word mem (p + 4)) as [w1 | e] eqn:H1; [| discriminate].
    cbn [bind] in H.
    destruct (Z.eqb_spec w1 ALL_ONES) as [-> | Hne]; [| discriminate].
    intros k Hk. destruct (Z.lt_ge_cases k 4).
    + apply (proj1 (read_word_all_ones mem p) H0). lia.
    + replace (p + k) with (p + 4 + (k - 4)) by lia.
      apply (proj1 (read_word_all_ones mem (p + 4)) H1). lia.
Qed.

(** Its absence is what makes that loop break at the first or at the second
    word. *)
Lemma no_sentinel_at_words mem p :
  no_sentinel_at mem p <->
  sentinel_words mem p = Ok 0 \/ sentinel_words mem p = Ok 1.
Proof.
  unfold no_sentinel_at, sentinel_words. split.
  - intros (w0 & -> & H). cbn [bind].
    destruct (Z.eqb_spec w0 ALL_ONES) as [-> | Hne]; cbn [negb]; [| left; reflexivity].
    destruct H as [H | (w1 & -> & H)]; [congruence |]. cbn [bind].
    destruct (Z.eqb_spec w1 ALL_ONES) as [-> | Hne]; [congruence |].
    right. reflexivity.
  - intros H.
    destruct (read_word mem p) as [w0 | e] eqn:H0;
      [| destruct H; discriminate].
    cbn [bind] in H. exists w0. split; [reflexivity |].
    destruct (Z.eqb_spec w0 ALL_ONES) as [-> | Hne]; [| left; exact Hne].
    cbn [negb] in H. right.
    destruct (read_word mem (p + 4)) as [w1 | e] eqn:H1;
      [| destruct H; discriminate].
    cbn [bind] in H. exists w1. split; [reflexivity |].
    destruct (Z.eqb_spec w1 ALL_ONES) as [-> | Hne]; [| exact Hne].
    destruct H; discriminate.
Qed.

Lemma no_sentinel_at_range mem p :
  no_sentinel_at mem p -> 0 <= p /\ p + 4 <= Z.of_nat (length mem).
Proof.
  intros H. apply no_sentinel_at_words in H.
  destruct H as [H | H]; eapply sentinel_words_Ok_range, H.
Qed.

(** Nowhere is there a sentinel and evidence of its absence. *)
Lemma no_sentinel_at_not mem p : no_sentinel_at mem p -> ~ sentinel_at mem p.
Proof.
  intros Hno Hat. apply no_sentinel_at_words in Hno. apply sentinel_at_words in Hat.
  destruct Hno as [H | H]; congruence.
Qed.

Lemma oob_only_sentinel_words mem p : oob_only (sentinel_words mem p).
Proof.
  unfold sentinel_words. apply oob_only_bind; [auto with oob |]. intros w0 _.
  destruct (negb (w0 =? ALL_ONES)); [auto with oob |].
  apply oob_only_bind; [auto with oob |]. intros w1 _.
  destruct (negb (w1 =? ALL_ONES)); auto with oob.
Qed.

(** ** The scanner: the search for the sentinel *)

Lemma find_sentinel_found fuel mem tail p :
  forall data,
    data <= p -> p = data \/ p <= tail ->
    (forall r, data <= r < p -> no_sentinel_at mem r) ->
    sentinel_at mem p ->
    p - data < Z.of_nat fuel ->
    find_sentinel fuel mem data tail = Ok (Some p).
Proof.
  induction fuel as [| fuel IH]; intros data Hle Htail Hno Hat Hf; [lia |].
  cbn [find_sentinel]. destruct (Z.eq_dec data p) as [-> | Hne].
  - apply sentinel_at_words in Hat. rewrite Hat. reflexivity.
  - assert (Hi : exists i, sentinel_words mem data = Ok i /\ (i =? 2) = false).
    { destruct (proj1 (no_sentinel_at_words _ _) (Hno data ltac:(lia))) as [H | H];
        rewrite H; eauto. }
    destruct Hi as (i & -> & Hi). cbn [bind]. rewrite Hi.
    destruct (Z.ltb_spec tail (data + 1)); [lia |].
    apply IH; [lia | right; lia | intros r Hr; apply Hno; lia | exact Hat | lia].
Qed.

Lemma find_sentinel_none fuel mem tail :
  forall data,
    (forall r, data <= r <= Z.max data tail -> no_sentinel_at mem r) ->
    Z.max data tail - data < Z.of_nat fuel ->
    find_sentinel fuel mem data tail = Ok None.
Proof.
  induction fuel as [| fuel IH]; intros data Hno Hf; [lia |].
  cbn [find_sentinel].
  assert (Hi : exists i, sentinel_words mem data = Ok i /\ (i =? 2) = false).
  { destruct (proj1 (no_sentinel_at_words _ _) (Hno data ltac:(lia))) as [H | H];
      rewrite H; eauto. }
  destruct Hi as (i & -> & Hi). cbn [bind]. rewrite Hi.
  destruct (Z.ltb_spec tail (data + 1)); [reflexivity |].
  apply IH; [intros r Hr; apply Hno; lia | lia].
Qed.

(** When the data end where the memory object ends, the search cannot leave
    through [return]: it finds a sentinel or reads past the end. *)
Lemma find_sentinel_exact_buffer fuel mem :
  forall data,
    data <= Z.of_nat (length mem) ->
    find_sentinel fuel mem data (Z.of_nat (length mem)) <> Ok None.
Proof.
  induction fuel as [| fuel IH]; intros data Hd; [discriminate |].
  cbn [find_sentinel].
  destruct (sentinel_words mem data) as [i | e] eqn:Hi; [| discriminate].
  apply sentinel_words_Ok_range in Hi. cbn [bind].
  destruct (i =? 2); [discriminate |].
  destruct (Z.ltb_spec (Z.of_nat (length mem)) (data + 1)); [lia |].
  apply IH. lia.
Qed.

Lemma find_sentinel_oob_only fuel mem tail :
  forall data,
    Z.of_nat (length mem) - data < Z.of_nat fuel -> (0 < fuel)%nat ->
    oob_only (find_sentinel fuel mem data tail).
Proof.
  induction fuel as [| fuel IH]; intros data Hf Hpos; [lia |].
  cbn [find_sentinel]. apply oob_only_bind; [apply oob_only_sentinel_words |].
  intros i Hi. apply sentinel_words_Ok_range in Hi.
  destruct (i =? 2); [auto with oob |].
  destruct (tail <? data + 1); [auto with oob |].
  apply IH; lia.
Qed.

(** ** The scanner: the extent of the sentinel *)

Lemma skip_sentinel_step fuel mem data :
  skip_sentinel (S fuel) mem data =
  let* i := sentinel_words mem data in
  if i =? 2 then skip_sentinel fuel mem (data + 1) else Ok data.
Proof.
  cbn [skip_sentinel]. unfold sentinel_words.
  destruct (read_word mem data) as [w0 | e]; [| reflexivity]. cbn [bind].
  destruct (w0 =? ALL_ONES); [| reflexivity]. cbn [negb].
  destruct (read_word mem (data + 4)) as [w1 | e]; [| reflexivity]. cbn [bind].
  destruct (w1 =? ALL_ONES); reflexivity.
Qed.

Lemma skip_sentinel_extent fuel mem q :
  forall p,
    p <= q + 1 ->
    (forall r, p <= r <= q -> sentinel_at mem r) ->
    no_sentinel_at mem (q + 1) ->
    q + 1 - p < Z.of_nat fuel ->
    skip_sentinel fuel mem p = Ok (q + 1).
Proof.
  induction fuel as [| fuel IH]; intros p Hle Hat Hno Hf; [lia |].
  rewrite skip_sentinel_step. destruct (Z.eq_dec p (q + 1)) as [-> | Hne].
  - apply no_sentinel_at_words in Hno. destruct Hno as [H | H]; rewrite H; reflexivity.
  - rewrite (proj1 (sentinel_at_words _ _) (Hat p ltac:(lia))).
    cbn [bind]. change (2 =? 2) with true. cbv iota.
    apply IH; [lia | intros r Hr; apply Hat; lia | exact Hno | lia].
Qed.

Lemma skip_sentinel_oob_only fuel mem :
  forall data,
    Z.of_nat (length mem) - data < Z.of_nat fuel -> (0 < fuel)%nat ->
    oob_only (skip_sentinel fuel mem data).
Proof.
  induction fuel as [| fuel IH]; intros data Hf Hpos; [lia |].
  rewrite skip_sentinel_step. apply oob_only_bind; [apply oob_only_sentinel_words |].
  intros i Hi. apply sentinel_words_Ok_range in Hi.
  destruct (i =? 2); [| auto with oob]. apply IH; lia.
Qed.

(** ** The scanner: counting the sequence numbers *)

Lemma groups_zero p tail : tail - 8 < p -> groups p tail = O.
Proof.
  intros H. unfold groups.
  assert ((tail - 8 - p) / 16 + 1 <= 0) by (Z.div_mod_to_equations; lia).
  lia.
Qed.

Lemma groups_succ p tail : p <= tail - 8 -> groups p tail = S (groups (p + 16) tail).
Proof.
  intros H. unfold groups.
  replace (tail - 8 - (p + 16)) with (tail - 8 - p + (-1) * 16) by lia.
  rewrite Z.div_add by lia.
  assert (0 <= (tail - 8 - p) / 16) by (apply Z.div_pos; lia).
  lia.
Qed.

Lemma groups_bound p tail len :
  0 <= p -> tail <= len -> 0 <= len -> Z.of_nat (groups p tail) <= len.
Proof.
  intros Hp Ht Hl. destruct (Z.lt_ge_cases (tail - 8) p) as [H | H].
  - rewrite groups_zero by lia. lia.
  - unfold groups.
    assert (0 <= (tail - 8 - p) / 16 <= tail - 8 - p)
      by (split; [apply Z.div_pos; lia | Z.div_mod_to_equations; lia]).
    lia.
Qed.

Lemma rle_from_last_count ps :
  forall cur count,
    0 <= count ->
    0 <= snd (snd (rle_from cur count ps)) <= count + Z.of_nat (length ps).
Proof.
  induction ps as [| p ps IH]; intros cur count Hc; cbn [rle_from].
  - simpl. lia.
  - destruct (same_pair p cur).
    + specialize (IH cur (count + 1) ltac:(lia)). simpl length. lia.
    + specialize (IH p 1 ltac:(lia)).
      destruct (rle_from p 1 ps) as [closed last]. simpl in *. lia.
Qed.

Lemma walk_length n mem p : length (walk n mem p) = n.
Proof. revert p. induction n as [| n IH]; intros p; simpl; [| rewrite IH]; reflexivity. Qed.

(** The loop of [tp_timer_data] computes the closed runs and the open run of
    the encoding, and hands over the closed runs in order. *)
Lemma count_seq_rle id mem tail :
  tail <= Z.of_nat (length mem) ->
  forall n fuel p lastSeq lastThreadnr count tr,
    groups p tail = n -> (n < fuel)%nat -> 0 <= p ->
    0 <= count -> count + Z.of_nat n < 2 ^ 15 ->
    count_seq record_call fuel id mem p tail lastSeq lastThreadnr count tr =
    let r := rle_from (lastThreadnr, lastSeq) count (walk n mem p) in
    Ok (snd (fst (snd r)), fst (fst (snd r)), snd (snd r),
        tr ++ map (call_of_run id) (fst r)).
Proof.
  intros Htail. induction n as [| n IH];
    intros fuel p lastSeq lastThreadnr count tr Hn Hf Hp Hc Hb;
    (destruct fuel as [| fuel]; [lia |]); cbn [count_seq].
  - destruct (Z.leb_spec p (tail - 8)) as [Hle | Hgt].
    { rewrite groups_succ in Hn by lia. discriminate. }
    cbn. rewrite app_nil_r. reflexivity.
  - destruct (Z.leb_spec p (tail - 8)) as [Hle | Hgt];
      [| rewrite groups_zero in Hn by lia; discriminate].
    rewrite groups_succ in Hn by lia. injection Hn as Hn.
    rewrite (read_word_in_bounds mem (p + 4)) by lia.
    rewrite (read_word_in_bounds mem p) by lia. cbn [bind].
    cbn [walk rle_from]. unfold same_pair, pair_at. cbn [fst snd].
    change (2 ^ 15) with 32768 in *.
    destruct (Z.eqb_spec (word_at mem (p + 4)) lastSeq) as [Es | Es]; cbn [negb bind].
    + destruct (Z.eqb_spec (word_at mem p) lastThreadnr) as [Et | Et];
        cbn [negb bind andb].
      * rewrite as_int_small by lia. rewrite Es, Et.
        rewrite (IH fuel (p + 16)) by lia. reflexivity.
      * destruct (Z.eqb_spec count 0) as [-> | Hc0]; cbn [negb bind].
        -- change (as_int (0 + 1)) with 1. rewrite (IH fuel (p + 16)) by lia.
           destruct (rle_from (word_at mem p, word_at mem (p + 4)) 1 (walk n mem (p + 16))).
           reflexivity.
        -- unfold record_call at 1. cbn [bind]. change (as_int (0 + 1)) with 1.
           rewrite (IH fuel (p + 16)) by lia.
           destruct (rle_from (word_at mem p, word_at mem (p + 4)) 1 (walk n mem (p + 16))).
           cbn [fst snd]. rewrite as_short_small by (unfold is_short; lia).
           rewrite <- app_assoc. reflexivity.
    + rewrite andb_false_r.
      destruct (Z.eqb_spec count 0) as [-> | Hc0]; cbn [negb bind].
      * change (as_int (0 + 1)) with 1. rewrite (IH fuel (p + 16)) by lia.
        destruct (rle_from (word_at mem p, word_at mem (p + 4)) 1 (walk n mem (p + 16))).
        reflexivity.
      * unfold record_call at 1. cbn [bind]. change (as_int (0 + 1)) with 1.
        rewrite (IH fuel (p + 16)) by lia.
        destruct (rle_from (word_at mem p, word_at mem (p + 4)) 1 (walk n mem (p + 16))).
        cbn [fst snd]. rewrite as_short_small by (unfold is_short; lia).
        rewrite <- app_assoc. reflexivity.
Qed.

(** The encoding stands for the pairs it was made from. *)
Lemma same_pair_eq p q : same_pair p q = true -> p = q.
Proof.
  destruct p as [a b], q as [c d]. unfold same_pair. simpl.
  rewrite andb_true_iff, !Z.eqb_eq. intros [-> ->]. reflexivity.
Qed.

Lemma expand_rle_from ps :
  forall cur count,
    0 <= count ->
    expand (fst (rle_from cur count ps) ++ [snd (rle_from cur count ps)]) =
    replicate (Z.to_nat count) cur ++ ps.
Proof.
  unfold expand.
  induction ps as [| p ps IH]; intros cur count Hc; cbn [rle_from].
  - simpl. rewrite app_nil_r. reflexivity.
  - destruct (same_pair p cur) eqn:E.
    + apply same_pair_eq in E. subst p. rewrite IH by lia.
      replace (Z.to_nat (count + 1)) with (S (Z.to_nat count)) by lia.
      rewrite replicate_S_end, <- app_assoc. reflexivity.
    + specialize (IH p 1 ltac:(lia)).
      destruct (rle_from p 1 ps) as [closed last]. cbn [fst snd] in *.
      unfold run in *. rewrite <- app_assoc, flat_map_app, IH.
      destruct (Z.eqb_spec count 0) as [-> | Hc0]; simpl; [reflexivity |].
      rewrite app_nil_r. reflexivity.
Qed.

Lemma expand_rle ps : expand (rle ps) = ps.
Proof.
  unfold rle. pose proof (expand_rle_from ps (0, 0) 0 ltac:(lia)) as H.
  destruct (rle_from (0, 0) 0 ps) as [closed last]. exact H.
Qed.

(** ** The scanner and the function it calls *)

Lemma run_all_app {T E : Type} (f : E -> T -> result T) (xs ys : list E) (s : T) :
  run_all f (xs ++ ys) s = let* s' := run_all f xs s in run_all f ys s'.
Proof.
  revert s. induction xs as [| x xs IH]; intros s; [reflexivity |].
  simpl. destruct (f x s) as [s1 | e]; [apply IH | reflexivity].
Qed.

Section ScannerCalls.
Context {T : Type}.
Variable emit : Z -> Z -> Z -> Z -> T -> result T.

(** Whatever the function called, the loop calls it with the arguments the
    recording of its calls shows, in that order. *)
Lemma count_seq_calls fuel id mem tail :
  forall p lastSeq lastThreadnr count tr r,
    count_seq record_call fuel id mem p tail lastSeq lastThreadnr count tr = Ok r ->
    exists new,
      snd r = tr ++ new /\
      forall s,
        count_seq emit fuel id mem p tail lastSeq lastThreadnr count s =
        let* s' := run_all (run_call emit) new s in Ok (fst r, s').
Proof.
  induction fuel as [| fuel IH]; intros p lastSeq lastThreadnr count tr r H;
    [discriminate |].
  cbn [count_seq] in H. destruct (p <=? tail - 8) eqn:Hle.
  - apply bind_Ok in H as (w1 & Hw1 & H). apply bind_Ok in H as (differs & Hd & H).
    apply bind_Ok in H as ([tr1 count1] & H1 & H).
    apply bind_Ok in H as (lastSeq' & Hs & H). apply bind_Ok in H as (lastThr' & Ht & H).
    apply IH in H as (new & Hnew & Heq).
    assert (Hstep : forall s,
      count_seq emit (S fuel) id mem p tail lastSeq lastThreadnr count s =
      let* (s, count) :=
        if differs then
          let* s := if negb (count =? 0)
                    then emit id lastSeq lastThreadnr (as_short count) s
                    else Ok s in
          Ok (s, 0)
        else Ok (s, count) in
      count_seq emit fuel id mem (p + 16) tail lastSeq' lastThr' (as_int (count + 1)) s).
    { assert (lastSeq' = w1) by congruence. subst lastSeq'.
      intros s. cbn [count_seq]. rewrite Hle, Hw1. cbn [bind]. rewrite Hd. cbn [bind].
      destruct differs; [destruct (negb (count =? 0));
                          [destruct (emit id lastSeq lastThreadnr (as_short count) s) |] |];
        cbn [bind]; rewrite ?Ht; reflexivity. }
    destruct differs.
    + apply bind_Ok in H1 as (tr2 & H2 & [= <- <-]).
      destruct (negb (count =? 0)).
      * unfold record_call in H2. injection H2 as <-.
        eexists (_ :: new). split; [rewrite Hnew, <- app_assoc; reflexivity |].
        intros s. rewrite Hstep. cbn [run_all]. unfold run_call at 1.
        cbn [c_id c_seq c_threadnr c_timesrepeated].
        destruct (emit id lastSeq lastThreadnr (as_short count) s) as [s1 | e];
          [| reflexivity].
        cbn [bind]. apply Heq.
      * injection H2 as <-. exists new. split; [exact Hnew |].
        intros s. rewrite Hstep. cbn [bind]. apply Heq.
    + injection H1 as <- <-. exists new. split; [exact Hnew |].
      intros s. rewrite Hstep. cbn [bind]. apply Heq.
  - injection H as <-. exists []. split; [rewrite app_nil_r; reflexivity |].
    intros s. cbn [count_seq]. rewrite Hle. reflexivity.
Qed.

Lemma scan_calls id mem data tail cs :
  emissions id mem data tail = Ok cs ->
  forall s, scan emit id mem data tail s = run_all (run_call emit) cs s.
Proof.
  unfold emissions, scan. cbv zeta. intros H s.
  apply bind_Ok in H as (found & Hf & H). rewrite Hf. cbn [bind].
  destruct found as [data' |]; [| injection H as <-; reflexivity].
  apply bind_Ok in H as (data'' & Hsk & H). rewrite Hsk. cbn [bind].
  apply bind_Ok in H as ([[[lastSeq lastThreadnr] count] tr] & Hc & H).
  apply count_seq_calls in Hc as (new & Hnew & Heq). cbn [fst snd] in *.
  simpl in Hnew. subst tr. rewrite Heq.
  unfold record_call in H. injection H as <-.
  rewrite run_all_app. destruct (run_all (run_call emit) new s) as [s1 | e];
    [| reflexivity].
  cbn [bind run_all]. unfold run_call. cbn [c_id c_seq c_threadnr c_timesrepeated].
  destruct (emit id lastSeq lastThreadnr (as_short count) s1); reflexivity.
Qed.
End ScannerCalls.

(** [tp_timer_data] is [cal_start] followed by the calls the scan makes. *)
Lemma tp_timer_data_calls id mem data tail cs st :
  emissions id mem data tail = Ok cs ->
  tp_timer_data id mem data tail st = appends cs (cal_start st).
Proof. intros H. unfold tp_timer_data, appends. apply scan_calls, H. Qed.

(** ** The scanner never runs out of fuel *)

Section ScannerFuel.
Context {T : Type}.
Variable emit : Z -> Z -> Z -> Z -> T -> result T.
Variable P : T -> Prop.
Hypothesis emit_keeps :
  forall id seq threadnr timesrepeated s s',
    P s -> emit id seq threadnr timesrepeated s = Ok s' -> P s'.
Hypothesis emit_oob_only :
  forall id seq threadnr timesrepeated s,
    P s -> oob_only (emit id seq threadnr timesrepeated s).

Lemma count_seq_oob_only fuel id mem tail :
  forall intdata lastSeq lastThreadnr count s,
    P s -> (0 < fuel)%nat ->
    Z.of_nat (length mem) - intdata + 16 <= 16 * Z.of_nat fuel ->
    oob_only (count_seq emit fuel id mem intdata tail lastSeq lastThreadnr count s).
Proof using emit_keeps emit_oob_only.
  induction fuel as [| fuel IH]; intros intdata lastSeq lastThreadnr count s Hs Hpos Hf;
    [lia |].
  cbn [count_seq]. destruct (intdata <=? tail - 8); [| auto with oob].
  apply oob_only_bind; [auto with oob |]. intros w1 Hw1.
  apply read_word_Ok_range in Hw1.
  apply oob_only_bind.
  { destruct (negb (w1 =? lastSeq)); [auto with oob |].
    apply oob_only_bind; auto with oob. }
  intros differs _.
  apply oob_only_bind.
  { destruct differs; [| auto with oob].
    apply oob_only_bind; [| auto with oob].
    destruct (negb (count =? 0)); [apply emit_oob_only, Hs | auto with oob]. }
  intros [s1 count1] H1.
  assert (Hs1 : P s1).
  { destruct differs; [| injection H1 as <- _; exact Hs].
    apply bind_Ok in H1 as (s2 & H2 & [= <- _]).
    destruct (negb (count =? 0)); [eapply emit_keeps; eauto | injection H2 as <-; exact Hs]. }
  apply oob_only_bind; [auto with oob |]. intros lastSeq' _.
  apply oob_only_bind; [auto with oob |]. intros lastThreadnr' _.
  apply IH; [exact Hs1 | lia | lia].
Qed.

Lemma scan_oob_only id mem data tail s :
  P s -> oob_only (scan emit id mem data tail s).
Proof using emit_keeps emit_oob_only.
  intros Hs. unfold scan. cbv zeta.
  apply oob_only_bind.
  { destruct (Z.lt_ge_cases data 0) as [Hneg | Hpos].
    - cbn [find_sentinel]. apply oob_only_bind; [apply oob_only_sentinel_words |].
      intros i Hi. apply sentinel_words_Ok_range in Hi. lia.
    - apply find_sentinel_oob_only; lia. }
  intros [data' |] Hfound; [| auto with oob].
  apply oob_only_bind.
  { destruct (Z.lt_ge_cases data' 0) as [Hneg | Hpos].
    - rewrite skip_sentinel_step. apply oob_only_bind; [apply oob_only_sentinel_words |].
      intros i Hi. apply sentinel_words_Ok_range in Hi. lia.
    - apply skip_sentinel_oob_only; lia. }
  intros data'' Hskip.
  assert (Hd : 0 <= data'').
  { destruct (Z.lt_ge_cases data'' 0) as [Hneg | Hpos]; [| exact Hpos].
    exfalso. clear Hfound. revert data' Hskip.
    induction (S (length mem)) as [| fuel IH]; intros data' Hskip; [discriminate |].
    rewrite skip_sentinel_step in Hskip. apply bind_Ok in Hskip as (i & Hi & Hskip).
    apply sentinel_words_Ok_range in Hi.
    destruct (i =? 2); [eapply IH; eauto |]. injection Hskip as <-. lia. }
  apply oob_only_bind.
  { apply count_seq_oob_only; [exact Hs | lia | lia]. }
  intros [[[lastSeq lastThreadnr] count] s1] Hc.
  apply emit_oob_only.
  apply (count_seq_keeps emit P emit_keeps) in Hc; [exact Hc | exact Hs].
Qed.
End ScannerFuel.

Lemma emissions_oob_only id mem data tail : oob_only (emissions id mem data tail).
Proof.
  unfold emissions. apply (scan_oob_only record_call (fun _ => True)); [| | exact I].
  - intros. exact I.
  - intros. unfold record_call. auto with oob.
Qed.

(** [tp_timer_data] can fail through an access out of bounds only. *)
Lemma tp_timer_data_oob_only id mem data tail st :
  kernel_inv st -> oob_only (tp_timer_data id mem data tail st).
Proof.
  intros Hinv. unfold tp_timer_data.
  apply (scan_oob_only tp_timer kernel_inv); [| | apply cal_start_inv, Hinv].
  - intros. eapply tp_timer_inv; eauto.
  - intros id' seq thr rep s (Hwf & Hcal & _). apply tp_timer_oob_only; assumption.
Qed.

(** ** The scanner: what it emits *)

(** A buffer in which the search finds no sentinel at any position it
    visits: nothing is emitted, and [tp_timer_data] does what [cal_start]
    does. *)
Lemma tp_timer_data_malformed id mem data tail :
  (forall r, data <= r <= Z.max data tail -> no_sentinel_at mem r) ->
  emissions id mem data tail = Ok [] /\
  forall st, tp_timer_data id mem data tail st = Ok (cal_start st).
Proof.
  intros Hno.
  assert (H : emissions id mem data tail = Ok []).
  { unfold emissions, scan. cbv zeta.
    pose proof (no_sentinel_at_range _ _ (Hno data ltac:(lia))).
    pose proof (no_sentinel_at_range _ _ (Hno (Z.max data tail) ltac:(lia))).
    rewrite find_sentinel_none; [reflexivity | exact Hno | lia]. }
  split; [exact H |]. intros st. rewrite (tp_timer_data_calls _ _ _ _ _ _ H).
  reflexivity.
Qed.

(** C5.  A buffer whose first sentinel, seen from [data], starts at [p] no
    later than [tail], and whose run of sentinel positions reaches from [p]
    to [q]: the payload starts at [q + 8], and the calls of [tp_timer] the
    scanner makes are exactly the run-length encoding of the pairs walked
    from there, one call per run with the sequence number, the thread number
    and the count of the run.  The walk is taken to stay inside the memory
    object and to cover fewer than 2^15 field groups, so that every count
    fits the [short] parameter.  The encoding is the one of the
    specification ([rle]); it stands for the walked pairs ([expand]), and
    [tp_timer_data] performs its calls after [cal_start]. *)
Theorem scanner_emits_rle (id : Z) (mem : memory) (data tail p q : Z) :
  data <= p -> p = data \/ p <= tail ->
  (forall r, data <= r < p -> no_sentinel_at mem r) ->
  p <= q ->
  (forall r, p <= r <= q -> sentinel_at mem r) ->
  no_sentinel_at mem (q + 1) ->
  tail <= Z.of_nat (length mem) ->
  Z.of_nat (groups (q + 8) tail) < 2 ^ 15 ->
  emissions id mem data tail =
    Ok (map (call_of_run id) (rle (walked mem (q + 8) tail))) /\
  expand (rle (walked mem (q + 8) tail)) = walked mem (q + 8) tail /\
  forall st,
    tp_timer_data id mem data tail st =
    appends (map (call_of_run id) (rle (walked mem (q + 8) tail))) (cal_start st).
Proof.
  intros Hle Htail Hno Hpq Hat Hend Hmem Hgroups.
  assert (Hp : sentinel_at mem p) by (apply Hat; lia).
  pose proof (sentinel_words_Ok_range _ _ _ (proj1 (sentinel_at_words _ _) Hp)) as Hpr.
  pose proof (no_sentinel_at_range _ _ Hend) as Hqr.
  assert (Hd : 0 <= data).
  { destruct (Z.eq_dec data p) as [-> | Hne]; [lia |].
    apply (no_sentinel_at_range mem data), Hno. lia. }
  assert (H : emissions id mem data tail =
              Ok (map (call_of_run id) (rle (walked mem (q + 8) tail)))).
  { unfold emissions, scan. cbv zeta.
    rewrite (find_sentinel_found _ mem tail p data) by (try assumption; lia).
    cbn [bind].
    rewrite (skip_sentinel_extent _ mem q p) by (try assumption; lia).
    cbn [bind]. replace (q + 1 - 1 + 8) with (q + 8) by lia.
    pose proof (groups_bound (q + 8) tail (Z.of_nat (length mem))
                  ltac:(lia) Hmem ltac:(lia)) as Hgb.
    rewrite (count_seq_rle id mem tail Hmem (groups (q + 8) tail))
      by (try reflexivity; lia).
    cbv zeta. cbn [bind]. unfold rle, walked.
    pose proof (rle_from_last_count (walk (groups (q + 8) tail) mem (q + 8)) (0, 0) 0
                  ltac:(lia)) as Hlast.
    rewrite walk_length in Hlast.
    destruct (rle_from (0, 0) 0 (walk (groups (q + 8) tail) mem (q + 8)))
      as [closed [[thr sq] cnt]].
    cbn [fst snd] in *. unfold record_call.
    rewrite as_short_small by (unfold is_short; lia).
    rewrite map_app. reflexivity. }
  split; [exact H |]. split; [apply expand_rle |].
  intros st. apply tp_timer_data_calls, H.
Qed.

Lemma scanner_emits_rle_witness :
  emissions TPS_SOCK example_buffer 0 64 =
    Ok [mk_call TPS_SOCK 5 1 3; mk_call TPS_SOCK 6 1 1] /\
  expand [((1, 5), 3); ((1, 6), 1)] = [(1, 5); (1, 5); (1, 5); (1, 6)] /\
  forall st,
    tp_timer_data TPS_SOCK example_buffer 0 64 st =
    appends [mk_call TPS_SOCK 5 1 3; mk_call TPS_SOCK 6 1 1] (cal_start st).
Proof.
  apply (scanner_emits_rle TPS_SOCK example_buffer 0 64 0 0).
  - lia.
  - left. reflexivity.
  - intros r Hr. lia.
  - lia.
  - intros r Hr. assert (r = 0) as -> by lia.
    apply sentinel_at_words. vm_compute. reflexivity.
  - exists ALL_ONES. split; [vm_compute; reflexivity | right].
    exists 0x01ffffff. split; [vm_compute; reflexivity | discriminate].
  - vm_compute. discriminate.
  - vm_compute. reflexivity.
Defined.

(** The walk strides over field groups of 16 bytes: of pairs packed 8 bytes
    apart it sees every second one. *)
Remark packed_buffer_emissions :
  emissions TPS_SOCK packed_buffer 0 40 = Ok [mk_call TPS_SOCK 5 1 2].
Proof. vm_compute. reflexivity. Qed.

(** C6.  The data are the single byte 00 ([data = 0], [tail = 1]): no
    sentinel starts before the end boundary.  Eight bytes of ff lie behind
    it in the same memory object.  The search reads them, the scan goes on, and
    one record with sequence 0, thread 0 and count 0 is appended to the log.
    With other bytes behind the same data nothing is emitted. *)
Theorem stray_sentinel_is_logged :
  take 1 stray_sentinel = [x00] /\
  (forall p, 0 <= p < 1 -> ~ sentinel_at stray_sentinel p) /\
  sentinel_at stray_sentinel 1 /\
  emissions TPS_SOCK stray_sentinel 0 1 = Ok [mk_call TPS_SOCK 0 0 0] /\
  (exists st',
     tp_timer_data TPS_SOCK stray_sentinel 0 1 (boot (steady_clock 5)) = Ok st' /\
     tp_timer_count st' = 1 /\
     seq_show 0 st' = Ok (Some (mk_line 0 TPS_SOCK 0 0 1001 5 0))) /\
  take 1 no_stray_sentinel = [x00] /\
  emissions TPS_SOCK no_stray_sentinel 0 1 = Ok [].
Proof.
  split; [reflexivity |].
  split.
  { intros p Hp Hs. assert (p = 0) as -> by lia.
    specialize (Hs 0 ltac:(lia)). vm_compute in Hs. discriminate. }
  split; [apply sentinel_at_words; vm_compute; reflexivity |].
  split; [vm_compute; reflexivity |]. split; [| split; vm_compute; reflexivity].
  exists (value_or (boot (steady_clock 5))
            (tp_timer_data TPS_SOCK stray_sentinel 0 1 (boot (steady_clock 5)))).
  split; [apply is_Ok_value; vm_compute; reflexivity |].
  split; vm_compute; reflexivity.
Qed.

Lemma scan_find_error {T : Type} (emit : Z -> Z -> Z -> Z -> T -> result T)
      id mem data tail e s :
  find_sentinel (S (length mem)) mem data tail = Err e ->
  scan emit id mem data tail s = Err e.
Proof. intros H. unfold scan. cbv zeta. rewrite H. reflexivity. Qed.

(** C10.  The search loop reads at and beyond [tail].  Where the data fill
    the memory object to its end ([zero_buffer], eight bytes without ff,
    [tail = 8]), the search makes an access out of bounds, whatever the
    state; the loop that follows the sentinel does the same on data that
    are the sentinel alone ([bare_sentinel]).  Where the object goes on
    behind [tail], what the scanner emits depends on the bytes behind
    [tail]: two objects with the same data before [tail = 1] give
    different emissions. *)
Theorem search_reads_past_tail :
  Z.of_nat (length zero_buffer) = 8 /\
  find_sentinel (S (length zero_buffer)) zero_buffer 0 8 = Err OutOfBounds /\
  (forall id st, tp_timer_data id zero_buffer 0 8 st = Err OutOfBounds) /\
  emissions TPS_SOCK bare_sentinel 0 8 = Err OutOfBounds /\
  take 1 stray_sentinel = take 1 no_stray_sentinel /\
  emissions TPS_SOCK stray_sentinel 0 1 <> emissions TPS_SOCK no_stray_sentinel 0 1.
Proof.
  assert (H : find_sentinel (S (length zero_buffer)) zero_buffer 0 8 = Err OutOfBounds)
    by (vm_compute; reflexivity).
  split; [reflexivity |]. split; [exact H |].
  split; [intros id st; apply scan_find_error, H |].
  split; [vm_compute; reflexivity |]. split; [reflexivity |].
  vm_compute. discriminate.
Qed.

(** ** The reader: every cursor, and one reading *)

Lemma resident_length st :
  log_wf st -> Z.of_nat (length (resident st)) = tp_timer_count st.
Proof.
  intros [Hr Hs]. unfold resident. destruct (tp_timer_space st) as [space |].
  - rewrite length_take. lia.
  - simpl. lia.
Qed.

Lemma resident_lookup st i d :
  log_wf st -> 0 <= i ->
  resident st !! Z.to_nat i = Some d <-> (i < tp_timer_count st /\ stored st i d).
Proof.
  intros [Hr Hs] Hi. unfold resident, stored.
  destruct (tp_timer_space st) as [space |].
  - split.
    + intros H. apply lookup_take_Some in H as [H Hlt]. split; [lia |].
      exists space. split; [reflexivity |]. apply rd_Ok. split; [lia | exact H].
    + intros (Hlt & sp & [= <-] & Hd). apply rd_Ok in Hd as [_ Hd].
      apply lookup_take_Some. split; [exact Hd | lia].
  - split; [discriminate |]. intros (_ & sp & Hsp & _). discriminate.
Qed.

Lemma stored_below st i :
  log_wf st -> 0 <= i < tp_timer_count st -> exists d, stored st i d.
Proof.
  intros [Hr Hs] Hi. unfold stored.
  destruct (tp_timer_space st) as [space |]; [| lia].
  destruct (rd_in_range space i) as [d Hd]; [lia |]. eauto.
Qed.

(** X1.  In a reachable state [seq_show] never fails, whatever the cursor:
    for a cursor from 0 up to the count it prints the line of the record
    stored at that position, for any other cursor, negative ones included,
    it prints nothing. *)
Theorem seq_show_total (st : kernel) (v : Z) :
  reachable st -> - 2 ^ 63 <= v < 2 ^ 63 ->
  (0 <= v < tp_timer_count st ->
   exists d, stored st v d /\ seq_show v st = Ok (Some (line_of d))) /\
  (v < 0 \/ tp_timer_count st <= v -> seq_show v st = Ok None).
Proof.
  intros Hr Hv. destruct (reachable_inv st Hr) as (Hwf & _ & _).
  pose proof Hwf as [Hc _]. unfold TP_TIMER_SPACE in Hc. split.
  - intros Hin. destruct (stored_below st v Hwf Hin) as [d Hd].
    exists d. split; [exact Hd |].
    apply seq_show_stored; [exact Hin | unfold TP_TIMER_SPACE; lia | exact Hd].
  - intros Hout. apply seq_show_beyond; [exact Hv | lia | exact Hout].
Qed.

Lemma seq_show_total_witness :
  (exists d, stored after_three_calls 1 d /\
             seq_show 1 after_three_calls = Ok (Some (line_of d))) /\
  seq_show 3 after_three_calls = Ok None /\
  seq_show (-1) after_three_calls = Ok None.
Proof.
  assert (H3 : - 2 ^ 63 <= 3 < 2 ^ 63) by lia.
  assert (H1 : - 2 ^ 63 <= 1 < 2 ^ 63) by lia.
  assert (Hm : - 2 ^ 63 <= -1 < 2 ^ 63) by lia.
  split; [| split].
  - apply (seq_show_total after_three_calls 1 after_three_calls_reachable H1).
    vm_compute. split; [discriminate | reflexivity].
  - apply (seq_show_total after_three_calls 3 after_three_calls_reachable H3).
    right. vm_compute. discriminate.
  - apply (seq_show_total after_three_calls (-1) after_three_calls_reachable Hm).
    left. lia.
Defined.

Lemma seq_next_below st v :
  0 <= v < tp_timer_count st -> tp_timer_count st < 2 ^ 63 ->
  seq_next v st = Some (v + 1).
Proof.
  intros Hv Hc. unfold seq_next. rewrite as_ulong_small by lia.
  destruct (Z.leb_spec (tp_timer_count st) v); [lia |].
  f_equal. apply as_long_small. lia.
Qed.

Lemma seq_next_beyond st v :
  - 2 ^ 63 <= v < 2 ^ 63 -> 0 <= tp_timer_count st < 2 ^ 63 ->
  v < 0 \/ tp_timer_count st <= v ->
  seq_next v st = None.
Proof.
  intros Hv Hc Hout. unfold seq_next.
  assert (tp_timer_count st <= as_ulong v).
  { unfold as_ulong, wrap, BITS_PER_LONG. change (2 ^ 64) with 18446744073709551616.
    change (2 ^ 63) with 9223372036854775808 in *.
    Z.div_mod_to_equations. lia. }
  destruct (Z.leb_spec (tp_timer_count st) (as_ulong v)); [reflexivity | lia].
Qed.

Lemma seq_walk_lines st :
  log_wf st ->
  forall n fuel pos,
    Z.of_nat n = tp_timer_count st - pos -> 0 <= pos -> (n < fuel)%nat ->
    seq_walk fuel pos st = Ok (map line_of (drop (Z.to_nat pos) (resident st))).
Proof.
  intros Hwf. pose proof Hwf as [Hc _]. unfold TP_TIMER_SPACE in Hc.
  pose proof (resident_length st Hwf) as Hlen.
  induction n as [| n IH]; intros fuel pos Hn Hpos Hf;
    (destruct fuel as [| fuel]; [lia |]); cbn [seq_walk].
  - rewrite seq_show_beyond by lia. cbn [bind].
    rewrite seq_next_beyond by lia. cbn [bind].
    rewrite drop_ge by lia. reflexivity.
  - destruct (stored_below st pos Hwf ltac:(lia)) as [d Hd].
    rewrite (seq_show_stored st pos d) by (unfold TP_TIMER_SPACE; first [lia | exact Hd]).
    cbn [bind]. rewrite seq_next_below by lia.
    rewrite (IH fuel (pos + 1)) by lia. cbn [bind].
    assert (Hl : resident st !! Z.to_nat pos = Some d)
      by (apply resident_lookup; [exact Hwf | lia | split; [lia | exact Hd]]).
    rewrite (drop_S _ d (Z.to_nat pos)) by exact Hl.
    replace (Z.to_nat (pos + 1)) with (S (Z.to_nat pos)) by lia.
    reflexivity.
Qed.

Lemma seq_read_resident st pos :
  log_wf st -> 0 <= pos < 2 ^ 63 ->
  seq_read true pos st = Ok (map line_of (drop (Z.to_nat pos) (resident st))).
Proof.
  intros Hwf Hpos.
  pose proof Hwf as [Hc _]. unfold TP_TIMER_SPACE in Hc.
  unfold seq_read, seq_start.
  destruct (Z.le_gt_cases pos (tp_timer_count st)) as [Hle | Hgt].
  - apply (seq_walk_lines st Hwf (Z.to_nat (tp_timer_count st - pos))); lia.
  - cbn [seq_walk]. rewrite seq_show_beyond by lia. cbn [bind].
    rewrite seq_next_beyond by lia. cbn [bind].
    rewrite drop_ge; [reflexivity |]. pose proof (resident_length st Hwf). lia.
Qed.

(** X2.  One reading of the proc file that starts at position [pos] of a
    reachable state prints the lines of the records from [pos] on, each
    once and in the order of their positions, and then ends; when [kmalloc]
    fails in [seq_start] it prints nothing. *)
Theorem seq_read_lists_records (st : kernel) (pos : Z) :
  reachable st -> 0 <= pos < 2 ^ 63 ->
  seq_read true pos st = Ok (map line_of (drop (Z.to_nat pos) (resident st))) /\
  seq_read false pos st = Ok [].
Proof.
  intros Hr Hpos. split; [| reflexivity].
  destruct (reachable_inv st Hr) as (Hwf & _ & _).
  apply seq_read_resident; assumption.
Qed.

Lemma seq_read_lists_records_witness :
  seq_read true 1 after_three_calls =
    Ok (map line_of (drop (Z.to_nat 1) (resident after_three_calls))) /\
  seq_read false 1 after_three_calls = Ok [].
Proof.
  apply (seq_read_lists_records after_three_calls 1 after_three_calls_reachable). lia.
Defined.

(** ** Invariants of the reachable states: bounds and phases *)

(** X3.  In every reachable state the count lies between 0 and
    [TP_TIMER_SPACE]; it is 0 as long as the storage has not been
    allocated; the storage, once allocated, has [TP_TIMER_SPACE] cells, and
    the calibration window has [TP_TIMER_CAL]. *)
Theorem reachable_log_bounds (st : kernel) :
  reachable st ->
  0 <= tp_timer_count st <= TP_TIMER_SPACE /\
  (tp_timer_space st = None -> tp_timer_count st = 0) /\
  (forall space, tp_timer_space st = Some space ->
                 Z.of_nat (length space) = TP_TIMER_SPACE) /\
  Z.of_nat (length (cal_list st)) = TP_TIMER_CAL.
Proof.
  intros Hr. destruct (reachable_inv st Hr) as ((Hc & Hs) & (Hl & _) & _).
  split; [exact Hc |]. split; [| split; [| exact Hl]].
  - intros Hn. rewrite Hn in Hs. exact Hs.
  - intros space Hsp. rewrite Hsp in Hs. exact Hs.
Qed.

Lemma reachable_log_bounds_witness :
  0 <= tp_timer_count after_three_calls <= TP_TIMER_SPACE /\
  (tp_timer_space after_three_calls = None -> tp_timer_count after_three_calls = 0) /\
  (forall space, tp_timer_space after_three_calls = Some space ->
                 Z.of_nat (length space) = TP_TIMER_SPACE) /\
  Z.of_nat (length (cal_list after_three_calls)) = TP_TIMER_CAL.
Proof. exact (reachable_log_bounds after_three_calls after_three_calls_reachable). Defined.

Lemma cal_stop_phase usec st st' :
  cal_phase st -> cal_stop usec st = Ok st' -> cal_phase st'.
Proof.
  intros Hp H. unfold cal_phase in *. unfold TP_TIMER_CAL in *.
  apply cal_stop_inv in H as [[_ ->] | (Hlt & l & _ & H)]; [exact Hp |].
  unfold TP_TIMER_CAL in *.
  destruct Hp as [[Hc Hm] | Hc]; [| lia].
  cbv zeta in H. rewrite as_int_small in H by lia.
  destruct H as [[Hne ->] | (He & l' & mean & count & _ & Hsum & _ & ->)]; kernel_simpl.
  - left. split; [lia | exact Hm].
  - right. rewrite He. split; [reflexivity |].
    change (Z.to_nat (trim_hi - trim_lo)) with 90%nat in Hsum.
    pose proof Hsum as Hcnt. apply cal_sum_loop_count in Hcnt; [| cbn [snd]; lia ..].
    apply cal_sum_loop_sum in Hsum;
      [| rewrite trim_lo_eq; lia | cbn [fst]; rewrite Hm; unfold is_ulong; lia].
    cbn [fst snd] in Hcnt, Hsum. subst count.
    change (as_ulong (0 + Z.of_nat 90)) with 90.
    pose proof (as_ulong_range (cal_mean st +
                  sum_Z (take 90 (drop (Z.to_nat trim_lo) l')))) as Hrange.
    rewrite <- Hsum in Hrange.
    change (2 ^ 64) with 18446744073709551616 in Hrange.
    change (2 ^ 58) with 288230376151711744.
    split; [apply Z.div_pos; lia |].
    apply Z.div_lt_upper_bound; lia.
Qed.

Lemma tp_timer_phase id seq threadnr timesrepeated st st' :
  cal_phase st -> tp_timer id seq threadnr timesrepeated st = Ok st' -> cal_phase st'.
Proof.
  intros Hp H. unfold tp_timer in H. cbv zeta in H.
  destruct (implicit_init_frame st) as (_ & _ & Hm & _ & Hcc & _).
  assert (Hp0 : cal_phase (implicit_init st))
    by (unfold cal_phase; rewrite Hm, Hcc; exact Hp).
  destruct (TP_TIMER_SPACE <=? tp_timer_count (implicit_init st)).
  - apply Ok_inj in H. subst st'. exact Hp0.
  - destruct (tp_timer_space (implicit_init st)); [| discriminate].
    unfold do_gettimeofday in H.
    apply bind_Ok in H as (st1 & H1 & H). apply bind_Ok in H as (sp & _ & H).
    apply Ok_inj in H. subst st'.
    apply cal_stop_phase in H1; [exact H1 | exact Hp0].
Qed.

Lemma reachable_phase st : reachable st -> cal_phase st.
Proof.
  induction 1 as [clock | st st' _ IH Hstep].
  - left. unfold boot, TP_TIMER_CAL. kernel_simpl. lia.
  - destruct Hstep as [st Hnull | id seq thr rep st st' H
                       | id mem data tail st st' H | st st' H].
    + exact IH.
    + eapply tp_timer_phase; eauto.
    + unfold tp_timer_data in H.
      eapply (scan_keeps tp_timer cal_phase); [| | exact H].
      * intros. eapply tp_timer_phase; eauto.
      * unfold cal_phase. destruct (cal_start_cal st) as (-> & _ & ->). exact IH.
    + unfold tp_release in H. destruct (tp_timer_space st); [| discriminate].
      apply Ok_inj in H. subst st'. exact IH.
Qed.

(** X4.  In every reachable state the calibration is in one of two phases:
    [cal_count] is below [TP_TIMER_CAL] and the correction [cal_mean] is
    still 0, or [cal_count] is [TP_TIMER_CAL + 1] and the correction lies
    between 0 and 2^58.  [cal_count] is never [TP_TIMER_CAL] itself. *)
Theorem reachable_calibration (st : kernel) :
  reachable st ->
  (0 <= cal_count st < TP_TIMER_CAL /\ cal_mean st = 0 /\ ~ converged st) \/
  (cal_count st = TP_TIMER_CAL + 1 /\ 0 <= cal_mean st < 2 ^ 58 /\ converged st).
Proof.
  intros Hr. destruct (reachable_phase st Hr) as [[Hc Hm] | [Hc Hm]]; unfold converged.
  - left. repeat split; [lia | lia | exact Hm | lia].
  - right. split; [exact Hc |]. split; [exact Hm | lia].
Qed.

Lemma reachable_calibration_witness :
  (0 <= cal_count after_three_calls < TP_TIMER_CAL /\
   cal_mean after_three_calls = 0 /\ ~ converged after_three_calls) \/
  (cal_count after_three_calls = TP_TIMER_CAL + 1 /\
   0 <= cal_mean after_three_calls < 2 ^ 58 /\ converged after_three_calls).
Proof. exact (reachable_calibration after_three_calls after_three_calls_reachable). Defined.

(** ** The event log: initialisation *)

Lemma tp_timer_Ok id seq threadnr timesrepeated st space st1 :
  log_wf st -> tp_timer_count st < TP_TIMER_SPACE ->
  tp_timer_space (implicit_init st) = Some space ->
  cal_stop (as_ulong (tv_usec (wall_clock st (ticks st))))
           (snd (do_gettimeofday (implicit_init st))) = Ok st1 ->
  tp_timer id seq threadnr timesrepeated st =
  Ok (set_count (tp_timer_count st + 1)
        (set_space
           (Some (<[Z.to_nat (tp_timer_count st) :=
                     Data.mk (as_ushort id)
                       (mk_timeval (tv_sec (wall_clock st (ticks st)))
                          (as_long (as_ulong (tv_usec (wall_clock st (ticks st)))
                                    - cal_mean st1)))
                       seq threadnr (as_ushort timesrepeated) (tp_timer_count st)]> space))
           st1)).
Proof.
  intros Hwf Hlt Hsp Hst1.
  destruct (implicit_init_space st Hwf) as (space0 & Hsp0 & Hlen).
  rewrite Hsp in Hsp0. injection Hsp0 as <-.
  destruct (implicit_init_frame st) as (Hc & _ & _ & _ & _ & Hw & Ht).
  destruct Hwf as [Hr _].
  unfold tp_timer. cbv zeta. rewrite Hsp, Hc.
  destruct (Z.leb_spec TP_TIMER_SPACE (tp_timer_count st)); [lia |].
  unfold do_gettimeofday in *. cbn [fst snd] in *. rewrite Hw, Ht in *.
  rewrite Hst1. cbn [bind].
  unfold wr. destruct (in_range space (tp_timer_count st)) eqn:Hin;
    [| apply in_range_false in Hin; lia].
  cbn [bind]. f_equal.
  apply cal_stop_frame in Hst1 as (_ & Hc1 & _). kernel_simpl.
  rewrite Hc1, Hc, as_ulong_small; [reflexivity |]. unfold TP_TIMER_SPACE in *. lia.
Qed.

Lemma cal_stop_off_fill usec st :
  cal_wf st -> cal_count st <> TP_TIMER_CAL - 1 ->
  cal_stop usec st =
  Ok (if TP_TIMER_CAL <=? cal_count st then st
      else set_cal_count (cal_count st + 1)
             (set_cal_list (<[Z.to_nat (cal_count st) := as_ulong (usec - cal_usec st)]>
                              (cal_list st)) st)).
Proof.
  intros [Hlen Hc] Hne. unfold TP_TIMER_CAL in *. unfold cal_stop, TP_TIMER_CAL.
  destruct (Z.leb_spec 100 (cal_count st)); [reflexivity |].
  unfold wr. destruct (in_range (cal_list st) (cal_count st)) eqn:Hin;
    [| apply in_range_false in Hin; lia].
  cbn [bind]. kernel_simpl. rewrite as_int_small by lia.
  destruct (Z.eqb_spec (cal_count st + 1) 100); [lia | reflexivity].
Qed.

(** X5.  A call of [tp_timer] that finds the storage not allocated
    allocates it: it prints the two messages of the implicit
    initialisation, stores its record at position 0 with ordinal 0, leaves
    every other cell zero and sets the count to 1.  The call is taken not
    to be the one that fills the calibration window. *)
Theorem tp_timer_implicit_init (id seq threadnr timesrepeated : Z) (st : kernel) :
  reachable st -> tp_timer_space st = None ->
  cal_count st <> TP_TIMER_CAL - 1 ->
  exists st' d,
    tp_timer id seq threadnr timesrepeated st = Ok st' /\
    dmesg st' = dmesg st ++ [MsgImplicitInit; MsgInit] /\
    tp_timer_count st' = 1 /\
    stored st' 0 d /\
    Data.id d = as_ushort id /\ Data.seq d = seq /\ Data.threadnr d = threadnr /\
    Data.timesrepeated d = as_ushort timesrepeated /\ Data.count d = 0 /\
    forall i, 1 <= i < TP_TIMER_SPACE -> stored st' i Data.zero.
Proof.
  intros Hr Hnull Hne. destruct (reachable_inv st Hr) as (Hwf & Hcal & _).
  pose proof Hwf as [_ H0]. rewrite Hnull in H0.
  assert (Hinit : implicit_init st = tp_timer_init (printk MsgImplicitInit st))
    by (unfold implicit_init; rewrite Hnull; reflexivity).
  set (space := replicate (Z.to_nat TP_TIMER_SPACE) Data.zero).
  assert (Hsp : tp_timer_space (implicit_init st) = Some space)
    by (rewrite Hinit; reflexivity).
  set (st0 := snd (do_gettimeofday (implicit_init st))).
  assert (Hcal0 : cal_wf st0 /\ cal_count st0 = cal_count st).
  { unfold st0, cal_wf. rewrite Hinit. unfold do_gettimeofday. kernel_simpl.
    split; [exact Hcal | reflexivity]. }
  destruct Hcal0 as [Hcal0 Hcc0].
  assert (Hst1 : exists st1,
            cal_stop (as_ulong (tv_usec (wall_clock st (ticks st)))) st0 = Ok st1 /\
            dmesg st1 = dmesg st0).
  { rewrite (cal_stop_off_fill _ st0 Hcal0) by (rewrite Hcc0; exact Hne).
    destruct (TP_TIMER_CAL <=? cal_count st0); eexists; split; reflexivity. }
  destruct Hst1 as (st1 & Hst1 & Hd1).
  rewrite (tp_timer_Ok id seq threadnr timesrepeated st space st1 Hwf
             ltac:(unfold TP_TIMER_SPACE; lia) Hsp Hst1).
  assert (Hlen : Z.of_nat (length space) = TP_TIMER_SPACE).
  { unfold space. rewrite length_replicate. apply Z2Nat.id. unfold TP_TIMER_SPACE. lia. }
  rewrite H0. change (Z.to_nat 0) with O.
  eexists _, _. split; [reflexivity |].
  split.
  { kernel_simpl. rewrite Hd1. unfold st0. rewrite Hinit. unfold do_gettimeofday.
    kernel_simpl. rewrite <- app_assoc. reflexivity. }
  kernel_simpl. split; [reflexivity |]. split.
  { eexists. split; [reflexivity |]. apply (rd_insert_eq space 0).
    unfold TP_TIMER_SPACE in Hlen. lia. }
  cbn [Data.id Data.seq Data.threadnr Data.timesrepeated Data.count].
  repeat (split; [reflexivity |]).
  intros i Hi. eexists. split; [reflexivity |].
  rewrite (rd_insert_ne space 0 i) by lia.
  apply rd_Ok. split; [lia |]. unfold space. apply lookup_replicate.
  split; [reflexivity | unfold TP_TIMER_SPACE in *; lia].
Qed.

Lemma tp_timer_implicit_init_witness :
  exists st' d,
    tp_timer TPS_SOCK 10 7 1 (boot (steady_clock 5)) = Ok st' /\
    dmesg st' = dmesg (boot (steady_clock 5)) ++ [MsgImplicitInit; MsgInit] /\
    tp_timer_count st' = 1 /\
    stored st' 0 d /\
    Data.id d = as_ushort TPS_SOCK /\ Data.seq d = 10 /\ Data.threadnr d = 7 /\
    Data.timesrepeated d = as_ushort 1 /\ Data.count d = 0 /\
    forall i, 1 <= i < TP_TIMER_SPACE -> stored st' i Data.zero.
Proof.
  apply (tp_timer_implicit_init TPS_SOCK 10 7 1 (boot (steady_clock 5))).
  - apply reachable_boot.
  - reflexivity.
  - discriminate.
Defined.

Lemma map_replicate {A B : Type} (f : A -> B) n x :
  map f (replicate n x) = replicate n (f x).
Proof. induction n as [| n IH]; simpl; [| rewrite IH]; reflexivity. Qed.

Lemma resident_replicate st n :
  tp_timer_space st = Some (replicate (Z.to_nat TP_TIMER_SPACE) Data.zero) ->
  tp_timer_count st = n -> 0 <= n <= TP_TIMER_SPACE ->
  resident st = replicate (Z.to_nat n) Data.zero.
Proof.
  intros Hsp Hc Hn. unfold resident. rewrite Hsp, Hc, take_replicate.
  f_equal. lia.
Qed.

(** X6.  [tp_timer_init] does not touch the count: called on a log that
    holds records, it replaces the storage by zeroed cells, and the reader
    then prints as many lines as there were records, all of them zero. *)
Theorem tp_timer_init_keeps_count (st : kernel) :
  0 <= tp_timer_count st <= TP_TIMER_SPACE ->
  tp_timer_count (tp_timer_init st) = tp_timer_count st /\
  resident (tp_timer_init st) = replicate (Z.to_nat (tp_timer_count st)) Data.zero /\
  seq_read true 0 (tp_timer_init st) =
    Ok (replicate (Z.to_nat (tp_timer_count st)) (mk_line 0 0 0 0 0 0 0)).
Proof.
  intros Hc. split; [reflexivity |].
  assert (Hres : resident (tp_timer_init st) =
                 replicate (Z.to_nat (tp_timer_count st)) Data.zero)
    by (apply resident_replicate; [reflexivity | reflexivity | exact Hc]).
  split; [exact Hres |].
  rewrite seq_read_resident.
  - rewrite Hres. change (Z.to_nat 0) with O. rewrite drop_0, map_replicate. reflexivity.
  - split; [exact Hc |]. kernel_simpl. rewrite length_replicate.
    apply Z2Nat.id. unfold TP_TIMER_SPACE. lia.
  - lia.
Qed.

Lemma tp_timer_init_keeps_count_witness :
  tp_timer_count (tp_timer_init after_three_calls) = tp_timer_count after_three_calls /\
  resident (tp_timer_init after_three_calls) =
    replicate (Z.to_nat (tp_timer_count after_three_calls)) Data.zero /\
  seq_read true 0 (tp_timer_init after_three_calls) =
    Ok (replicate (Z.to_nat (tp_timer_count after_three_calls)) (mk_line 0 0 0 0 0 0 0)).
Proof.
  apply (tp_timer_init_keeps_count after_three_calls).
  vm_compute. split; discriminate.
Defined.

(** ** The event log: timestamps before and after convergence *)

(** X7.  While the calibration is collecting and the window is not filled
    by this call, a call of [tp_timer] on a log with room cannot fail: the
    record it stores carries the reading of the clock unchanged, the
    correction stays 0, and the window receives the microseconds of the
    reading minus [cal_usec], modulo 2^64, as its next sample. *)
Theorem tp_timer_collecting_raw (id seq threadnr timesrepeated : Z) (st : kernel) :
  reachable st -> cal_count st < TP_TIMER_CAL - 1 ->
  tp_timer_count st < TP_TIMER_SPACE ->
  0 <= tv_usec (wall_clock st (ticks st)) < 2 ^ 63 ->
  exists st' d,
    tp_timer id seq threadnr timesrepeated st = Ok st' /\
    stored st' (tp_timer_count st) d /\
    Data.ts d = wall_clock st (ticks st) /\
    cal_mean st' = 0 /\ cal_count st' = cal_count st + 1 /\
    rd (cal_list st') (cal_count st) =
      Ok (as_ulong (tv_usec (wall_clock st (ticks st)) - cal_usec st)).
Proof.
  intros Hr Hcc Hlt Husec. destruct (reachable_inv st Hr) as (Hwf & Hcal & _).
  destruct (reachable_phase st Hr) as [[Hc Hm] | [Hc _]]; [| unfold TP_TIMER_CAL in *; lia].
  destruct (implicit_init_space st Hwf) as (space & Hsp & Hlen).
  destruct (implicit_init_frame st) as (_ & Hu0 & Hm0 & Hl0 & Hc0 & _).
  set (st0 := snd (do_gettimeofday (implicit_init st))).
  assert (Hst0 : cal_wf st0 /\ cal_count st0 = cal_count st /\ cal_mean st0 = 0 /\
                 cal_list st0 = cal_list st /\ cal_usec st0 = cal_usec st).
  { unfold st0, cal_wf, do_gettimeofday. kernel_simpl. rewrite Hl0, Hc0, Hm0, Hu0.
    repeat split; solve [apply Hcal | exact Hm]. }
  destruct Hst0 as (Hcal0 & Hcc0 & Hm00 & Hl00 & Hu00).
  pose proof (cal_stop_off_fill (as_ulong (tv_usec (wall_clock st (ticks st)))) st0 Hcal0
                ltac:(rewrite Hcc0; lia)) as Hstop.
  destruct (Z.leb_spec TP_TIMER_CAL (cal_count st0)) as [Hge | _]; [lia |].
  rewrite (tp_timer_Ok id seq threadnr timesrepeated st space _ Hwf Hlt Hsp Hstop).
  destruct Hwf as [Hr0 _]. destruct Hcal as [Hll _].
  eexists _, _. split; [reflexivity |]. kernel_simpl.
  split; [eexists; split; [reflexivity |]; apply rd_insert_eq; lia |].
  rewrite Hm00, Hcc0, Hl00, Hu00, as_ulong_small by lia.
  rewrite Z.sub_0_r, as_long_small by lia.
  split; [destruct (wall_clock st (ticks st)); reflexivity |].
  split; [reflexivity |]. split; [reflexivity |].
  apply rd_insert_eq. unfold TP_TIMER_CAL in *. lia.
Qed.

Lemma tp_timer_collecting_raw_witness :
  exists st' d,
    tp_timer TPS_SOCK 10 7 1 (boot (steady_clock 5)) = Ok st' /\
    stored st' (tp_timer_count (boot (steady_clock 5))) d /\
    Data.ts d = wall_clock (boot (steady_clock 5)) (ticks (boot (steady_clock 5))) /\
    cal_mean st' = 0 /\ cal_count st' = cal_count (boot (steady_clock 5)) + 1 /\
    rd (cal_list st') (cal_count (boot (steady_clock 5))) =
      Ok (as_ulong (tv_usec (wall_clock (boot (steady_clock 5))
                               (ticks (boot (steady_clock 5))))
                    - cal_usec (boot (steady_clock 5)))).
Proof.
  apply (tp_timer_collecting_raw TPS_SOCK 10 7 1 (boot (steady_clock 5))).
  - apply reachable_boot.
  - reflexivity.
  - reflexivity.
  - simpl. lia.
Defined.

Lemma resident_implicit st space :
  log_wf st -> tp_timer_space (implicit_init st) = Some space ->
  resident st = take (Z.to_nat (tp_timer_count st)) space.
Proof.
  intros [Hr Hs] Hsp. unfold resident.
  destruct (tp_timer_space st) as [sp |] eqn:E.
  - rewrite (implicit_init_allocated _ _ E) in Hsp. congruence.
  - rewrite Hs. reflexivity.
Qed.

Lemma tp_timer_converged_step c st :
  log_wf st -> converged st -> tp_timer_count st < TP_TIMER_SPACE ->
  exists st',
    tp_timer (c_id c) (c_seq c) (c_threadnr c) (c_timesrepeated c) st = Ok st' /\
    resident st' =
      resident st ++
      [record_of c (tp_timer_count st) (wall_clock st (ticks st)) (cal_mean st)] /\
    tp_timer_count st' = tp_timer_count st + 1 /\
    ticks st' = S (ticks st) /\ wall_clock st' = wall_clock st /\
    cal_usec st' = cal_usec st /\ cal_mean st' = cal_mean st /\
    cal_list st' = cal_list st /\ cal_count st' = cal_count st /\
    log_wf st'.
Proof.
  intros Hwf Hconv Hlt.
  destruct (implicit_init_space st Hwf) as (space & Hsp & Hlen).
  destruct (implicit_init_frame st) as (Hc0 & Hu0 & Hm0 & Hl0 & Hcc0 & Hw0 & Ht0).
  set (st0 := snd (do_gettimeofday (implicit_init st))).
  assert (Hstop : cal_stop (as_ulong (tv_usec (wall_clock st (ticks st)))) st0 = Ok st0).
  { apply cal_stop_converged. unfold converged, st0, do_gettimeofday in *. kernel_simpl.
    rewrite Hcc0. exact Hconv. }
  rewrite (tp_timer_Ok _ _ _ _ st space st0 Hwf Hlt Hsp Hstop).
  pose proof (resident_implicit st space Hwf Hsp) as Hres.
  pose proof Hwf as [Hr _].
  eexists. split; [reflexivity |].
  unfold st0, do_gettimeofday. kernel_simpl. split.
  { rewrite Hres. unfold resident. kernel_simpl.
    replace (Z.to_nat (tp_timer_count st + 1)) with (S (Z.to_nat (tp_timer_count st))) by lia.
    erewrite take_S_r by (apply list_lookup_insert_eq; lia).
    rewrite take_insert_ge by lia. rewrite Hm0. reflexivity. }
  split; [reflexivity |]. split; [rewrite Ht0; reflexivity |].
  repeat (split; [assumption |]).
  unfold log_wf. kernel_simpl. rewrite length_insert. split; [lia | exact Hlen].
Qed.

Lemma appends_converged_gen cs :
  forall st,
    log_wf st -> converged st ->
    tp_timer_count st + Z.of_nat (length cs) <= TP_TIMER_SPACE ->
    exists st',
      appends cs st = Ok st' /\
      resident st' =
        resident st ++
        imap (fun k c => record_of c (tp_timer_count st + Z.of_nat k)
                                   (wall_clock st (ticks st + k)) (cal_mean st)) cs /\
      tp_timer_count st' = tp_timer_count st + Z.of_nat (length cs) /\
      ticks st' = (ticks st + length cs)%nat /\ wall_clock st' = wall_clock st /\
      cal_usec st' = cal_usec st /\ cal_mean st' = cal_mean st /\
      cal_list st' = cal_list st /\ cal_count st' = cal_count st /\
      log_wf st'.
Proof.
  induction cs as [| c cs IH]; intros st Hwf Hconv Hfit.
  - exists st. split; [reflexivity |]. rewrite imap_nil, app_nil_r. cbn [length].
    repeat split; try apply Hwf; lia.
  - cbn [length] in Hfit.
    destruct (tp_timer_converged_step c st Hwf Hconv ltac:(lia))
      as (st1 & H1 & Hres1 & Hc1 & Ht1 & Hw1 & Hu1 & Hm1 & Hl1 & Hcc1 & Hwf1).
    destruct (IH st1 Hwf1 ltac:(unfold converged in *; rewrite Hcc1; exact Hconv)
                ltac:(lia))
      as (st' & H & Hres & Hc & Ht & Hw & Hu & Hm & Hl & Hcc & Hwf').
    exists st'. rewrite appends_cons, H1. cbn [bind]. split; [exact H |].
    split.
    { rewrite Hres, Hres1, <- app_assoc, imap_cons. cbn [app].
      rewrite Z.add_0_r, Nat.add_0_r. do 2 f_equal.
      apply imap_ext. intros k c' _. cbn. rewrite Hc1, Hw1, Ht1, Hm1.
      f_equal; [lia | f_equal; lia]. }
    cbn [length]. rewrite Hc, Ht, Hw, Hu, Hm, Hl, Hcc, Hc1, Ht1.
    repeat split; try assumption; try apply Hwf'; lia.
Qed.

Lemma calibrated_reachable : reachable calibrated.
Proof.
  apply (reachable_appends (replicate 100 probe_call) (boot (steady_clock 5))).
  - apply reachable_boot.
  - apply is_Ok_value. vm_compute. reflexivity.
Qed.

Lemma reachable_allocated st :
  reachable st -> 0 < tp_timer_count st -> exists space, tp_timer_space st = Some space.
Proof.
  intros Hr Hc. destruct (reachable_inv st Hr) as ((_ & Hs) & _).
  destruct (tp_timer_space st) as [space |]; [eauto | lia].
Qed.

(** X8.  Once the calibration has converged, a sequence of calls of
    [tp_timer] that fits the log cannot fail.  The records are appended in
    the order of the calls, each with the next ordinal and the next reading
    of the clock, the correction subtracted from its microseconds; the
    clock is read once per call and the calibration variables stay as they
    are. *)
Theorem appends_converged (cs : list call) (st : kernel) :
  reachable st -> converged st ->
  tp_timer_count st + Z.of_nat (length cs) <= TP_TIMER_SPACE ->
  exists st',
    appends cs st = Ok st' /\
    resident st' =
      resident st ++
      imap (fun k c => record_of c (tp_timer_count st + Z.of_nat k)
                                 (wall_clock st (ticks st + k)) (cal_mean st)) cs /\
    tp_timer_count st' = tp_timer_count st + Z.of_nat (length cs) /\
    ticks st' = (ticks st + length cs)%nat /\
    cal_usec st' = cal_usec st /\ cal_mean st' = cal_mean st /\
    cal_list st' = cal_list st /\ cal_count st' = cal_count st.
Proof.
  intros Hr Hconv Hfit. destruct (reachable_inv st Hr) as (Hwf & _ & _).
  destruct (appends_converged_gen cs st Hwf Hconv Hfit)
    as (st' & H & Hres & Hc & Ht & _ & Hu & Hm & Hl & Hcc & _).
  exists st'. auto 10.
Qed.

Lemma appends_converged_witness :
  exists st',
    appends three_calls calibrated = Ok st' /\
    resident st' =
      resident calibrated ++
      imap (fun k c => record_of c (tp_timer_count calibrated + Z.of_nat k)
                                 (wall_clock calibrated (ticks calibrated + k))
                                 (cal_mean calibrated)) three_calls /\
    tp_timer_count st' = tp_timer_count calibrated + Z.of_nat (length three_calls) /\
    ticks st' = (ticks calibrated + length three_calls)%nat /\
    cal_usec st' = cal_usec calibrated /\ cal_mean st' = cal_mean calibrated /\
    cal_list st' = cal_list calibrated /\ cal_count st' = cal_count calibrated.
Proof.
  apply (appends_converged three_calls calibrated calibrated_reachable).
  - unfold converged. vm_compute. discriminate.
  - vm_compute. discriminate.
Defined.

Lemma line_of_record_of c n now mean :
  call_typed c -> 0 <= tv_usec now < 2 ^ 63 -> 0 <= mean < 2 ^ 63 ->
  line_of (record_of c n now mean) =
  mk_line n (c_id c) (c_seq c) (c_threadnr c) (tv_sec now) (tv_usec now - mean)
          (c_timesrepeated c).
Proof.
  intros (Tid & _ & _ & Trep) Hu Hm. unfold line_of, record_of.
  cbn [Data.id Data.ts Data.seq Data.threadnr Data.timesrepeated Data.count tv_sec tv_usec].
  rewrite !as_short_as_ushort by assumption.
  rewrite as_ulong_small by lia. rewrite as_long_small by lia. reflexivity.
Qed.

(** X9.  One session after another: on a converged, allocated log,
    [tp_release] followed by calls of [tp_timer] with arguments of the
    parameter types and one reading from position 0 prints one line per
    call, in the order of the calls, with ordinals from 0 on, the arguments
    as they were passed, and the reading of the clock less the correction.
    The microseconds of the clock are taken to be below 1000000. *)
Theorem release_append_read (cs : list call) (st : kernel) (space : list Data.t) :
  reachable st -> tp_timer_space st = Some space -> converged st ->
  Z.of_nat (length cs) <= TP_TIMER_SPACE -> Forall call_typed cs ->
  (forall n, 0 <= tv_usec (wall_clock st n) < 1000000) ->
  exists st0 st1,
    tp_release st = Ok st0 /\
    appends cs st0 = Ok st1 /\
    seq_read true 0 st1 =
      Ok (imap (fun k c =>
                  mk_line (Z.of_nat k) (c_id c) (c_seq c) (c_threadnr c)
                          (tv_sec (wall_clock st (ticks st + k)))
                          (tv_usec (wall_clock st (ticks st + k)) - cal_mean st)
                          (c_timesrepeated c)) cs).
Proof.
  intros Hr Hsp Hconv Hfit Hty Hclock.
  destruct (reachable_inv st Hr) as (Hwf & _ & _).
  destruct (reachable_phase st Hr) as [[Hc _] | [_ Hmean]];
    [unfold converged in Hconv; lia |].
  set (st0 := set_count 0 (set_space (Some (replicate (Z.to_nat TP_TIMER_SPACE) Data.zero)) st)).
  assert (H0 : tp_release st = Ok st0) by (unfold tp_release; rewrite Hsp; reflexivity).
  assert (Hwf0 : log_wf st0).
  { unfold log_wf, st0. kernel_simpl. rewrite length_replicate.
    split; [unfold TP_TIMER_SPACE; lia | apply Z2Nat.id; unfold TP_TIMER_SPACE; lia]. }
  destruct (appends_converged_gen cs st0 Hwf0 Hconv ltac:(unfold st0; kernel_simpl; lia))
    as (st1 & H1 & Hres & _ & _ & _ & _ & _ & _ & _ & Hwf1).
  exists st0, st1. split; [exact H0 |]. split; [exact H1 |].
  rewrite seq_read_resident by (first [exact Hwf1 | lia]).
  f_equal. change (Z.to_nat 0) with O. rewrite drop_0, Hres.
  assert (Hres0 : resident st0 = []) by (unfold resident, st0; kernel_simpl; apply take_0).
  rewrite Hres0. cbn [app].
  change (map line_of ?l) with (line_of <$> l). rewrite fmap_imap.
  apply imap_ext. intros k c Hk. cbn. unfold st0. kernel_simpl.
  rewrite Forall_forall in Hty.
  apply line_of_record_of.
  - apply Hty. eapply list_elem_of_lookup_2; eauto.
  - pose proof (Hclock (ticks st + k)%nat). lia.
  - change (2 ^ 58) with 288230376151711744 in Hmean. lia.
Qed.

Lemma release_append_read_witness :
  exists st0 st1,
    tp_release calibrated = Ok st0 /\
    appends three_calls st0 = Ok st1 /\
    seq_read true 0 st1 =
      Ok (imap (fun k c =>
                  mk_line (Z.of_nat k) (c_id c) (c_seq c) (c_threadnr c)
                          (tv_sec (wall_clock calibrated (ticks calibrated + k)))
                          (tv_usec (wall_clock calibrated (ticks calibrated + k))
                           - cal_mean calibrated)
                          (c_timesrepeated c)) three_calls).
Proof.
  destruct (reachable_allocated calibrated calibrated_reachable) as [space Hsp];
    [vm_compute; reflexivity |].
  apply (release_append_read three_calls calibrated space calibrated_reachable Hsp).
  - unfold converged. vm_compute. discriminate.
  - vm_compute. discriminate.
  - apply three_calls_typed.
  - assert (Hw : wall_clock calibrated = steady_clock 5) by (vm_compute; reflexivity).
    rewrite Hw. intros n. simpl. lia.
Defined.

(** ** The sort of the calibration window: when it returns *)

(** X10.  Whenever [cal_sort (a, 0, n)] returns, the array it leaves is a
    permutation of [a], its cells from 0 to [n] are in ascending order and
    its cells above [n] are untouched; for the whole array the result is
    what any sort gives. *)
Theorem cal_sort_sorts (fuel : nat) (a a' : list Z) (n : Z) :
  Z.of_nat (length a) < 2 ^ 31 -> n < Z.of_nat (length a) ->
  cal_sort fuel a 0 n = Ok a' ->
  a' ≡ₚ a /\
  sorted_cells a' 0 n /\
  (forall k, n < k -> rd a' k = rd a k) /\
  (n = Z.of_nat (length a) - 1 -> a' = merge_sort Z.le a).
Proof.
  intros Hlen Hn H.
  apply cal_sort_spec in H; [| lia | lia | lia | left; reflexivity].
  destruct H as (Hre & Hs). pose proof Hre as (_ & Hp & Hout & _).
  split; [exact Hp |]. split; [exact Hs |]. split.
  - intros k Hk. apply Hout. lia.
  - intros ->. apply sorted_rearranged_merge_sort; assumption.
Qed.

Lemma cal_sort_sorts_witness :
  [1; 2; 3; 7] ≡ₚ [3; 1; 2; 7] /\
  sorted_cells [1; 2; 3; 7] 0 2 /\
  (forall k, 2 < k -> rd [1; 2; 3; 7] k = rd [3; 1; 2; 7] k) /\
  (2 = Z.of_nat (length [3; 1; 2; 7]) - 1 -> [1; 2; 3; 7] = merge_sort Z.le [3; 1; 2; 7]).
Proof.
  apply (cal_sort_sorts 10 [3; 1; 2; 7] [1; 2; 3; 7] 2).
  - simpl. lia.
  - simpl. lia.
  - vm_compute. reflexivity.
Defined.

Lemma scan_up_defined fuel a v :
  Z.of_nat (length a) < 2 ^ 31 ->
  forall i g x,
    as_ulong (i + 1) <= g -> rd a g = Ok x -> v <= x ->
    g - as_ulong (i + 1) < Z.of_nat fuel ->
    exists i', scan_up fuel a v i = Ok i'.
Proof.
  intros Hlen. induction fuel as [| fuel IH]; intros i g x Hg Hx Hvx Hf; [lia |].
  cbn [scan_up]. pose proof (as_ulong_range (i + 1)) as Hi.
  pose proof (rd_Ok_range _ _ _ Hx) as Hgr.
  destruct (rd_in_range a (as_ulong (i + 1))) as [y Hy]; [lia |].
  rewrite Hy. cbn [bind]. destruct (Z.ltb_spec y v) as [Hlt | Hge]; [| eauto].
  assert (Hne : as_ulong (i + 1) <> g)
    by (intros E; rewrite E in Hy; assert (y = x) by congruence; lia).
  apply (IH _ g x); rewrite ?as_ulong_succ by lia; try assumption; lia.
Qed.

Lemma scan_down_defined fuel a v :
  Z.of_nat (length a) < 2 ^ 31 ->
  forall j g x,
    0 <= g <= as_ulong (j - 1) -> as_ulong (j - 1) < Z.of_nat (length a) ->
    rd a g = Ok x -> x <= v ->
    as_ulong (j - 1) - g < Z.of_nat fuel ->
    exists j', scan_down fuel a v j = Ok j'.
Proof.
  intros Hlen. induction fuel as [| fuel IH]; intros j g x Hg Hj Hx Hxv Hf; [lia |].
  cbn [scan_down].
  destruct (rd_in_range a (as_ulong (j - 1))) as [y Hy]; [lia |].
  rewrite Hy. cbn [bind]. destruct (Z.ltb_spec v y) as [Hlt | Hge]; [| eauto].
  assert (Hne : as_ulong (j - 1) <> g)
    by (intros E; rewrite E in Hy; assert (y = x) by congruence; lia).
  apply (IH _ g x); rewrite ?as_ulong_pred by lia; try assumption; lia.
Qed.

(** The [while (1)] loop with the floor cell in place stays inside the
    array and leaves the floor cell as it is. *)
Lemma partition_defined m n v y fuel :
  forall a i j,
    Z.of_nat (length a) < 2 ^ 31 ->
    0 <= m -> n < Z.of_nat (length a) ->
    m <= as_ulong (i + 1) <= n ->
    1 <= j <= n -> Z.max 0 (m - 1) < j ->
    rd a n = Ok v ->
    rd a (Z.max 0 (m - 1)) = Ok y -> cells_ge a m n y ->
    Z.of_nat (length a) + 1 + j < Z.of_nat fuel ->
    exists a' i' j',
      partition fuel a v i j = Ok (a', i', j') /\
      rd a' (Z.max 0 (m - 1)) = Ok y.
Proof.
  induction fuel as [| fuel IH];
    intros a i j Hlen Hm Hn Hi Hj Hgj Hv Hy Hge Hf; [lia |].
  cbn [partition].
  assert (Hyv : y <= v) by (apply (Hge n v); [lia | exact Hv]).
  assert (Hj1 : as_ulong (j - 1) = j - 1) by (apply as_ulong_pred; lia).
  destruct (scan_up_defined fuel a v Hlen i n v) as [i1 Hi1];
    [lia | exact Hv | lia | lia |].
  destruct (scan_down_defined fuel a v Hlen j (Z.max 0 (m - 1)) y) as [j1 Hj1'];
    [lia | lia | exact Hy | exact Hyv | lia |].
  rewrite Hi1, Hj1'. cbn [bind].
  pose proof (scan_up_Ok _ _ _ _ _ Hlen Hi1) as Hi1r.
  apply scan_up_spec in Hi1 as (Hi1lo & Hi1below & (xi & Hxi & Hxiv)); [| exact Hlen].
  apply scan_down_spec in Hj1' as (Hj1hi & Hj1above & (xj & Hxj & Hxjv)); [| exact Hlen].
  rewrite Hj1 in Hj1hi, Hj1above.
  assert (Hi1n : i1 <= n).
  { destruct (Z.le_gt_cases i1 n) as [? | Hgt]; [assumption |].
    pose proof (Hi1below n v ltac:(lia) Hv). lia. }
  assert (Hj1g : Z.max 0 (m - 1) <= j1).
  { destruct (Z.le_gt_cases (Z.max 0 (m - 1)) j1) as [? | Hgt]; [assumption |].
    pose proof (Hj1above (Z.max 0 (m - 1)) y ltac:(lia) Hy). lia. }
  destruct (Z.leb_spec j1 i1) as [Hcross | Hopen]; [eauto |].
  destruct (swap a i1 j1) as [a1 | e] eqn:Hsw.
  2:{ exfalso. unfold swap in Hsw. rewrite Hxi, Hxj in Hsw. cbn [bind] in Hsw.
      unfold wr in Hsw.
      destruct (in_range a i1) eqn:Hr1; [| apply in_range_false in Hr1; lia].
      cbn [bind] in Hsw.
      destruct (in_range (<[Z.to_nat i1 := xj]> a) j1) eqn:Hr2; [discriminate |].
      apply in_range_false in Hr2. rewrite length_insert in Hr2. lia. }
  cbn [bind].
  destruct (swap_rearranged a i1 j1 a1 m n Hsw ltac:(lia) ltac:(lia))
    as (Hre & (x & x' & Hx & Hx' & Hx1 & Hx1') & Hother).
  assert (x = xi) by congruence. assert (x' = xj) by congruence. subst x x'.
  pose proof Hre as (Hl1 & _).
  apply (IH a1 i1 j1); rewrite ?Hl1, ?as_ulong_succ by lia; try lia.
  - rewrite Hother by lia. exact Hv.
  - destruct (Z.eq_dec (Z.max 0 (m - 1)) i1) as [E | E].
    + (* the floor cell is cell [m = 0] and the upward scan stopped on it *)
      rewrite <- E in Hx1.
      assert (xi = y) by (rewrite E in Hy; congruence). subst xi.
      assert (y <= xj).
      { apply (Hge j1 xj); [lia | exact Hxj]. }
      assert (xj = y) by lia. subst xj. exact Hx1.
    + rewrite Hother by lia. exact Hy.
  - eapply cells_ge_rearranged; [exact Hge | exact Hre | lia].
Qed.

Lemma swap_defined a i j :
  0 <= i < Z.of_nat (length a) -> 0 <= j < Z.of_nat (length a) ->
  exists a', swap a i j = Ok a'.
Proof.
  intros Hi Hj. unfold swap.
  destruct (rd_in_range a i Hi) as [x ->]. destruct (rd_in_range a j Hj) as [y ->].
  cbn [bind]. unfold wr.
  destruct (in_range a i) eqn:Hr1; [| apply in_range_false in Hr1; lia].
  cbn [bind].
  destruct (in_range (<[Z.to_nat i := y]> a) j) eqn:Hr2; [eauto |].
  apply in_range_false in Hr2. rewrite length_insert in Hr2. lia.
Qed.

(** When cell [m - 1], or cell 0 for [m = 0], holds at most what every cell
    from [m] to [n] holds, it stops the downward scans: [cal_sort (a, m, n)]
    stays inside the array, and leaves that cell as it is. *)
Lemma cal_sort_defined fuel :
  forall a m n y,
    Z.of_nat (length a) < 2 ^ 31 ->
    0 <= m -> n < Z.of_nat (length a) ->
    rd a (Z.max 0 (m - 1)) = Ok y -> cells_ge a m n y ->
    2 * Z.of_nat (length a) + 2 + Z.max 0 (n - m) < Z.of_nat fuel ->
    exists a', cal_sort fuel a m n = Ok a' /\ rd a' (Z.max 0 (m - 1)) = Ok y.
Proof.
  induction fuel as [| fuel IH]; intros a m n y Hlen Hm Hn Hy Hge Hf; [lia |].
  cbn [cal_sort]. destruct (Z.ltb_spec m n) as [Hmn | Hmn]; [| eauto].
  destruct (rd_in_range a n) as [v Hv]; [lia |]. rewrite Hv. cbn [bind].
  assert (Hm1 : as_ulong (as_ulong (m - 1) + 1) = m).
  { destruct (Z.eq_dec m 0) as [-> | Hm0]; [reflexivity |].
    rewrite as_ulong_pred by lia. replace (m - 1 + 1) with m by lia.
    apply as_ulong_small. lia. }
  assert (Hn0 : as_ulong n = n) by (apply as_ulong_small; lia).
  assert (Hn1 : as_ulong (n - 1) = n - 1) by (apply as_ulong_small; lia).
  rewrite Hn0.
  destruct (partition_defined m n v y fuel a (as_ulong (m - 1)) n)
    as (a1 & i1 & j1 & Hp & Hy1); rewrite ?Hm1; try assumption; try lia.
  rewrite Hp. cbn [bind].
  assert (Hguard : m = 0 \/ exists y0, rd a (m - 1) = Ok y0 /\ cells_ge a m n y0).
  { destruct (Z.eq_dec m 0) as [-> | Hm0]; [left; reflexivity | right].
    exists y. rewrite Z.max_r in Hy by lia. auto. }
  apply (partition_spec m n v) in Hp; rewrite ?Hm1, ?Hn1; try assumption; try lia.
  2:{ destruct Hguard as [-> | (y0 & Hy0 & Hge0)]; [left; reflexivity | right].
      exists y0. split; [exact Hy0 |]. apply (Hge0 n v); [lia | exact Hv]. }
  2:{ intros k x Hk. lia. }
  2:{ intros k x Hk. lia. }
  destruct Hp as (Hre1 & Hi1 & Hj1 & Hj10 & Hji & Hle1 & Hge1 & (xi & Hxi & Hxiv)).
  pose proof Hre1 as (Hl1 & _ & Hout1 & _).
  assert (Hv1 : rd a1 n = Ok v) by (rewrite Hout1 by lia; exact Hv).
  destruct (swap_defined a1 i1 n) as [a2 Hsw]; [lia | lia |].
  rewrite Hsw. cbn [bind].
  destruct (swap_rearranged a1 i1 n a2 m n Hsw ltac:(lia) ltac:(lia))
    as (Hre2 & (x & x' & Hx & Hx' & Hx2 & Hx2') & Hother).
  assert (x = xi) by congruence. assert (x' = v) by congruence. subst x x'.
  pose proof Hre2 as (Hl2 & _).
  assert (Hre02 : rearranged a a2 m n).
  { eapply rearranged_trans; [| exact Hre2].
    eapply rearranged_widen; [exact Hre1 | lia | lia]. }
  assert (Hyv : y <= v) by (apply (Hge n v); [lia | exact Hv]).
  assert (Hge2 : cells_ge a2 m n y)
    by (eapply cells_ge_rearranged; [exact Hge | exact Hre02 | lia]).
  assert (Hy2 : rd a2 (Z.max 0 (m - 1)) = Ok y).
  { destruct (Z.eq_dec (Z.max 0 (m - 1)) i1) as [E | E].
    - rewrite E in Hy1. assert (xi = y) by congruence. subst xi.
      assert (v = y) by lia. subst v. rewrite E. exact Hx2.
    - rewrite Hother by lia. exact Hy1. }
  rewrite as_int_small by lia.
  destruct (IH a2 m j1 y) as (a3 & Hleft & Hy3); try lia; try assumption.
  { intros k z Hk Hz. apply (Hge2 k z); [lia | exact Hz]. }
  rewrite Hleft. cbn [bind].
  assert (HA : cells_le a2 m i1 v).
  { intros k z Hk Hz. destruct (Z.eq_dec k i1) as [-> | Hne].
    - assert (z = v) by congruence. lia.
    - rewrite Hother in Hz by lia. apply (Hle1 k z); [lia | exact Hz]. }
  assert (HB : cells_ge a2 (j1 + 1) n v).
  { intros k z Hk Hz. destruct (Z.eq_dec k i1) as [-> | Hne].
    - assert (z = v) by congruence. lia.
    - destruct (Z.eq_dec k n) as [-> | Hnn].
      + assert (z = xi) by congruence. lia.
      + rewrite Hother in Hz by lia. apply (Hge1 k z); [lia | exact Hz]. }
  apply cal_sort_spec in Hleft; try lia.
  2:{ destruct (Z.eq_dec m 0) as [Hm0 | Hm0]; [left; exact Hm0 | right].
      exists y. rewrite Z.max_r in Hy2 by lia. split; [exact Hy2 |].
      intros k z Hk Hz. apply (Hge2 k z); [lia | exact Hz]. }
  destruct Hleft as (Hre3 & _). pose proof Hre3 as (Hl3 & _).
  pose proof (cells_le_rearranged a2 a3 m i1 m j1 v HA Hre3 ltac:(lia)) as HA3.
  pose proof (cells_ge_rearranged a2 a3 (j1 + 1) n m j1 v HB Hre3 ltac:(lia)) as HB3.
  rewrite as_ulong_succ, as_int_small by lia.
  destruct (rd_in_range a3 i1) as [y3 Hy3']; [lia |].
  destruct (IH a3 (i1 + 1) n y3) as (a4 & Hright & _); try lia.
  { rewrite Z.max_r by lia. replace (i1 + 1 - 1) with i1 by lia. exact Hy3'. }
  { pose proof (HA3 i1 y3 ltac:(lia) Hy3').
    intros k z Hk Hz. pose proof (HB3 k z ltac:(lia) Hz). lia. }
  exists a4. split; [exact Hright |].
  apply cal_sort_spec in Hright; try lia.
  2:{ right. exists y3. replace (i1 + 1 - 1) with i1 by lia. split; [exact Hy3' |].
      pose proof (HA3 i1 y3 ltac:(lia) Hy3').
      intros k z Hk Hz. pose proof (HB3 k z ltac:(lia) Hz). lia. }
  destruct Hright as ((_ & _ & Hout4 & _) & _).
  rewrite Hout4 by lia. exact Hy3.
Qed.

(** X11.  When cell 0 holds at most what every cell from 0 to [n] holds,
    [cal_sort (a, 0, n)] stays inside the array and returns: cell 0 stops
    every downward scan.  The array it leaves is sorted from 0 to [n], a
    permutation of [a], and has the same cell 0. *)
Theorem cal_sort_min_first (fuel : nat) (a : list Z) (n x0 : Z) :
  Z.of_nat (length a) < 2 ^ 31 -> n < Z.of_nat (length a) ->
  rd a 0 = Ok x0 ->
  (forall k x, 0 <= k <= n -> rd a k = Ok x -> x0 <= x) ->
  2 * Z.of_nat (length a) + 2 + Z.max 0 n < Z.of_nat fuel ->
  exists a',
    cal_sort fuel a 0 n = Ok a' /\
    a' ≡ₚ a /\ sorted_cells a' 0 n /\
    (forall k, n < k -> rd a' k = rd a k) /\
    rd a' 0 = Ok x0.
Proof.
  intros Hlen Hn H0 Hmin Hf.
  assert (Hf' : 2 * Z.of_nat (length a) + 2 + Z.max 0 (n - 0) < Z.of_nat fuel)
    by (rewrite Z.sub_0_r; exact Hf).
  destruct (cal_sort_defined fuel a 0 n x0 Hlen ltac:(lia) Hn H0 Hmin Hf')
    as (a' & H & H0').
  exists a'. split; [exact H |].
  apply cal_sort_spec in H; [| lia | lia | lia | left; reflexivity].
  destruct H as (Hre & Hs). pose proof Hre as (Hl & Hp & Hout & Hin).
  split; [exact Hp |]. split; [exact Hs |]. split; [intros k Hk; apply Hout; lia |].
  exact H0'.
Qed.

Lemma cal_sort_min_first_witness :
  exists a',
    cal_sort 20 [1; 3; 2; 1; 7] 0 3 = Ok a' /\
    a' ≡ₚ [1; 3; 2; 1; 7] /\ sorted_cells a' 0 3 /\
    (forall k, 3 < k -> rd a' k = rd [1; 3; 2; 1; 7] k) /\
    rd a' 0 = Ok 1.
Proof.
  apply (cal_sort_min_first 20 [1; 3; 2; 1; 7] 3 1).
  - simpl. lia.
  - simpl. lia.
  - reflexivity.
  - intros k x Hk Hx.
    assert (Hc : k = 0 \/ k = 1 \/ k = 2 \/ k = 3) by lia.
    destruct Hc as [-> | [-> | [-> | ->]]]; vm_compute in Hx;
      injection Hx as <-; lia.
  - simpl. lia.
Defined.

(** ** The call of [cal_stop] that fills the window *)

Lemma cal_sum_loop_defined l n :
  forall i s,
    0 <= i -> i + Z.of_nat n <= Z.of_nat (length l) ->
    exists s', for_loop n i (cal_sum_step l) s = Ok s'.
Proof.
  induction n as [| n IH]; intros i s Hi Hn; cbn [for_loop]; [eauto |].
  unfold cal_sum_step at 1. destruct (rd_in_range l i) as [x ->]; [lia |].
  cbn [bind]. apply IH; lia.
Qed.

Lemma sum_Z_bound (l : list Z) (b : Z) :
  Forall (fun x => 0 <= x < b) l -> 0 <= sum_Z l <= Z.of_nat (length l) * b.
Proof.
  induction 1 as [| x l Hx _ IH]; cbn [sum_Z foldr length]; [lia |].
  fold (sum_Z l). nia.
Qed.

(** X12.  The call of [cal_stop] that fills the window, for a window whose
    first sample is not negative, is at most every other sample, and whose
    samples are below 2^57: the call returns, the window is left sorted,
    the correction frozen is the trimmed mean of the window, the
    calibration has converged, and the kernel log has received the sorted
    window and the correction. *)
Theorem cal_stop_fills_window (usec : Z) (st : kernel) (x0 : Z) :
  cal_wf st -> cal_count st = TP_TIMER_CAL - 1 -> cal_mean st = 0 ->
  rd (cal_window usec st) 0 = Ok x0 -> 0 <= x0 ->
  Forall (fun x => x0 <= x < 2 ^ 57) (cal_window usec st) ->
  exists st',
    cal_stop usec st = Ok st' /\
    cal_list st' = merge_sort Z.le (cal_window usec st) /\
    cal_mean st' = trimmed_mean (cal_window usec st) /\
    cal_count st' = TP_TIMER_CAL + 1 /\
    converged st' /\
    dmesg st' = dmesg st ++ [MsgCalList (cal_list st'); MsgCalFinished (cal_mean st')].
Proof.
  intros Hwf Hcount Hmean H0 Hx0 Hall. pose proof Hwf as [Hlen Hc].
  unfold cal_window in *. rewrite Hcount in *. unfold TP_TIMER_CAL in *.
  set (l := <[Z.to_nat (100 - 1) := as_ulong (usec - cal_usec st)]> (cal_list st)) in *.
  assert (Hl : Z.of_nat (length l) = 100) by (unfold l; rewrite length_insert; exact Hlen).
  assert (Hmin : cells_ge l 0 (100 - 1) x0).
  { intros k x _ Hx. apply rd_Ok in Hx as [_ Hx].
    rewrite Forall_forall in Hall. apply Hall. eapply list_elem_of_lookup_2; eauto. }
  destruct (cal_sort_defined cal_sort_fuel l 0 (100 - 1) x0) as (l' & Hsort & _);
    [lia | lia | lia | exact H0 | exact Hmin | unfold cal_sort_fuel; lia |].
  pose proof (cal_sort_length cal_sort_fuel l 0 (100 - 1) l' ltac:(lia) Hsort) as Hl'.
  destruct (cal_sum_loop_defined l' 90 5 (0, 0)) as ([mean count] & Hsum); [lia | lia |].
  pose proof Hsum as Hcnt. apply cal_sum_loop_count in Hcnt; [| cbn [snd]; lia ..].
  cbn [snd] in Hcnt. change (0 + Z.of_nat 90) with 90 in Hcnt. subst count.
  assert (Hstop : cal_stop usec st =
                  Ok (cal_finished l' mean 90
                        (set_cal_count 100 (set_cal_list l st)))).
  { unfold cal_stop, TP_TIMER_CAL. rewrite Hcount.
    change (100 <=? 100 - 1) with false. cbv iota.
    unfold wr. destruct (in_range (cal_list st) (100 - 1)) eqn:Hr;
      [| apply in_range_false in Hr; lia].
    cbn [bind]. kernel_simpl. rewrite Hcount.
    change (as_int (100 - 1 + 1)) with 100. change (100 =? 100) with true. cbv iota.
    fold l. rewrite Hsort. cbn [bind].
    change (Z.to_nat (trim_hi - trim_lo)) with 90%nat. change trim_lo with 5.
    rewrite Hmean, Hsum. cbn [bind]. reflexivity. }
  eexists. split; [exact Hstop |].
  pose proof (cal_stop_trimmed_mean usec st _ Hwf Hcount Hmean Hstop) as Htm.
  cbv zeta in Htm. unfold TP_TIMER_CAL in Htm. fold l in Htm.
  destruct Htm as (Hlist & Hcnt & _ & Hfit).
  split; [exact Hlist |]. split; [| split; [exact Hcnt |]].
  - apply Hfit.
    assert (Hkept : Forall (fun x => 0 <= x < 2 ^ 57)
                      (take (Z.to_nat (trim_hi - trim_lo))
                         (drop (Z.to_nat trim_lo) (merge_sort Z.le l)))).
    { apply Forall_take, Forall_drop. rewrite merge_sort_Permutation.
      eapply Forall_impl; [exact Hall |]. simpl. intros x Hx. lia. }
    apply sum_Z_bound in Hkept.
    assert (Z.of_nat (length (take (Z.to_nat (trim_hi - trim_lo))
                                (drop (Z.to_nat trim_lo) (merge_sort Z.le l)))) <= 90).
    { rewrite length_take. change (Z.to_nat (trim_hi - trim_lo)) with 90%nat. lia. }
    change (2 ^ 57) with 144115188075855872 in Hkept.
    change (2 ^ 64) with 18446744073709551616. nia.
  - split; [unfold converged, TP_TIMER_CAL; rewrite Hcnt; unfold TP_TIMER_CAL; lia |].
    kernel_simpl. rewrite <- app_assoc. reflexivity.
Qed.

Lemma cal_stop_fills_window_witness :
  let st := mk_kernel None 0 0 0 (map (fun k => 10 * k) (seqZ 1 100)) 99
                      (steady_clock 5) O [] in
  exists st',
    cal_stop 1000 st = Ok st' /\
    cal_list st' = merge_sort Z.le (cal_window 1000 st) /\
    cal_mean st' = trimmed_mean (cal_window 1000 st) /\
    cal_count st' = TP_TIMER_CAL + 1 /\
    converged st' /\
    dmesg st' = dmesg st ++ [MsgCalList (cal_list st'); MsgCalFinished (cal_mean st')].
Proof.
  apply (cal_stop_fills_window 1000
           (mk_kernel None 0 0 0 (map (fun k => 10 * k) (seqZ 1 100)) 99
                      (steady_clock 5) O []) 10).
  - split; [reflexivity | simpl; lia].
  - reflexivity.
  - reflexivity.
  - reflexivity.
  - lia.
  - apply Forall_forall. intros x Hx. vm_compute in Hx.
    repeat (apply elem_of_cons in Hx as [-> | Hx]; [lia |]).
    apply elem_of_nil in Hx. contradiction.
Defined.

(** X21.  One measurement while the calibration is collecting: [cal_start]
    reads the clock once and keeps its microseconds as the baseline, and
    [cal_stop (usec)] after it stores as the next sample what [usec] is
    above the baseline, or, when [usec] is below the baseline because the
    second has changed in between, that difference plus 2^64. *)
Theorem cal_start_stop_sample (usec : Z) (st : kernel) :
  cal_wf st -> cal_count st < TP_TIMER_CAL - 1 -> 0 <= usec < 2 ^ 64 ->
  exists st',
    cal_stop usec (cal_start st) = Ok st' /\
    ticks st' = S (ticks st) /\
    cal_usec st' = as_ulong (tv_usec (wall_clock st (ticks st))) /\
    cal_count st' = cal_count st + 1 /\
    cal_mean st' = cal_mean st /\
    rd (cal_list st') (cal_count st) =
      Ok (if cal_usec st' <=? usec then usec - cal_usec st'
          else 2 ^ 64 + usec - cal_usec st').
Proof.
  intros [Hlen Hc] Hlt Husec. unfold TP_TIMER_CAL in *.
  unfold cal_start, TP_TIMER_CAL.
  destruct (Z.leb_spec 100 (cal_count st)); [lia |].
  unfold do_gettimeofday. unfold cal_stop, TP_TIMER_CAL. kernel_simpl.
  destruct (Z.leb_spec 100 (cal_count st)); [lia |].
  unfold wr. destruct (in_range (cal_list st) (cal_count st)) eqn:Hin;
    [| apply in_range_false in Hin; lia].
  cbn [bind]. kernel_simpl. rewrite as_int_small by lia.
  destruct (Z.eqb_spec (cal_count st + 1) 100); [lia |].
  eexists. split; [reflexivity |]. kernel_simpl.
  repeat (split; [reflexivity |]).
  rewrite rd_insert_eq by lia. f_equal.
  pose proof (as_ulong_range (tv_usec (wall_clock st (ticks st)))) as Hb.
  set (base := as_ulong (tv_usec (wall_clock st (ticks st)))) in *.
  change (2 ^ 64) with 18446744073709551616 in *.
  unfold as_ulong, wrap, BITS_PER_LONG. change (2 ^ 64) with 18446744073709551616.
  destruct (Z.leb_spec base usec).
  - apply Z.mod_small. lia.
  - replace (usec - base) with (18446744073709551616 + usec - base + (-1) * 18446744073709551616)
      by lia.
    rewrite Z_mod_plus_full. apply Z.mod_small. lia.
Qed.

Lemma cal_start_stop_sample_witness :
  exists st',
    cal_stop 3 (cal_start (boot (steady_clock 5))) = Ok st' /\
    ticks st' = S (ticks (boot (steady_clock 5))) /\
    cal_usec st' =
      as_ulong (tv_usec (wall_clock (boot (steady_clock 5))
                           (ticks (boot (steady_clock 5))))) /\
    cal_count st' = cal_count (boot (steady_clock 5)) + 1 /\
    cal_mean st' = cal_mean (boot (steady_clock 5)) /\
    rd (cal_list st') (cal_count (boot (steady_clock 5))) =
      Ok (if cal_usec st' <=? 3 then 3 - cal_usec st'
          else 2 ^ 64 + 3 - cal_usec st').
Proof.
  apply (cal_start_stop_sample 3 (boot (steady_clock 5))).
  - apply boot_inv.
  - reflexivity.
  - lia.
Defined.

(** ** The scanner: buffers without a sentinel, and where the payload starts *)

(** X13.  A buffer that shows no sentinel at any position from [data] to
    [tail]: [tp_timer_data] calls [tp_timer] not once and returns; the log
    storage, the count, the kernel log, the window and the correction are
    as before, and after convergence the whole state is. *)
Theorem tp_timer_data_no_sentinel (id : Z) (mem : memory) (data tail : Z) (st : kernel) :
  (forall r, data <= r <= Z.max data tail -> no_sentinel_at mem r) ->
  emissions id mem data tail = Ok [] /\
  exists st',
    tp_timer_data id mem data tail st = Ok st' /\
    tp_timer_space st' = tp_timer_space st /\
    tp_timer_count st' = tp_timer_count st /\
    dmesg st' = dmesg st /\
    cal_count st' = cal_count st /\ cal_list st' = cal_list st /\
    cal_mean st' = cal_mean st /\
    (converged st -> st' = st).
Proof.
  intros Hno. destruct (tp_timer_data_malformed id mem data tail Hno) as [He Hd].
  split; [exact He |]. exists (cal_start st). split; [apply Hd |].
  destruct (cal_start_cal st) as (Hc & Hl & Hm).
  repeat split; try assumption; try apply cal_start_converged;
    unfold cal_start; destruct (TP_TIMER_CAL <=? cal_count st); reflexivity.
Qed.

Lemma tp_timer_data_no_sentinel_witness :
  emissions TPS_SOCK four_zero_words 0 4 = Ok [] /\
  exists st',
    tp_timer_data TPS_SOCK four_zero_words 0 4 after_three_calls = Ok st' /\
    tp_timer_space st' = tp_timer_space after_three_calls /\
    tp_timer_count st' = tp_timer_count after_three_calls /\
    dmesg st' = dmesg after_three_calls /\
    cal_count st' = cal_count after_three_calls /\
    cal_list st' = cal_list after_three_calls /\
    cal_mean st' = cal_mean after_three_calls /\
    (converged after_three_calls -> st' = after_three_calls).
Proof.
  apply (tp_timer_data_no_sentinel TPS_SOCK four_zero_words 0 4 after_three_calls).
  intros r Hr. exists 0. split; [| left; discriminate].
  assert (Hc : r = 0 \/ r = 1 \/ r = 2 \/ r = 3 \/ r = 4) by lia.
  destruct Hc as [-> | [-> | [-> | [-> | ->]]]]; vm_compute; reflexivity.
Defined.

(** The calls of a scan in terms of the pairs walked, for a buffer whose
    first sentinel starts at [p] and whose sentinel positions reach to [q]. *)
Lemma emissions_rle id mem data tail p q :
  data <= p -> p = data \/ p <= tail ->
  (forall r, data <= r < p -> no_sentinel_at mem r) ->
  p <= q ->
  (forall r, p <= r <= q -> sentinel_at mem r) ->
  no_sentinel_at mem (q + 1) ->
  tail <= Z.of_nat (length mem) ->
  Z.of_nat (groups (q + 8) tail) < 2 ^ 15 ->
  emissions id mem data tail =
    Ok (map (call_of_run id) (rle (walked mem (q + 8) tail))).
Proof.
  intros Hle Htail Hno Hpq Hat Hend Hmem Hgroups.
  assert (Hp : sentinel_at mem p) by (apply Hat; lia).
  pose proof (sentinel_words_Ok_range _ _ _ (proj1 (sentinel_at_words _ _) Hp)) as Hpr.
  pose proof (no_sentinel_at_range _ _ Hend) as Hqr.
  assert (Hd : 0 <= data).
  { destruct (Z.eq_dec data p) as [-> | Hne]; [lia |].
    apply (no_sentinel_at_range mem data), Hno. lia. }
  unfold emissions, scan. cbv zeta.
  rewrite (find_sentinel_found _ mem tail p data) by (try assumption; lia).
  cbn [bind].
  rewrite (skip_sentinel_extent _ mem q p) by (try assumption; lia).
  cbn [bind]. replace (q + 1 - 1 + 8) with (q + 8) by lia.
  pose proof (groups_bound (q + 8) tail (Z.of_nat (length mem))
                ltac:(lia) Hmem ltac:(lia)) as Hgb.
  rewrite (count_seq_rle id mem tail Hmem (groups (q + 8) tail))
    by (try reflexivity; lia).
  cbv zeta. cbn [bind]. unfold rle, walked.
  pose proof (rle_from_last_count (walk (groups (q + 8) tail) mem (q + 8)) (0, 0) 0
                ltac:(lia)) as Hlast.
  rewrite walk_length in Hlast.
  destruct (rle_from (0, 0) 0 (walk (groups (q + 8) tail) mem (q + 8)))
    as [closed [[thr sq] cnt]].
  cbn [fst snd] in *. unfold record_call.
  rewrite as_short_small by (unfold is_short; lia).
  rewrite map_app. reflexivity.
Qed.

(** X14.  The payload starts where the bytes of ff end.  When the first
    sentinel starts at [p] and the bytes from [p] up to [e] are all ff, at
    least eight of them, with a byte other than ff at [e], the pairs walked
    are those from [e] on: every ff byte behind the eight of the sentinel is
    skipped with it, also one that belongs to the payload. *)
Theorem scanner_skips_ff_run (id : Z) (mem : memory) (data tail p e : Z) (b : byte) :
  data <= p -> p = data \/ p <= tail ->
  (forall r, data <= r < p -> no_sentinel_at mem r) ->
  p + 8 <= e ->
  (forall k, p <= k < e -> rd mem k = Ok Byte.xff) ->
  rd mem e = Ok b -> b <> Byte.xff ->
  tail <= Z.of_nat (length mem) ->
  Z.of_nat (groups e tail) < 2 ^ 15 ->
  emissions id mem data tail = Ok (map (call_of_run id) (rle (walked mem e tail))).
Proof.
  intros Hle Htail Hno Hpe Hrun Hb Hbne Hmem Hgroups.
  assert (E8 : e - 8 + 8 = e) by lia.
  rewrite <- E8 in Hgroups. rewrite <- E8 at 1.
  apply (emissions_rle id mem data tail p (e - 8)); try assumption; try lia.
  - intros r Hr k Hk. apply Hrun. lia.
  - exists ALL_ONES. split.
    + apply read_word_all_ones. intros k Hk. apply Hrun. lia.
    + right. pose proof (rd_Ok_range _ _ _ Hb) as Hbr.
      pose proof (rd_Ok_range _ _ _ (Hrun p ltac:(lia))) as Hpr.
      exists (word_at mem (e - 8 + 1 + 4)). split.
      * apply read_word_in_bounds; lia.
      * intros E.
        assert (Hw : read_word mem (e - 8 + 1 + 4) = Ok ALL_ONES)
          by (rewrite <- E; apply read_word_in_bounds; lia).
        pose proof (proj1 (read_word_all_ones _ _) Hw 3 ltac:(lia)) as H3.
        replace (e - 8 + 1 + 4 + 3) with e in H3 by lia. congruence.
Qed.

Lemma scanner_skips_ff_run_witness :
  emissions TPS_SOCK long_sentinel 0 44 =
    Ok (map (call_of_run TPS_SOCK) (rle (walked long_sentinel 20 44))).
Proof.
  apply (scanner_skips_ff_run TPS_SOCK long_sentinel 0 44 8 20 x01).
  - lia.
  - right. lia.
  - intros r Hr. exists (word_at long_sentinel r).
    assert (Hc : r = 0 \/ r = 1 \/ r = 2 \/ r = 3 \/ r = 4 \/ r = 5 \/ r = 6 \/ r = 7)
      by lia.
    destruct Hc as [-> | [-> | [-> | [-> | [-> | [-> | [-> | ->]]]]]]];
      (split; [vm_compute; reflexivity | left; vm_compute; discriminate]).
  - lia.
  - intros k Hk.
    assert (Hc : k = 8 \/ k = 9 \/ k = 10 \/ k = 11 \/ k = 12 \/ k = 13 \/ k = 14 \/
                 k = 15 \/ k = 16 \/ k = 17 \/ k = 18 \/ k = 19) by lia.
    destruct Hc as [-> | [-> | [-> | [-> | [-> | [-> | [-> | [-> | [-> | [-> | [-> | ->]]]]]]]]]]];
      vm_compute; reflexivity.
  - vm_compute. reflexivity.
  - discriminate.
  - vm_compute. discriminate.
  - vm_compute. reflexivity.
Defined.

(** ** The scanner: what its calls add up to *)

Lemma rle_from_counts ps :
  forall cur count,
    0 <= count ->
    sum_Z (map snd (fst (rle_from cur count ps) ++ [snd (rle_from cur count ps)])) =
      count + Z.of_nat (length ps) /\
    Forall (fun r => 1 <= snd r) (fst (rle_from cur count ps)) /\
    (0 < count + Z.of_nat (length ps) -> 1 <= snd (snd (rle_from cur count ps))).
Proof.
  induction ps as [| p ps IH]; intros cur count Hc; cbn [rle_from].
  - cbn. split; [lia |]. split; [constructor | lia].
  - destruct (same_pair p cur).
    + destruct (IH cur (count + 1) ltac:(lia)) as (Hs & Hf & Hl).
      cbn [length]. split; [rewrite Hs; lia |]. split; [exact Hf |].
      intros _. apply Hl. lia.
    + destruct (IH p 1 ltac:(lia)) as (Hs & Hf & Hl).
      destruct (rle_from p 1 ps) as [closed last]. cbn [fst snd] in *.
      cbn [length]. split; [| split].
      * rewrite <- app_assoc. unfold run in *.
        destruct (Z.eqb_spec count 0) as [-> | Hc0]; cbn [app map].
        -- rewrite Hs. lia.
        -- unfold sum_Z in *. cbn [foldr snd]. rewrite Hs. lia.
      * apply Forall_app. split; [| exact Hf].
        destruct (Z.eqb_spec count 0); [constructor |].
        constructor; [cbn; lia | constructor].
      * intros _. apply Hl. lia.
Qed.

Lemma rle_from_differ ps :
  forall cur count,
    0 <= count ->
    runs_differ (fst (rle_from cur count ps) ++ [snd (rle_from cur count ps)]) /\
    (count <> 0 ->
     exists r, head (fst (rle_from cur count ps) ++ [snd (rle_from cur count ps)]) = Some r /\
               fst r = cur).
Proof.
  induction ps as [| p ps IH]; intros cur count Hc; cbn [rle_from].
  - cbn. split; [| intros _; eexists; split; reflexivity].
    intros i r r' Hi Hi'. destruct i; discriminate.
  - destruct (same_pair p cur) eqn:E.
    + destruct (IH cur (count + 1) ltac:(lia)) as (Hd & Hh).
      split; [exact Hd |]. intros _. apply Hh. lia.
    + destruct (IH p 1 ltac:(lia)) as (Hd & Hh).
      destruct (Hh ltac:(lia)) as (r0 & Hr0 & Hp0).
      destruct (rle_from p 1 ps) as [closed last]. cbn [fst snd] in *.
      rewrite <- app_assoc.
      destruct (Z.eqb_spec count 0) as [-> | Hc0]; cbn [app].
      * split; [exact Hd | intros H; contradiction].
      * split; [| intros _; eexists; split; reflexivity].
        intros [| i] r r' Hi Hi'.
        -- cbn in Hi. injection Hi as <-. cbn [fst].
           rewrite head_lookup in Hr0.
           pose proof (eq_trans (eq_sym Hr0) Hi') as Hrr. injection Hrr as <-.
           rewrite Hp0.
           intros <-. destruct cur as [a b]. unfold same_pair in E. cbn in E.
           rewrite !Z.eqb_refl in E. discriminate.
        -- apply (Hd i r r'); assumption.
Qed.

Lemma lookup_map {A B : Type} (f : A -> B) (l : list A) i :
  map f l !! i = option_map f (l !! i).
Proof.
  revert i. induction l as [| x l IH]; intros [| i]; cbn; try reflexivity. apply IH.
Qed.

(** X15.  What the calls of one scan add up to, for a buffer with a
    sentinel: the repeat counts sum to the number of field groups walked;
    every call has a repeat count of at least 1, unless no field group was
    walked, in which case the one call made has sequence 0, thread 0 and
    count 0; and no two consecutive calls have the same thread and sequence
    numbers. *)
Theorem emissions_account (id : Z) (mem : memory) (data tail p q : Z) :
  data <= p -> p = data \/ p <= tail ->
  (forall r, data <= r < p -> no_sentinel_at mem r) ->
  p <= q ->
  (forall r, p <= r <= q -> sentinel_at mem r) ->
  no_sentinel_at mem (q + 1) ->
  tail <= Z.of_nat (length mem) ->
  Z.of_nat (groups (q + 8) tail) < 2 ^ 15 ->
  exists cs,
    emissions id mem data tail = Ok cs /\
    sum_Z (map c_timesrepeated cs) = Z.of_nat (groups (q + 8) tail) /\
    (groups (q + 8) tail <> O -> Forall (fun c => 1 <= c_timesrepeated c) cs) /\
    (groups (q + 8) tail = O -> cs = [mk_call id 0 0 0]) /\
    (forall i c c', cs !! i = Some c -> cs !! S i = Some c' ->
                    (c_threadnr c, c_seq c) <> (c_threadnr c', c_seq c')).
Proof.
  intros Hle Htail Hno Hpq Hat Hend Hmem Hgroups.
  eexists. split; [eapply emissions_rle; eassumption |].
  unfold rle, walked. set (ps := walk (groups (q + 8) tail) mem (q + 8)).
  assert (Hlen : length ps = groups (q + 8) tail) by apply walk_length.
  destruct (rle_from_counts ps (0, 0) 0 ltac:(lia)) as (Hsum & Hclosed & Hlast).
  destruct (rle_from_differ ps (0, 0) 0 ltac:(lia)) as (Hdiff & _).
  assert (Hempty : ps = [] -> rle_from (0, 0) 0 ps = ([], ((0, 0), 0)))
    by (intros ->; reflexivity).
  destruct (rle_from (0, 0) 0 ps) as [closed last]. cbn [fst snd] in *.
  rewrite Hlen in *. split; [| split; [| split]].
  - transitivity (sum_Z (map snd (closed ++ [last]))); [| rewrite Hsum; lia].
    f_equal. rewrite map_map. apply map_ext. intros r. reflexivity.
  - intros Hne. apply Forall_forall. intros c Hc.
    change (map (call_of_run id) ?l) with (call_of_run id <$> l) in Hc.
    apply list_elem_of_fmap in Hc as (r & -> & Hr). cbn [call_of_run c_timesrepeated].
    apply elem_of_app in Hr as [Hr | Hr].
    + rewrite Forall_forall in Hclosed. apply Hclosed, Hr.
    + apply list_elem_of_singleton in Hr. subst r. apply Hlast. lia.
  - intros H0. destruct ps as [| x ps]; [| rewrite <- Hlen in H0; discriminate].
    specialize (Hempty eq_refl). injection Hempty as -> ->. reflexivity.
  - intros i c c' Hc Hc'. rewrite lookup_map in Hc, Hc'.
    destruct ((closed ++ [last]) !! i) as [r |] eqn:Hr; [| discriminate].
    destruct ((closed ++ [last]) !! S i) as [r' |] eqn:Hr'; [| discriminate].
    injection Hc as <-. injection Hc' as <-. cbn [call_of_run c_threadnr c_seq].
    pose proof (Hdiff i r r' Hr Hr') as Hne. intros E. apply Hne.
    destruct r as [[a b] n], r' as [[a' b'] n']. cbn in *. congruence.
Qed.

Lemma emissions_account_witness :
  exists cs,
    emissions TPS_SOCK example_buffer 0 64 = Ok cs /\
    sum_Z (map c_timesrepeated cs) = Z.of_nat (groups (0 + 8) 64) /\
    (groups (0 + 8) 64 <> O -> Forall (fun c => 1 <= c_timesrepeated c) cs) /\
    (groups (0 + 8) 64 = O -> cs = [mk_call TPS_SOCK 0 0 0]) /\
    (forall i c c', cs !! i = Some c -> cs !! S i = Some c' ->
                    (c_threadnr c, c_seq c) <> (c_threadnr c', c_seq c')).
Proof.
  apply (emissions_account TPS_SOCK example_buffer 0 64 0 0).
  - lia.
  - left. reflexivity.
  - intros r Hr. lia.
  - lia.
  - intros r Hr. assert (r = 0) as -> by lia.
    apply sentinel_at_words. vm_compute. reflexivity.
  - exists ALL_ONES. split; [vm_compute; reflexivity | right].
    exists 0x01ffffff. split; [vm_compute; reflexivity | discriminate].
  - vm_compute. discriminate.
  - vm_compute. reflexivity.
Defined.

(** X16.  [tp_timer_data] on a converged log with room, for a buffer with a
    sentinel: it cannot fail, and it appends one record per run of the
    payload, in order, each with the next ordinal, the next reading of the
    clock less the correction, and the sequence number, thread number and
    count of its run. *)
Theorem tp_timer_data_logs_runs (id : Z) (mem : memory) (data tail p q : Z) (st : kernel) :
  reachable st -> converged st ->
  data <= p -> p = data \/ p <= tail ->
  (forall r, data <= r < p -> no_sentinel_at mem r) ->
  p <= q ->
  (forall r, p <= r <= q -> sentinel_at mem r) ->
  no_sentinel_at mem (q + 1) ->
  tail <= Z.of_nat (length mem) ->
  Z.of_nat (groups (q + 8) tail) < 2 ^ 15 ->
  tp_timer_count st + Z.of_nat (length (rle (walked mem (q + 8) tail))) <= TP_TIMER_SPACE ->
  exists st',
    tp_timer_data id mem data tail st = Ok st' /\
    resident st' =
      resident st ++
      imap (fun k r => record_of (call_of_run id r) (tp_timer_count st + Z.of_nat k)
                                 (wall_clock st (ticks st + k)) (cal_mean st))
           (rle (walked mem (q + 8) tail)) /\
    tp_timer_count st' =
      tp_timer_count st + Z.of_nat (length (rle (walked mem (q + 8) tail))).
Proof.
  intros Hr Hconv Hle Htail Hno Hpq Hat Hend Hmem Hgroups Hfit.
  destruct (reachable_inv st Hr) as (Hwf & _ & _).
  pose proof (emissions_rle id mem data tail p q Hle Htail Hno Hpq Hat Hend Hmem Hgroups)
    as He.
  rewrite (tp_timer_data_calls _ _ _ _ _ st He), cal_start_converged by exact Hconv.
  destruct (appends_converged_gen
              (map (call_of_run id) (rle (walked mem (q + 8) tail))) st Hwf Hconv)
    as (st' & H & Hres & Hc & _); [rewrite length_map; exact Hfit |].
  exists st'. split; [exact H |]. rewrite length_map in Hc. split; [| exact Hc].
  rewrite Hres. f_equal.
  change (map (call_of_run id) ?l) with (call_of_run id <$> l).
  rewrite imap_fmap. reflexivity.
Qed.

Lemma tp_timer_data_logs_runs_witness :
  exists st',
    tp_timer_data TPS_SOCK example_buffer 0 64 calibrated = Ok st' /\
    resident st' =
      resident calibrated ++
      imap (fun k r => record_of (call_of_run TPS_SOCK r)
                                 (tp_timer_count calibrated + Z.of_nat k)
                                 (wall_clock calibrated (ticks calibrated + k))
                                 (cal_mean calibrated))
           (rle (walked example_buffer (0 + 8) 64)) /\
    tp_timer_count st' =
      tp_timer_count calibrated +
      Z.of_nat (length (rle (walked example_buffer (0 + 8) 64))).
Proof.
  apply (tp_timer_data_logs_runs TPS_SOCK example_buffer 0 64 0 0 calibrated
           calibrated_reachable).
  - unfold converged. vm_compute. discriminate.
  - lia.
  - left. reflexivity.
  - intros r Hr. lia.
  - lia.
  - intros r Hr. assert (r = 0) as -> by lia.
    apply sentinel_at_words. vm_compute. reflexivity.
  - exists ALL_ONES. split; [vm_compute; reflexivity | right].
    exists 0x01ffffff. split; [vm_compute; reflexivity | discriminate].
  - vm_compute. discriminate.
  - vm_compute. reflexivity.
  - vm_compute. discriminate.
Defined.

(** ** Picking the payload out of a socket buffer *)

Lemma testbit_low a b n k :
  0 <= k < n -> Z.testbit (a + 2 ^ n * b) k = Z.testbit a k.
Proof.
  intros Hk. rewrite <- (Z.mod_pow2_bits_low (a + 2 ^ n * b) n k) by lia.
  rewrite <- (Z.mod_pow2_bits_low a n k) by lia.
  f_equal. rewrite Z.mul_comm. apply Z_mod_plus_full.
Qed.

Lemma land_pow2_eqb f k :
  0 <= k -> (Z.land f (2 ^ k) =? 0) = negb (Z.testbit f k).
Proof.
  intros Hk. destruct (Z.testbit f k) eqn:E; cbn [negb].
  - apply Z.eqb_neq. intros H0.
    assert (Hb : Z.testbit (Z.land f (2 ^ k)) k = true)
      by (rewrite Z.land_spec, E, Z.pow2_bits_true; [reflexivity | lia]).
    rewrite H0, Z.bits_0 in Hb. discriminate.
  - apply Z.eqb_eq. apply Z.bits_inj'. intros m Hm.
    rewrite Z.land_spec, Z.bits_0, Z.pow2_bits_eqb by lia.
    destruct (Z.eqb_spec k m) as [<- | Hne]; [rewrite E; reflexivity | apply andb_false_r].
Qed.

(** A flag bit of the [int] read at the flags pointer is the bit of the
    byte at offset 13. *)
Lemma read_int_flag mem p fl k :
  rd mem p = Ok fl -> p + 4 <= Z.of_nat (length mem) -> 0 <= k < 8 ->
  exists f, read_int mem p = Ok f /\
            (Z.land f (2 ^ k) =? 0) = negb (Z.testbit (byte_val fl) k).
Proof.
  intros Hfl Hlen Hk. pose proof (rd_Ok_range _ _ _ Hfl) as Hr.
  unfold read_int, read_word. rewrite Hfl.
  destruct (rd_in_range mem (p + 1)) as [b1 ->]; [lia |].
  destruct (rd_in_range mem (p + 2)) as [b2 ->]; [lia |].
  destruct (rd_in_range mem (p + 3)) as [b3 ->]; [lia |].
  cbn [bind]. eexists. split; [reflexivity |].
  rewrite land_pow2_eqb by lia. f_equal.
  set (w := byte_val fl + 2 ^ 8 * byte_val b1 + 2 ^ 16 * byte_val b2 + 2 ^ 24 * byte_val b3).
  assert (Hw : Z.testbit (as_int w) k = Z.testbit w k).
  { unfold as_int, sign_wrap, wrap.
    destruct (w mod 2 ^ 32 <? 2 ^ (32 - 1)).
    - apply Z.mod_pow2_bits_low. lia.
    - rewrite <- (Z.mod_pow2_bits_low w 32 k) by lia.
      replace (w mod 2 ^ 32 - 2 ^ 32) with (w mod 2 ^ 32 + 2 ^ 32 * (-1)) by lia.
      apply testbit_low. lia. }
  rewrite Hw. unfold w.
  replace (byte_val fl + 2 ^ 8 * byte_val b1 + 2 ^ 16 * byte_val b2 + 2 ^ 24 * byte_val b3)
    with (byte_val fl + 2 ^ 8 * (byte_val b1 + 2 ^ 8 * byte_val b2 + 2 ^ 16 * byte_val b3))
    by lia.
  apply testbit_low. lia.
Qed.

(** The data offset nibble, whatever the sign of the [char] it comes from. *)
Lemma read_char_nibble mem p d :
  rd mem p = Ok d ->
  exists c, read_char mem p = Ok c /\ Z.land (Z.shiftr c 4) 15 * 4 = tcp_data_offset d.
Proof.
  intros Hd. unfold read_char. rewrite Hd. cbn [bind]. eexists. split; [reflexivity |].
  unfold tcp_data_offset. destruct d; vm_compute; reflexivity.
Qed.

Lemma tcp_dispatch skb :
  taken_for_tcp skb ->
  (match nh_iph skb with
   | None => Ok false
   | Some iph => let* p := iph_protocol (skb_mem skb) iph in Ok (p =? 17)
   end = Ok false) /\
  (match nh_iph skb with
   | None => Ok true
   | Some iph => let* p := iph_protocol (skb_mem skb) iph in Ok (p =? 6)
   end = Ok true).
Proof.
  intros [Hnull | (iph & b & Hiph & Hb & Hn)].
  - rewrite Hnull. split; reflexivity.
  - rewrite Hiph. unfold iph_protocol. rewrite Hb. cbn [bind]. rewrite Hn.
    split; reflexivity.
Qed.

Lemma packet_names_protocol proto d fl payload :
  0 <= proto < 256 -> names_protocol (packet proto d fl payload) proto.
Proof.
  intros Hp. exists 0, (byte_of proto). split; [reflexivity |]. split; [reflexivity |].
  unfold byte_of, byte_val. rewrite Z.mod_small by lia.
  destruct (Byte.of_N (Z.to_N proto)) as [b |] eqn:E.
  - apply Byte.to_of_N in E. rewrite E. apply Z2N.id. lia.
  - apply Byte.of_N_None_iff in E. lia.
Qed.

Lemma packet_tcp_header proto d fl payload :
  tcp_header (packet proto d fl payload) (byte_of d) (byte_of fl).
Proof.
  unfold tcp_header, packet. cbn [skb_mem h_th].
  split; [reflexivity |]. split; [reflexivity |].
  rewrite !length_app, !length_replicate. cbn [length]. lia.
Qed.

(** X17.  A packet taken for a TCP segment whose header has SYN, FIN or RST
    set, or has ACK set and no payload (the data offset leads to [tail]),
    is passed over: [tp_timer_seq] returns the state as it was, the clock
    not read. *)
Theorem tp_timer_seq_control (id : Z) (skb : sk_buff) (st : kernel) (d fl : byte) :
  taken_for_tcp skb -> tcp_header skb d fl ->
  Z.testbit (byte_val fl) TCP_SYN = true \/
  Z.testbit (byte_val fl) TCP_FIN = true \/
  Z.testbit (byte_val fl) TCP_RST = true \/
  (Z.testbit (byte_val fl) TCP_ACK = true /\
   h_th skb + tcp_data_offset d = skb_tail skb) ->
  tp_timer_seq id skb st = Ok st.
Proof.
  intros Htcp (Hd & Hfl & Hlen) Hflags.
  destruct (tcp_dispatch skb Htcp) as [Hudp Htcp'].
  unfold tp_timer_seq. cbv zeta. rewrite Hudp. cbn [bind]. rewrite Htcp'. cbn [bind].
  destruct (read_char_nibble _ _ _ Hd) as (c & -> & Hoff). cbn [bind]. rewrite Hoff.
  replace (h_th skb + 12 + 1) with (h_th skb + 13) by lia.
  destruct (read_int_flag _ _ _ 1 Hfl ltac:(lia) ltac:(lia)) as (f & Hf & Hsyn).
  destruct (read_int_flag _ _ _ 0 Hfl ltac:(lia) ltac:(lia)) as (f0 & Hf0 & Hfin).
  destruct (read_int_flag _ _ _ 2 Hfl ltac:(lia) ltac:(lia)) as (f2 & Hf2 & Hrst).
  destruct (read_int_flag _ _ _ 4 Hfl ltac:(lia) ltac:(lia)) as (f4 & Hf4 & Hack).
  assert (f0 = f) by congruence. assert (f2 = f) by congruence.
  assert (f4 = f) by congruence. subst f0 f2 f4.
  rewrite Hf. cbn [bind].
  change (2 ^ 1) with 2 in Hsyn. change (2 ^ 0) with 1 in Hfin.
  change (2 ^ 2) with 4 in Hrst. change (2 ^ 4) with 16 in Hack.
  rewrite Hsyn, Hfin, Hrst, Hack, !negb_involutive.
  unfold TCP_SYN, TCP_FIN, TCP_RST, TCP_ACK in Hflags.
  destruct (Z.testbit (byte_val fl) 1); [reflexivity |].
  destruct (Z.testbit (byte_val fl) 0); [reflexivity |].
  destruct (Z.testbit (byte_val fl) 2); [reflexivity |].
  destruct Hflags as [H | [H | [H | [Ha He]]]]; try discriminate.
  rewrite Ha, He, Z.eqb_refl. reflexivity.
Qed.

Lemma tp_timer_seq_control_witness :
  tp_timer_seq TPS_SOCK (packet 6 0x50 0x02 []) (boot (steady_clock 5)) =
  Ok (boot (steady_clock 5)).
Proof.
  apply (tp_timer_seq_control TPS_SOCK (packet 6 0x50 0x02 []) (boot (steady_clock 5))
           (byte_of 0x50) (byte_of 0x02)).
  - right. apply (packet_names_protocol 6). lia.
  - apply packet_tcp_header.
  - left. reflexivity.
Defined.

(** X18.  A packet taken for a TCP segment with none of SYN, FIN and RST
    set, and with payload or without ACK: [tp_timer_seq] does what
    [tp_timer_data] does on the bytes from the end of the TCP header, four
    times the upper half of its byte 12 behind its start, to [tail]. *)
Theorem tp_timer_seq_tcp_data (id : Z) (skb : sk_buff) (st : kernel) (d fl : byte) :
  taken_for_tcp skb -> tcp_header skb d fl ->
  Z.testbit (byte_val fl) TCP_SYN = false ->
  Z.testbit (byte_val fl) TCP_FIN = false ->
  Z.testbit (byte_val fl) TCP_RST = false ->
  Z.testbit (byte_val fl) TCP_ACK = false \/
  h_th skb + tcp_data_offset d <> skb_tail skb ->
  tp_timer_seq id skb st =
  tp_timer_data id (skb_mem skb) (h_th skb + tcp_data_offset d) (skb_tail skb) st.
Proof.
  intros Htcp (Hd & Hfl & Hlen) Hsyn' Hfin' Hrst' Hdata.
  destruct (tcp_dispatch skb Htcp) as [Hudp Htcp'].
  unfold tp_timer_seq. cbv zeta. rewrite Hudp. cbn [bind]. rewrite Htcp'. cbn [bind].
  destruct (read_char_nibble _ _ _ Hd) as (c & -> & Hoff). cbn [bind]. rewrite Hoff.
  replace (h_th skb + 12 + 1) with (h_th skb + 13) by lia.
  destruct (read_int_flag _ _ _ 1 Hfl ltac:(lia) ltac:(lia)) as (f & Hf & Hsyn).
  destruct (read_int_flag _ _ _ 0 Hfl ltac:(lia) ltac:(lia)) as (f0 & Hf0 & Hfin).
  destruct (read_int_flag _ _ _ 2 Hfl ltac:(lia) ltac:(lia)) as (f2 & Hf2 & Hrst).
  destruct (read_int_flag _ _ _ 4 Hfl ltac:(lia) ltac:(lia)) as (f4 & Hf4 & Hack).
  assert (f0 = f) by congruence. assert (f2 = f) by congruence.
  assert (f4 = f) by congruence. subst f0 f2 f4.
  rewrite Hf. cbn [bind].
  change (2 ^ 1) with 2 in Hsyn. change (2 ^ 0) with 1 in Hfin.
  change (2 ^ 2) with 4 in Hrst. change (2 ^ 4) with 16 in Hack.
  rewrite Hsyn, Hfin, Hrst, Hack, !negb_involutive.
  unfold TCP_SYN, TCP_FIN, TCP_RST, TCP_ACK in *.
  rewrite Hsyn', Hfin', Hrst'.
  destruct Hdata as [Ha | Hne].
  - rewrite Ha. reflexivity.
  - destruct (Z.eqb_spec (h_th skb + tcp_data_offset d) (skb_tail skb)); [contradiction |].
    rewrite andb_false_r. reflexivity.
Qed.

Lemma tp_timer_seq_tcp_data_witness :
  tp_timer_seq TPS_SOCK (packet 6 0x50 0x18 example_buffer) (boot (steady_clock 5)) =
  tp_timer_data TPS_SOCK (skb_mem (packet 6 0x50 0x18 example_buffer))
                (h_th (packet 6 0x50 0x18 example_buffer) +
                 tcp_data_offset (byte_of 0x50))
                (skb_tail (packet 6 0x50 0x18 example_buffer)) (boot (steady_clock 5)).
Proof.
  apply (tp_timer_seq_tcp_data TPS_SOCK (packet 6 0x50 0x18 example_buffer)
           (boot (steady_clock 5)) (byte_of 0x50) (byte_of 0x18)).
  - right. apply (packet_names_protocol 6). lia.
  - apply packet_tcp_header.
  - reflexivity.
  - reflexivity.
  - reflexivity.
  - right. vm_compute. discriminate.
Defined.

(** X19.  A packet whose IP header names a protocol other than TCP: for UDP
    [tp_timer_seq] does what [tp_timer_data] does on the bytes from 8 behind
    the start of the transport header to [tail]; for any other protocol it
    returns the state as it was. *)
Theorem tp_timer_seq_not_tcp (id : Z) (skb : sk_buff) (st : kernel) (n : Z) :
  names_protocol skb n -> n <> IPPROTO_TCP ->
  tp_timer_seq id skb st =
  if n =? IPPROTO_UDP
  then tp_timer_data id (skb_mem skb) (h_th skb + 8) (skb_tail skb) st
  else Ok st.
Proof.
  intros (iph & b & Hiph & Hb & Hn) Hne. unfold IPPROTO_TCP, IPPROTO_UDP in *.
  unfold tp_timer_seq. cbv zeta. rewrite Hiph. unfold iph_protocol. rewrite Hb.
  cbn [bind]. rewrite Hn.
  destruct (Z.eqb_spec n 6) as [? | _]; [contradiction |].
  destruct (n =? 17).
  - change (4 * 2) with 8.
    destruct (tp_timer_data id (skb_mem skb) (h_th skb + 8) (skb_tail skb) st);
      reflexivity.
  - reflexivity.
Qed.

Lemma tp_timer_seq_not_tcp_witness :
  tp_timer_seq TPS_SOCK (packet 17 0 0 example_buffer) (boot (steady_clock 5)) =
  if 17 =? IPPROTO_UDP
  then tp_timer_data TPS_SOCK (skb_mem (packet 17 0 0 example_buffer))
                     (h_th (packet 17 0 0 example_buffer) + 8)
                     (skb_tail (packet 17 0 0 example_buffer)) (boot (steady_clock 5))
  else Ok (boot (steady_clock 5)).
Proof.
  apply (tp_timer_seq_not_tcp TPS_SOCK (packet 17 0 0 example_buffer)
           (boot (steady_clock 5)) 17).
  - apply packet_names_protocol. lia.
  - discriminate.
Defined.

(** X20.  [tp_timer_seq] changes the state through [tp_timer_data] only,
    and scans a packet at most once: the state it returns is the state it
    was given or the result of one call of [tp_timer_data] on the memory
    and the [tail] of the packet, and it is a reachable state again. *)
Theorem tp_timer_seq_one_scan (id : Z) (skb : sk_buff) (st st' : kernel) :
  reachable st -> tp_timer_seq id skb st = Ok st' ->
  reachable st' /\
  (st' = st \/
   exists data, tp_timer_data id (skb_mem skb) data (skb_tail skb) st = Ok st').
Proof.
  intros Hr H. unfold tp_timer_seq in H. cbv zeta in H.
  assert (Hscan : forall data s',
            tp_timer_data id (skb_mem skb) data (skb_tail skb) st = Ok s' ->
            reachable s' /\
            (s' = st \/
             exists data, tp_timer_data id (skb_mem skb) data (skb_tail skb) st = Ok s')).
  { intros data s' Hs. split; [| right; eauto].
    eapply reachable_step; [exact Hr |]. eapply step_tp_timer_data. exact Hs. }
  destruct (nh_iph skb) as [iph |].
  - unfold iph_protocol in H. destruct (rd (skb_mem skb) (iph + 9)) as [b | e];
      [| discriminate].
    cbn [bind] in H. destruct (Z.eqb_spec (byte_val b) 17) as [E | E].
    + rewrite E in H. change (17 =? 6) with false in H.
      apply bind_Ok in H as (s1 & H1 & H). cbn [bind] in H.
      apply Ok_inj in H. subst s1. eapply Hscan, H1.
    + cbn [bind] in H. destruct (byte_val b =? 6); [| apply Ok_inj in H; subst; auto].
      apply bind_Ok in H as (d & _ & H). apply bind_Ok in H as (f & _ & H).
      repeat match type of H with
             | (if ?c then _ else _) = _ =>
                 destruct c; [apply Ok_inj in H; subst; auto |]
             end.
      eapply Hscan, H.
  - cbn [bind] in H.
    apply bind_Ok in H as (d & _ & H). apply bind_Ok in H as (f & _ & H).
    repeat match type of H with
           | (if ?c then _ else _) = _ =>
               destruct c; [apply Ok_inj in H; subst; auto |]
           end.
    eapply Hscan, H.
Qed.

Lemma tp_timer_seq_one_scan_witness :
  let st' := value_or (boot (steady_clock 5))
               (tp_timer_seq TPS_SOCK (packet 17 0 0 example_buffer)
                             (boot (steady_clock 5))) in
  reachable st' /\
  (st' = boot (steady_clock 5) \/
   exists data,
     tp_timer_data TPS_SOCK (skb_mem (packet 17 0 0 example_buffer)) data
                   (skb_tail (packet 17 0 0 example_buffer)) (boot (steady_clock 5)) =
     Ok st').
Proof.
  apply (tp_timer_seq_one_scan TPS_SOCK (packet 17 0 0 example_buffer)
           (boot (steady_clock 5))).
  - apply reachable_boot.
  - apply is_Ok_value. vm_compute. reflexivity.
Defined.
